(** * support-toolkit: the log analyzer of [src/main.py]

    A shallow embedding of [analyze_log], the renderers and [main], with the
    parts of the Python runtime they rest on: text decoding, [str.strip],
    the [re] matcher for the constructs [LOG_RE] uses, [collections.Counter]
    and [heapq.nlargest]. *)

From Stdlib Require Import ZArith NArith Lia Ascii String DecimalString.
From Stdlib Require Import Strings.Byte.
From stdpp Require Import base tactics option list sorting gmap sets.

Local Open Scope Z_scope.

(** ** Text

    A Python [str] is a sequence of Unicode code points. *)

Definition char := N.
Definition str := list char.

Definition ord (a : ascii) : char := N_of_ascii a.

(** [u "text"] is the [str] of an ASCII literal of the source. *)
Definition u (s : string) : str := map ord (list_ascii_of_string s).

Definition NL : char := 10%N.
Definition CR : char := 13%N.
Definition QUOTE : char := 34%N.
Definition REPLACEMENT : char := 0xFFFD%N.

(** [str(n)] for an [int]. *)
Definition str_of_int (n : Z) : str := u (NilZero.string_of_int (Z.to_int n)).

(** Truth value of a [str]: the empty string is false. *)
Definition truthy (s : str) : bool :=
  match s with [] => false | _ :: _ => true end.

(** [needle in hay]. *)
Fixpoint starts_with (p s : str) : bool :=
  match p, s with
  | [], _ => true
  | _ :: _, [] => false
  | a :: p', b :: s' => (a =? b)%N && starts_with p' s'
  end.

Fixpoint contains (needle hay : str) : bool :=
  starts_with needle hay ||
  match hay with
  | [] => false
  | _ :: hay' => contains needle hay'
  end.

(** *** Character classes

    [Py_UNICODE_ISSPACE] is the table behind [str.strip()] and the pattern
    class [\s]. *)
Definition Py_UNICODE_ISSPACE (c : char) : bool :=
  ((0x09 <=? c) && (c <=? 0x0D) || (0x1C <=? c) && (c <=? 0x20)
   || (c =? 0x85) || (c =? 0xA0) || (c =? 0x1680)
   || (0x2000 <=? c) && (c <=? 0x200A)
   || (c =? 0x2028) || (c =? 0x2029) || (c =? 0x202F) || (c =? 0x205F)
   || (c =? 0x3000))%N.

Definition ascii_isdigit (c : char) : bool := ((0x30 <=? c) && (c <=? 0x39))%N.

Definition ascii_isalpha (c : char) : bool :=
  ((0x41 <=? c) && (c <=? 0x5A) || (0x61 <=? c) && (c <=? 0x7A))%N.

(** A Unicode database that classifies no code point above U+007F; the
    concrete runs below use it, on ASCII input. *)
Definition ascii_only : char -> bool := fun _ => false.

(** *** Bytes to text

    [open(file_path, "r", encoding="utf-8", errors=...)]: the UTF-8 decoder,
    universal newlines, and iteration over the lines. *)

Inductive exception :=
  | FileNotFoundError (msg : str)
  | UnicodeDecodeError (reason : string)
  | UnicodeEncodeError (reason : string)
  | FileExistsError (path : str)
  | IsADirectoryError (path : str).

Inductive errors_mode := Strict | Replace.

Definition is_continuation (b : N) : bool := ((0x80 <=? b) && (b <=? 0xBF))%N.

(** An ill-formed sequence: with [errors="replace"] one U+FFFD stands for it
    and decoding goes on with [rest]; with [errors="strict"] it raises. *)
Definition ill_formed (errors : errors_mode) (reason : string)
    (rest : exception + str) : exception + str :=
  match errors with
  | Strict => inl (UnicodeDecodeError reason)
  | Replace =>
      match rest with
      | inl e => inl e
      | inr s => inr (REPLACEMENT :: s)
      end
  end.

Definition emit (c : char) (rest : exception + str) : exception + str :=
  match rest with
  | inl e => inl e
  | inr s => inr (c :: s)
  end.

Fixpoint utf8_decode (errors : errors_mode) (bs : list N) : exception + str :=
  match bs with
  | [] => inr []
  | ch :: r0 =>
      if (ch <? 0x80)%N then emit ch (utf8_decode errors r0)
      else if (ch <? 0xC2)%N then
        ill_formed errors "invalid start byte" (utf8_decode errors r0)
      else if (ch <? 0xE0)%N then
        match r0 with
        | [] => ill_formed errors "unexpected end of data" (inr [])
        | ch2 :: r1 =>
            if is_continuation ch2
            then emit ((ch - 0xC0) * 64 + (ch2 - 0x80))%N (utf8_decode errors r1)
            else ill_formed errors "invalid continuation byte"
                   (utf8_decode errors r0)
        end
      else if (ch <? 0xF0)%N then
        match r0 with
        | [] => ill_formed errors "unexpected end of data" (inr [])
        | ch2 :: r1 =>
            if negb (is_continuation ch2)
               || (if (ch2 <? 0xA0)%N then (ch =? 0xE0)%N else (ch =? 0xED)%N)
            then ill_formed errors "invalid continuation byte"
                   (utf8_decode errors r0)
            else
              match r1 with
              | [] => ill_formed errors "unexpected end of data" (inr [])
              | ch3 :: r2 =>
                  if is_continuation ch3
                  then emit ((ch - 0xE0) * 4096 + (ch2 - 0x80) * 64
                             + (ch3 - 0x80))%N (utf8_decode errors r2)
                  else ill_formed errors "invalid continuation byte"
                         (utf8_decode errors r1)
              end
        end
      else if (ch <? 0xF5)%N then
        match r0 with
        | [] => ill_formed errors "unexpected end of data" (inr [])
        | ch2 :: r1 =>
            if negb (is_continuation ch2)
               || (if (ch2 <? 0x90)%N then (ch =? 0xF0)%N else (ch =? 0xF4)%N)
            then ill_formed errors "invalid continuation byte"
                   (utf8_decode errors r0)
            else
              match r1 with
              | [] => ill_formed errors "unexpected end of data" (inr [])
              | ch3 :: r2 =>
                  if negb (is_continuation ch3)
                  then ill_formed errors "invalid continuation byte"
                         (utf8_decode errors r1)
                  else
                    match r2 with
                    | [] => ill_formed errors "unexpected end of data" (inr [])
                    | ch4 :: r3 =>
                        if is_continuation ch4
                        then emit ((ch - 0xF0) * 262144 + (ch2 - 0x80) * 4096
                                   + (ch3 - 0x80) * 64 + (ch4 - 0x80))%N
                               (utf8_decode errors r3)
                        else ill_formed errors "invalid continuation byte"
                               (utf8_decode errors r2)
                    end
              end
        end
      else ill_formed errors "invalid start byte" (utf8_decode errors r0)
  end.

Definition decode (errors : errors_mode) (bs : list byte) : exception + str :=
  utf8_decode errors (map Byte.to_N bs).

(** Universal newlines ([newline=None]): ["\r\n"] and a lone ["\r"] are read
    as ["\n"]. *)
Fixpoint translate_newlines (s : str) : str :=
  match s with
  | [] => []
  | c :: s' =>
      if (c =? CR)%N then
        NL :: match s' with
              | [] => []
              | d :: s'' =>
                  if (d =? NL)%N then translate_newlines s''
                  else translate_newlines s'
              end
      else c :: translate_newlines s'
  end.

(** [for line in f]: each line keeps its ["\n"]; a last line without one is
    yielded too. *)
Fixpoint readlines (s : str) : list str :=
  match s with
  | [] => []
  | c :: s' =>
      if (c =? NL)%N then [c] :: readlines s'
      else match readlines s' with
           | [] => [[c]]
           | l :: ls => (c :: l) :: ls
           end
  end.

(** The UTF-8 encoder of [open(out_path, "w", encoding="utf-8")]: a surrogate
    code point cannot be encoded. *)
Definition utf8_encode_char (c : char) : option (list N) :=
  if (c <? 0x80)%N then Some [c]
  else if (c <? 0x800)%N then Some [0xC0 + c / 64; 0x80 + c mod 64]%N
  else if (0xD800 <=? c)%N && (c <=? 0xDFFF)%N then None
  else if (c <? 0x10000)%N then
    Some [0xE0 + c / 4096; 0x80 + (c / 64) mod 64; 0x80 + c mod 64]%N
  else
    Some [0xF0 + c / 262144; 0x80 + (c / 4096) mod 64;
          0x80 + (c / 64) mod 64; 0x80 + c mod 64]%N.

Fixpoint utf8_encode (s : str) : exception + list N :=
  match s with
  | [] => inr []
  | c :: s' =>
      match utf8_encode_char c with
      | None => inl (UnicodeEncodeError "surrogates not allowed")
      | Some bs =>
          match utf8_encode s' with
          | inl e => inl e
          | inr r => inr (bs ++ r)
          end
      end
  end.

Definition byte_of_N (n : N) : byte :=
  match Byte.of_N n with Some b => b | None => x00 end.

Definition encode (s : str) : exception + list byte :=
  match utf8_encode s with
  | inl e => inl e
  | inr bs => inr (map byte_of_N bs)
  end.

(** [line.strip()]. *)
Fixpoint lstrip (s : str) : str :=
  match s with
  | [] => []
  | c :: s' => if Py_UNICODE_ISSPACE c then lstrip s' else s
  end.

Definition rstrip (s : str) : str := rev (lstrip (rev s)).

Definition strip (s : str) : str := rstrip (lstrip s).

(** ** The [re] matcher

    The pattern constructs of [LOG_RE]: anchors, character classes, literals,
    bounded and unbounded repetition of a class (greedy or lazy), alternation,
    an optional item and named groups. *)

Inductive charset :=
  | Digit          (* \d *)
  | Space          (* \s *)
  | NotSpace       (* \S *)
  | AnyChar.       (* .  *)

Inductive group_name := G_ts | G_level | G_path.

Inductive regex :=
  | Bol                                  (* ^ *)
  | WordBoundary                         (* \b *)
  | Lit (s : str)                        (* literal text *)
  | Repeat (greedy : bool) (lo : nat) (hi : option nat) (cs : charset)
  | Seq (r1 r2 : regex)
  | Alt (r1 r2 : regex)                  (* r1|r2 *)
  | Opt (r : regex)                      (* r? *)
  | Group (g : group_name) (r : regex).  (* (?P<g>r) *)

Definition span := (nat * nat)%type.

Record groups := Groups {
  ts_span : option span;
  level_span : option span;
  path_span : option span
}.

Definition no_groups : groups := Groups None None None.

Definition get_group (g : group_name) (gs : groups) : option span :=
  match g with
  | G_ts => ts_span gs
  | G_level => level_span gs
  | G_path => path_span gs
  end.

Definition set_group (g : group_name) (sp : span) (gs : groups) : groups :=
  match g with
  | G_ts => Groups (Some sp) (level_span gs) (path_span gs)
  | G_level => Groups (ts_span gs) (Some sp) (path_span gs)
  | G_path => Groups (ts_span gs) (level_span gs) (Some sp)
  end.

(** A position in the subject: the character before it, its offset, and the
    text from it on. *)
Record cursor := Cursor {
  before : option char;
  pos : nat;
  rest : str
}.

Record match_object := Match {
  m_string : str;
  m_start : nat;
  m_end : nat;
  m_groups : groups
}.

(** [m.group(name)]: [None] when the group took no part in the match. *)
Definition group (m : match_object) (g : group_name) : option str :=
  match get_group g (m_groups m) with
  | None => None
  | Some (s, e) => Some (take (e - s)%nat (drop s (m_string m)))
  end.

Definition or_else {A} (x : option A) (y : unit -> option A) : option A :=
  match x with
  | Some a => Some a
  | None => y tt
  end.

Fixpoint match_literal (p : str) (c : cursor) : option cursor :=
  match p with
  | [] => Some c
  | a :: p' =>
      match rest c with
      | [] => None
      | x :: r =>
          if (a =? x)%N then match_literal p' (Cursor (Some x) (S (pos c)) r)
          else None
      end
  end.

Definition exact (n : nat) (cs : charset) : regex := Repeat true n (Some n) cs.
Definition plus (cs : charset) : regex := Repeat true 1 None cs.
Definition lazy_star (cs : charset) : regex := Repeat false 0 None cs.

Declare Scope regex_scope.
Delimit Scope regex_scope with re.
Infix "·" := Seq (at level 60, right associativity) : regex_scope.

(** [LOG_RE], lines 13-17:
    [^(?P<ts>\d{4}-\d{2}-\d{2}\s+\d{2}:\d{2}:\d{2})\s+]
    [(?P<level>INFO|WARNING|ERROR)\s+]
    [.*?\bpath=(?P<path>\S+)?] *)
Definition LOG_RE : regex :=
  (Bol
   · Group G_ts (exact 4 Digit · Lit (u "-") · exact 2 Digit · Lit (u "-")
                 · exact 2 Digit · plus Space
                 · exact 2 Digit · Lit (u ":") · exact 2 Digit · Lit (u ":")
                 · exact 2 Digit)
   · plus Space
   · Group G_level (Alt (Lit (u "INFO")) (Alt (Lit (u "WARNING")) (Lit (u "ERROR"))))
   · plus Space
   · lazy_star AnyChar · WordBoundary · Lit (u "path=")
   · Opt (Group G_path (plus NotSpace)))%re.

Definition LEVELS : list str := [u "INFO"; u "WARNING"; u "ERROR"].

(** ** [dict] and [collections.Counter]

    A [dict] keeps its keys in insertion order, and [Counter.most_common]
    depends on that order: a dictionary is the list of its items, first
    inserted first. *)

Section Dict.
Context {K : Type} `{EqDecision K}.

Definition dict (V : Type) := list (K * V).
Definition Counter := dict Z.

(** [d.get(k)]. *)
Fixpoint dict_get {V} (k : K) (d : dict V) : option V :=
  match d with
  | [] => None
  | (k', v) :: d' => if decide (k = k') then Some v else dict_get k d'
  end.

(** [d[k] = v]: a key already present keeps its place. *)
Fixpoint dict_set {V} (k : K) (v : V) (d : dict V) : dict V :=
  match d with
  | [] => [(k, v)]
  | (k', v') :: d' =>
      if decide (k = k') then (k', v) :: d' else (k', v') :: dict_set k v d'
  end.

(** [c[k]] on a [Counter] (a missing key counts 0), also [d.get(k, 0)]. *)
Definition counter_get (k : K) (c : Counter) : Z := default 0 (dict_get k c).

(** [c[k] += 1]. *)
Definition counter_incr (k : K) (c : Counter) : Counter :=
  dict_set k (counter_get k c + 1) c.

(** [sum(c.values())]. *)
Definition sum_values (c : Counter) : Z := foldr (fun e acc => e.2 + acc) 0 c.

(** *** [Counter.most_common(n)] is [heapq.nlargest(n, self.items(),
    key=itemgetter(1))] *)

Definition item := (K * Z)%type.
Definition itemgetter1 (e : item) : Z := e.2.

(** [max(it, key=key)] keeps the first of the greatest items. *)
Fixpoint py_max (best : item) (it : list item) : item :=
  match it with
  | [] => best
  | x :: it' =>
      if itemgetter1 best <? itemgetter1 x then py_max x it' else py_max best it'
  end.

(** [sorted(iterable, key=key, reverse=True)]: greatest key first, items of
    equal key in their original order. *)
Fixpoint insert_desc (x : item) (l : list item) : list item :=
  match l with
  | [] => [x]
  | y :: l' =>
      if itemgetter1 x <? itemgetter1 y then y :: insert_desc x l'
      else x :: y :: l'
  end.

Definition sorted_reverse (l : list item) : list item := foldr insert_desc [] l.

(** The decorated entries [(key(elem), order, elem)] of the general case and
    their tuple comparison: [order] is different in any two entries, so the
    comparison never reaches [elem]. *)
Definition entry := (Z * Z * item)%type.

Definition entry_lt (a b : entry) : bool :=
  (a.1.1 <? b.1.1) || (a.1.1 =? b.1.1) && (a.1.2 <? b.1.2).

(** [heapq] keeps a binary min-heap in a list. The code looks at its least
    entry ([result[0]]) and, after the final [sort], at its contents, never
    at the layout: the heap is represented by its entries in ascending
    order. *)
Fixpoint heappush (t : entry) (h : list entry) : list entry :=
  match h with
  | [] => [t]
  | y :: h' => if entry_lt t y then t :: y :: h' else y :: heappush t h'
  end.

Definition heapify (l : list entry) : list entry :=
  fold_left (fun h t => heappush t h) l [].

(** [heapreplace(heap, item)]: pop the least entry, then push [item]. *)
Definition heapreplace (h : list entry) (t : entry) : list entry :=
  heappush t (tail h).

(** [result.sort(reverse=True)] on entries. *)
Fixpoint insert_entry_desc (t : entry) (l : list entry) : list entry :=
  match l with
  | [] => [t]
  | y :: l' => if entry_lt t y then y :: insert_entry_desc t l' else t :: y :: l'
  end.

Definition sort_entries_reverse (l : list entry) : list entry :=
  foldr insert_entry_desc [] l.

(** [zip(range(0, -n, -1), it)] decorated: the first [n] items get the orders
    0, -1, ..., -(n-1). *)
Fixpoint decorate (order : Z) (l : list item) : list entry :=
  match l with
  | [] => []
  | elem :: l' => (itemgetter1 elem, order, elem) :: decorate (order - 1) l'
  end.

(** The loop [for elem in it] of the general case. *)
Fixpoint nlargest_loop (result : list entry) (top order : Z) (it : list item)
    : list entry :=
  match it with
  | [] => result
  | elem :: it' =>
      let k := itemgetter1 elem in
      if top <? k then
        let result' := heapreplace result (k, order, elem) in
        let top' := match result' with t :: _ => t.1.1 | [] => top end in
        nlargest_loop result' top' (order - 1) it'
      else nlargest_loop result top order it'
  end.

Definition nlargest (n : Z) (items : list item) : list item :=
  if n =? 1 then
    match items with
    | [] => []
    | x :: it => [py_max x it]
    end
  else if Z.of_nat (length items) <=? n then
    take (Z.to_nat n) (sorted_reverse items)
  else
    match heapify (decorate 0 (take (Z.to_nat n) items)) with
    | [] => []
    | t :: h =>
        let result :=
          nlargest_loop (t :: h) t.1.1 (- n) (drop (Z.to_nat n) items) in
        map snd (sort_entries_reverse result)
    end.

Definition most_common (n : Z) (c : Counter) : list item := nlargest n c.

End Dict.

Arguments dict K V : clear implicits.
Arguments Counter K : clear implicits.
Arguments item K : clear implicits.
Arguments entry K : clear implicits.

(** ** The analysis *)

(** The local variables of [analyze_log] that the loop updates. A key of
    [level_counts] is what [m.group("level")] returned. *)
Record locals := Locals {
  level_counts : Counter (option str);
  error_paths : Counter str;
  total_lines : Z;
  parsed_lines : Z;
  invalid_lines : Z
}.

(** The report, a [dict] with these seven keys. *)
Module Report.
Record t := Make {
  generated_at : str;
  file : str;
  total_lines : Z;
  parsed_lines : Z;
  invalid_lines : Z;
  level_counts : dict (option str) Z;
  top_error_paths : list (str * Z)
}.
End Report.

(** What the run sees and changes outside itself: regular files and
    directories by path, the clock as [datetime.utcnow().isoformat()] reads
    it, what was printed, and what was handed to [webbrowser.open]. *)
Record world := World {
  files : gmap str (list byte);
  dirs : gset str;
  utcnow_isoformat : str;
  stdout : str;
  browser : list str
}.

Definition isfile (w : world) (p : str) : bool := bool_decide (is_Some (files w !! p)).

Definition set_files (f : gmap str (list byte)) (w : world) : world :=
  World f (dirs w) (utcnow_isoformat w) (stdout w) (browser w).

Definition set_dirs (d : gset str) (w : world) : world :=
  World (files w) d (utcnow_isoformat w) (stdout w) (browser w).

(** A computation of [main]: it reads and changes the world and either
    returns or raises. *)
Definition M (A : Type) : Type := world -> (exception + A) * world.

#[export] Instance M_ret : MRet M := fun A a w => (inr a, w).

#[export] Instance M_bind : MBind M := fun A B f m w =>
  match m w with
  | (inl e, w') => (inl e, w')
  | (inr a, w') => f a w'
  end.

(** A call that looks at the world and leaves it as it is. *)
Definition reading {A} (f : world -> exception + A) : M A := fun w => (f w, w).

(** [print(s)]. The standard output is taken to accept every string. *)
Definition print (s : str) : M unit := fun w =>
  (inr tt,
   World (files w) (dirs w) (utcnow_isoformat w) (stdout w ++ s ++ [NL])
     (browser w)).

(** [os.makedirs(p, exist_ok=True)] for a one-component path. *)
Definition makedirs_exist_ok (p : str) : M unit := fun w =>
  if bool_decide (p ∈ dirs w) then (inr tt, w)
  else if isfile w p then (inl (FileExistsError p), w)
  else (inr tt, set_dirs ({[p]} ∪ dirs w) w).

(** [with open(p, "w", encoding="utf-8") as f: f.write(text)]: the file is
    created or truncated on opening; text that cannot be encoded leaves it
    empty. *)
Definition write_text (p : str) (text : str) : M unit := fun w =>
  if bool_decide (p ∈ dirs w) then (inl (IsADirectoryError p), w)
  else
    match encode text with
    | inl e => (inl e, set_files (<[p := []]> (files w)) w)
    | inr bs => (inr tt, set_files (<[p := bs]> (files w)) w)
    end.

Definition webbrowser_open (p : str) : M unit := fun w =>
  (inr tt,
   World (files w) (dirs w) (utcnow_isoformat w) (stdout w) (browser w ++ [p])).

(** The status the interpreter exits with: 1 after an exception nobody
    caught. *)
Definition exit_status {A} (r : exception + A) : Z :=
  match r with
  | inl _ => 1
  | inr _ => 0
  end.

(** [sep.join(parts)]. *)
Fixpoint join (sep : str) (parts : list str) : str :=
  match parts with
  | [] => []
  | [x] => x
  | x :: rest => x ++ sep ++ join sep rest
  end.

(** *** [json.dump(report, f, indent=2)] *)

Definition hex_digit (n : N) : char :=
  (if n <? 10 then 0x30 + n else 0x61 + (n - 10))%N.

Definition u_escape (c : N) : str :=
  u "\u" ++ [hex_digit (c / 4096 mod 16); hex_digit (c / 256 mod 16);
             hex_digit (c / 16 mod 16); hex_digit (c mod 16)]%N.

(** [py_encode_basestring_ascii]: everything outside [' '..'~'] is escaped,
    above U+FFFF as a surrogate pair. *)
Definition json_escape_char (c : char) : str :=
  if (c =? QUOTE)%N then [0x5C; QUOTE]%N
  else if (c =? 0x5C)%N then [0x5C; 0x5C]%N
  else if (c =? 0x0A)%N then u "\n"
  else if (c =? 0x0D)%N then u "\r"
  else if (c =? 0x09)%N then u "\t"
  else if (c =? 0x0C)%N then u "\f"
  else if (c =? 0x08)%N then u "\b"
  else if (0x20 <=? c)%N && (c <=? 0x7E)%N then [c]
  else if (c <? 0x10000)%N then u_escape c
  else
    let n := (c - 0x10000)%N in
    u_escape (0xD800 + n / 1024 mod 1024)%N ++ u_escape (0xDC00 + n mod 1024)%N.

Definition json_string (s : str) : str :=
  [QUOTE] ++ concat (map json_escape_char s) ++ [QUOTE].

#[warnings="-register-all"]
Inductive json :=
  | JStr (s : str)
  | JInt (n : Z)
  | JList (l : list json)
  | JDict (l : list (str * json)).

Definition newline_indent (level : nat) : str := NL :: repeat 0x20%N (2 * level).

Fixpoint json_dumps (level : nat) (j : json) : str :=
  match j with
  | JStr s => json_string s
  | JInt n => str_of_int n
  | JList [] => u "[]"
  | JList l =>
      u "[" ++ newline_indent (S level)
      ++ join (u "," ++ newline_indent (S level)) (map (json_dumps (S level)) l)
      ++ newline_indent level ++ u "]"
  | JDict [] => u "{}"
  | JDict l =>
      u "{" ++ newline_indent (S level)
      ++ join (u "," ++ newline_indent (S level))
           (map (fun kv => json_string kv.1 ++ u ": " ++ json_dumps (S level) kv.2) l)
      ++ newline_indent level ++ u "}"
  end.

(** A key that is [None] is written as ["null"]. *)
Definition json_key (k : option str) : str := default (u "null") k.

Definition json_of_report (r : Report.t) : json :=
  JDict [
    (u "generated_at", JStr (Report.generated_at r));
    (u "file", JStr (Report.file r));
    (u "total_lines", JInt (Report.total_lines r));
    (u "parsed_lines", JInt (Report.parsed_lines r));
    (u "invalid_lines", JInt (Report.invalid_lines r));
    (u "level_counts",
     JDict (map (fun kv => (json_key kv.1, JInt kv.2)) (Report.level_counts r)));
    (u "top_error_paths",
     JList (map (fun pc => JList [JStr pc.1; JInt pc.2]) (Report.top_error_paths r)))
  ].

(** *** The renderers, lines 67-145 *)

Definition ensure_output_dir : M unit := makedirs_exist_ok (u "output").

Definition save_report (report : Report.t) : M str :=
  _ ← ensure_output_dir;
  let out_path := u "output/report.json" in
  _ ← write_text out_path (json_dumps 0 (json_of_report report));
  mret out_path.

(** [report['level_counts'].get(lvl, 0)]. *)
Definition level_count (report : Report.t) (lvl : string) : Z :=
  counter_get (Some (u lvl)) (Report.level_counts report).

Definition html_head (report : Report.t) : str :=
  join [NL] [
    [];
    u "    <html>";
    u "    <head>";
    u "        <title>Support Toolkit Report</title>";
    u "        <style>";
    u "            body { font-family: Arial; margin: 40px; }";
    u "            table { border-collapse: collapse; width: 50%; }";
    u "            th, td { border: 1px solid #ccc; padding: 8px; text-align: left; }";
    u "            th { background-color: #f2f2f2; }";
    u "            .error { color: red; }";
    u "        </style>";
    u "    </head>";
    u "    <body>";
    u "        <h1>Support Toolkit Report</h1>";
    u "        <p><strong>File:</strong> " ++ Report.file report ++ u "</p>";
    u "        <p><strong>Total lines:</strong> "
      ++ str_of_int (Report.total_lines report) ++ u "</p>";
    u "        <p><strong>Parsed lines:</strong> "
      ++ str_of_int (Report.parsed_lines report) ++ u "</p>";
    [];
    u "        <h2>Log Levels</h2>";
    u "        <ul>";
    u "            <li>INFO: " ++ str_of_int (level_count report "INFO") ++ u "</li>";
    u "            <li>WARNING: " ++ str_of_int (level_count report "WARNING")
      ++ u "</li>";
    u "            <li class=" ++ [QUOTE] ++ u "error" ++ [QUOTE] ++ u ">ERROR: "
      ++ str_of_int (level_count report "ERROR") ++ u "</li>";
    u "        </ul>";
    [];
    u "        <h2>Top ERROR Paths</h2>";
    u "        <table>";
    u "            <tr><th>Path</th><th>Count</th></tr>";
    u "    "
  ].

Definition html_row (pc : str * Z) : str :=
  u "<tr><td>" ++ pc.1 ++ u "</td><td>" ++ str_of_int pc.2 ++ u "</td></tr>".

Definition html_tail : str :=
  join [NL] [
    [];
    u "        </table>";
    u "    </body>";
    u "    </html>";
    u "    "
  ].

(** [html_content] as [save_html_report] builds it, lines 82-119. *)
Definition html_content (report : Report.t) : str :=
  html_head report
  ++ concat (map html_row (Report.top_error_paths report))
  ++ html_tail.

Definition save_html_report (report : Report.t) : M str :=
  _ ← ensure_output_dir;
  let out_path := u "output/report.html" in
  _ ← write_text out_path (html_content report);
  _ ← webbrowser_open out_path;
  mret out_path.

(** What [print_summary] prints, one [print] call per element. *)
Definition summary_lines (report : Report.t) : list str :=
  [ NL :: u "=== Support Toolkit Report ===";
    u "File: " ++ Report.file report;
    u "Generated: " ++ Report.generated_at report;
    u "Total lines: " ++ str_of_int (Report.total_lines report);
    u "Parsed lines: " ++ str_of_int (Report.parsed_lines report);
    u "Invalid lines: " ++ str_of_int (Report.invalid_lines report);
    NL :: u "Level counts:" ]
  ++ map (fun lvl =>
            u "  " ++ lvl ++ u ": "
            ++ str_of_int (counter_get (Some lvl) (Report.level_counts report)))
       LEVELS
  ++ [ NL :: u "Top ERROR paths:" ]
  ++ match Report.top_error_paths report with
     | [] => [ u "  (none)" ]
     | top =>
         map (fun pc => u "  " ++ pc.1 ++ u ": " ++ str_of_int pc.2) top
     end.

Fixpoint print_all (ls : list str) : M unit :=
  match ls with
  | [] => mret tt
  | l :: ls' => _ ← print l; print_all ls'
  end.

Definition print_summary (report : Report.t) : M unit :=
  print_all (summary_lines report).

(** The parsed command line: [--file] and [--top] (an [int], 5 when not
    given). *)
Record Namespace := Args {
  arg_file : str;
  arg_top : Z
}.

(** ** Notions the statements below are written in *)

(** The groups a pattern can set. *)
Fixpoint mentions (g : group_name) (r : regex) : bool :=
  match r with
  | Bol | WordBoundary | Lit _ | Repeat _ _ _ _ => false
  | Seq r1 r2 | Alt r1 r2 => mentions g r1 || mentions g r2
  | Opt r1 => mentions g r1
  | Group g' r1 =>
      match g, g' with
      | G_ts, G_ts | G_level, G_level | G_path, G_path => true
      | _, _ => false
      end || mentions g r1
  end.

(** [c'] lies [length mid] characters behind [c] in the same subject. *)
Definition extends (c c' : cursor) : Prop :=
  exists mid, rest c = mid ++ rest c' /\ pos c' = (pos c + length mid)%nat.

Section SortingNotions.
Context {K : Type}.

(** [x] put behind every item that counts at least as much. *)
Fixpoint insert_last (x : item K) (l : list (item K)) : list (item K) :=
  match l with
  | [] => [x]
  | y :: l' => if y.2 <? x.2 then x :: y :: l' else y :: insert_last x l'
  end.

(** [x] put in front of the first item that counts at least as much. *)
Fixpoint insert_asc (x : item K) (l : list (item K)) : list (item K) :=
  match l with
  | [] => [x]
  | y :: l' => if x.2 <=? y.2 then x :: y :: l' else y :: insert_asc x l'
  end.

(** The spec's order of the entries: by count descending, and the entries
    of one count in the order the dictionary holds them (first inserted
    first). *)
Definition stable_sorted_desc (items sorted : list (item K)) : Prop :=
  sorted ≡ₚ items
  /\ StronglySorted (fun a b => b.2 <= a.2) sorted
  /\ forall c, filter (fun e => e.2 = c) sorted = filter (fun e => e.2 = c) items.

(** The heap of the general case of [nlargest] while it stands for [top]:
    its entries, greatest first, are [top]; every key is the item's count;
    every order is above the next one to hand out. *)
Definition heap_inv (h : list (entry K)) (order : Z) (top : list (item K)) : Prop :=
  map snd (rev h) = top
  /\ Forall (fun t : entry K => t.1.1 = t.2.2 /\ order < t.1.2) h
  /\ StronglySorted (fun a b => entry_lt a b = true) h.

End SortingNotions.

(** The distinct elements of a list, in the order of their first
    occurrence. *)
Definition first_seen {A} `{EqDecision A} (l : list A) : list A :=
  fold_left (fun acc x => if decide (x ∈ acc) then acc else acc ++ [x]) l [].

(** The longest prefix of characters that satisfy [P]. *)
Fixpoint take_while (P : char -> bool) (s : str) : str :=
  match s with
  | [] => []
  | c :: s' => if P c then c :: take_while P s' else []
  end.

(** The position [length run] characters behind [c], when [run] is the text
    in between. *)
Definition advance (c : cursor) (run : str) : cursor :=
  Cursor (from_option Some (before c) (last run)) (pos c + length run)
    (drop (length run) (rest c)).

(** The parts of a log line, in the order of [LOG_RE]. *)
Record line_parts := Parts {
  p_year : str;
  p_month : str;
  p_day : str;
  p_gap : str;      (* between date and time *)
  p_hour : str;
  p_minute : str;
  p_second : str;
  p_sep1 : str;     (* between time stamp and level *)
  p_level : str;
  p_sep2 : str;     (* behind the level *)
  p_text : str;     (* up to the path= *)
  p_tail : str      (* behind the path= *)
}.

Definition timestamp_of (x : line_parts) : str :=
  p_year x ++ u "-" ++ p_month x ++ u "-" ++ p_day x ++ p_gap x
  ++ p_hour x ++ u ":" ++ p_minute x ++ u ":" ++ p_second x.

Definition line_of (x : line_parts) : str :=
  timestamp_of x ++ p_sep1 x ++ p_level x ++ p_sep2 x ++ p_text x
  ++ u "path=" ++ p_tail x.

Definition spaces (s : str) : Prop :=
  s <> [] /\ Forall (fun c => Py_UNICODE_ISSPACE c = true) s.

Definition not_space (c : char) : bool := negb (Py_UNICODE_ISSPACE c).

(** The line breaks of a text, and whether its last line lacks one. *)
Definition line_breaks (s : list char) : nat :=
  length (filter (fun c => c = NL) s).

Definition open_ended (s : str) : bool :=
  match last s with
  | Some c => negb (c =? NL)%N
  | None => false
  end.

(** A line as [for line in f] yields it: not empty, and with a line break
    at its end or nowhere. *)
Definition is_line (l : str) : Prop :=
  exists body, (NL ∉ body) /\ (l = body ++ [NL] \/ (l = body /\ body <> [])).

(** A Unicode scalar value: a code point that is no surrogate. *)
Definition is_scalar (c : char) : bool :=
  ((c <? 0xD800) || (0xE000 <=? c) && (c <? 0x110000))%N.

Definition scalars (s : str) : Prop := Forall (fun c => is_scalar c = true) s.

(** A printable ASCII character or a line break. *)
Definition is_plain (c : char) : bool :=
  ((c =? NL) || (0x20 <=? c) && (c <=? 0x7E))%N.

Definition plain (s : str) : Prop := Forall (fun c => is_plain c = true) s.

(** What a sequence of [print] calls appends to the standard output. *)
Definition printed (ls : list str) : str := concat (map (fun l => l ++ [NL]) ls).

(** The paths [main] writes to, and what it prints after writing. *)
Definition JSON_PATH : str := u "output/report.json".
Definition HTML_PATH : str := u "output/report.html".

Definition saved_json_message : str :=
  NL :: u "Saved JSON report to: " ++ JSON_PATH ++ [NL].

Definition saved_html_message : str :=
  NL :: u "Saved HTML report to: " ++ HTML_PATH ++ [NL].

(** The bytes of the JSON report. *)
Definition json_bytes (r : Report.t) : list byte :=
  map byte_of_N (json_dumps 0 (json_of_report r)).

(** From [w] to [w'] no file but the two reports has changed, no directory
    but [output] was made, the clock was not touched, and the standard
    output and the list of pages opened have only grown, the latter by the
    HTML report at most. *)
Definition only_outputs_changed (w w' : world) : Prop :=
  (forall p, p <> JSON_PATH -> p <> HTML_PATH -> files w' !! p = files w !! p)
  /\ dirs w ⊆ dirs w'
  /\ dirs w' ⊆ {[u "output"]} ∪ dirs w
  /\ utcnow_isoformat w' = utcnow_isoformat w
  /\ (exists out, stdout w' = stdout w ++ out)
  /\ (exists pages, browser w' = browser w ++ pages
                    /\ Forall (fun p => p = HTML_PATH) pages).

(** ** Sample inputs *)

Definition bytes (s : string) : list byte := list_byte_of_string s.

Definition sample_world (content : list byte) : world :=
  World {[ u "app.log" := content ]} ∅ (u "2026-02-18T07:05:00") [] [].

Definition sample_args : Namespace := Args (u "app.log") 5.

(** A line with a time stamp and a level, and no [path=]. *)
Definition line_without_path : str :=
  u "2026-02-18 07:01:06 INFO service=api msg=started" ++ [NL].

(** A line whose [path=] is followed by white space. *)
Definition line_with_empty_path : str :=
  u "2026-02-18 07:01:07 ERROR service=api path= status=500" ++ [NL].

(** The scenario of the spec: two log lines and one that is none. *)
Definition scenario_log : list byte :=
  bytes "2026-02-18 07:01:05 ERROR service=api msg=x path=/login status=500"
  ++ [x0a] ++ bytes "2026-02-18 07:01:06 INFO path=/home"
  ++ [x0a] ++ bytes "not a log line" ++ [x0a].

(** Bytes that are not UTF-8, before a log line. *)
Definition undecodable_log : list byte :=
  [xff; xfe; xc0; x80; x0a]
  ++ bytes "2026-02-18 07:01:05 ERROR path=/a" ++ [xe2; x82].

(** The report of an empty [app.log] in [sample_world]. *)
Definition empty_log_report : Report.t :=
  Report.Make (u "2026-02-18T07:05:00Z") (u "app.log") 0 0 0 [] [].

(** The lines and the report of [scenario_log]. *)
Definition scenario_lines : list str :=
  [ u "2026-02-18 07:01:05 ERROR service=api msg=x path=/login status=500" ++ [NL];
    u "2026-02-18 07:01:06 INFO path=/home" ++ [NL];
    u "not a log line" ++ [NL] ].

Definition scenario_report (generated_at file : string) : Report.t :=
  Report.Make (u generated_at) (u file) 3 2 1
    [(Some (u "ERROR"), 1); (Some (u "INFO"), 1)] [(u "/login", 1)].

(** The same contents under another name, in another world at another
    time. *)
Definition other_world : world :=
  World {[ u "copy.log" := scenario_log; u "output" := [] ]} {[ u "tmp" ]}
    (u "2027-01-01T00:00:00") (u "earlier output") [u "index.html"].

(** A world without [app.log]. *)
Definition world_without_source : world :=
  World {[ u "other.log" := scenario_log ]} ∅ (u "2026-02-18T07:05:00") [] [].

(** The match of [LOG_RE] on [line_with_empty_path], stripped. *)
Definition empty_path_match : match_object :=
  Match (strip line_with_empty_path) 0 43
    (Groups (Some (0, 19)%nat) (Some (20, 25)%nat) None).

(** Error paths with a tie, and their order. *)
Definition tied_error_paths : locals :=
  Locals [(Some (u "ERROR"), 5)] [(u "/a", 2); (u "/b", 1); (u "/c", 2)] 5 5 0.

Definition tied_sorted : list (str * Z) := [(u "/a", 2); (u "/c", 2); (u "/b", 1)].

(** The lines of [scenario_log] with the first two exchanged. *)
Definition scenario_lines_reordered : list str :=
  [ u "2026-02-18 07:01:06 INFO path=/home" ++ [NL];
    u "2026-02-18 07:01:05 ERROR service=api msg=x path=/login status=500" ++ [NL];
    u "not a log line" ++ [NL] ].

(** The text of [scenario_log]. *)
Definition scenario_text : str := concat scenario_lines.



Section Analyzer.

(** The interpreter's Unicode database above U+007F: which code points are
    decimal digits ([Py_UNICODE_ISDECIMAL]) and which are alphanumeric
    ([Py_UNICODE_ISALNUM]). *)
Context (unicode_isdecimal unicode_isalnum : char -> bool).

Definition is_digit (c : char) : bool :=
  if (c <? 0x80)%N then ascii_isdigit c else unicode_isdecimal c.

Definition is_word (c : char) : bool :=
  if (c <? 0x80)%N then ascii_isalpha c || ascii_isdigit c || (c =? 0x5F)%N
  else unicode_isalnum c.

Definition in_charset (cs : charset) (c : char) : bool :=
  match cs with
  | Digit => is_digit c
  | Space => Py_UNICODE_ISSPACE c
  | NotSpace => negb (Py_UNICODE_ISSPACE c)
  | AnyChar => negb (c =? NL)%N
  end.

Definition word_at (o : option char) : bool :=
  match o with
  | None => false
  | Some c => is_word c
  end.

(** [cs{lo,hi}] from the position [(b, i, s)]: a greedy repetition takes one
    more character first and gives it back on failure of what follows; a lazy
    one tries what follows first. *)
Fixpoint repeat_class {A} (greedy : bool) (cs : charset) (lo : nat) (hi : option nat)
    (b : option char) (i : nat) (s : str) (k : cursor -> option A) : option A :=
  let stop (_ : unit) :=
    match lo with
    | O => k (Cursor b i s)
    | S _ => None
    end in
  let more (_ : unit) :=
    match hi, s with
    | Some O, _ => None
    | _, [] => None
    | _, x :: s' =>
        if in_charset cs x
        then repeat_class greedy cs (pred lo) (pred <$> hi) (Some x) (S i) s' k
        else None
    end in
  if greedy then or_else (more tt) stop else or_else (stop tt) more.

(** Backtracking matcher: [k] is what remains to be matched after [r]. *)
Fixpoint exec {A} (r : regex) (c : cursor) (gs : groups)
    (k : cursor -> groups -> option A) : option A :=
  match r with
  | Bol => if (pos c =? 0)%nat then k c gs else None
  | WordBoundary =>
      if xorb (word_at (before c)) (word_at (head (rest c))) then k c gs
      else None
  | Lit s =>
      match match_literal s c with
      | Some c' => k c' gs
      | None => None
      end
  | Repeat greedy lo hi cs =>
      repeat_class greedy cs lo hi (before c) (pos c) (rest c)
        (fun c' => k c' gs)
  | Seq r1 r2 => exec r1 c gs (fun c' gs' => exec r2 c' gs' k)
  | Alt r1 r2 => or_else (exec r1 c gs k) (fun _ => exec r2 c gs k)
  | Opt r1 => or_else (exec r1 c gs k) (fun _ => k c gs)
  | Group g r1 =>
      exec r1 c gs (fun c' gs' => k c' (set_group g (pos c, pos c') gs'))
  end.

(** [pattern.search(line)]: the first start offset at which the pattern
    matches. *)
Fixpoint search_from (r : regex) (line : str) (b : option char) (i : nat)
    (s : str) : option match_object :=
  or_else
    (exec r (Cursor b i s) no_groups
       (fun c gs => Some (Match line i (pos c) gs)))
    (fun _ =>
       match s with
       | [] => None
       | x :: s' => search_from r line (Some x) (S i) s'
       end).

Definition re_search (r : regex) (line : str) : option match_object :=
  search_from r line None 0 line.

Definition LOG_RE_search (line : str) : option match_object :=
  re_search LOG_RE line.

(** The body of [for line in f], lines 37-54. *)
Definition loop_body (st : locals) (line : str) : locals :=
  let total_lines := total_lines st + 1 in
  let line := strip line in
  if negb (truthy line) then
    Locals (level_counts st) (error_paths st) total_lines
      (parsed_lines st) (invalid_lines st)
  else
    match LOG_RE_search line with
    | None =>
        Locals (level_counts st) (error_paths st) total_lines
          (parsed_lines st) (invalid_lines st + 1)
    | Some m =>
        let parsed_lines := parsed_lines st + 1 in
        let level := group m G_level in
        let path := group m G_path in
        let level_counts := counter_incr level (level_counts st) in
        let error_paths :=
          match path with
          | Some p =>
              if bool_decide (level = Some (u "ERROR")) && truthy p
              then counter_incr p (error_paths st)
              else error_paths st
          | None => error_paths st
          end in
        Locals level_counts error_paths total_lines parsed_lines
          (invalid_lines st)
    end.

Definition initial : locals := Locals [] [] 0 0 0.

Definition scan (lines : list str) : locals := fold_left loop_body lines initial.

(** The lines that iterating over a text file of these bytes yields. *)
Definition open_lines (errors : errors_mode) (bs : list byte)
    : exception + list str :=
  match decode errors bs with
  | inl e => inl e
  | inr text => inr (readlines (translate_newlines text))
  end.

(** [open(p, "r", encoding="utf-8", errors=errors)] and [for line in f]. *)
Definition open_read (errors : errors_mode) (w : world) (p : str)
    : exception + list str :=
  match files w !! p with
  | None =>
      inl (FileNotFoundError
             (u "[Errno 2] No such file or directory: '" ++ p ++ u "'"))
  | Some bs => open_lines errors bs
  end.

Definition build_report (w : world) (file_path : str) (top_n : Z)
    (st : locals) : Report.t :=
  Report.Make (utcnow_isoformat w ++ u "Z") file_path (total_lines st)
    (parsed_lines st) (invalid_lines st) (level_counts st)
    (most_common top_n (error_paths st)).

Definition analyze_log (w : world) (file_path : str) (top_n : Z)
    : exception + Report.t :=
  if negb (isfile w file_path) then
    inl (FileNotFoundError (u "Log file not found: " ++ file_path))
  else
    match open_read Replace w file_path with
    | inl e => inl e
    | inr lines => inr (build_report w file_path top_n (scan lines))
    end.

(** [main], lines 147-154, after [parse_args]. *)
Definition main (args : Namespace) : M unit :=
  report ← reading (fun w => analyze_log w (arg_file args) (arg_top args));
  _ ← print_summary report;
  out_path ← save_report report;
  _ ← print (NL :: u "Saved JSON report to: " ++ out_path ++ [NL]);
  out_path ← save_html_report report;
  print (NL :: u "Saved HTML report to: " ++ out_path ++ [NL]).

(** *** What the statements about a run are written in *)

(** The lines the run iterates over, for a source that exists. *)
Definition file_lines (w : world) (p : str) : option (list str) :=
  match files w !! p with
  | None => None
  | Some bs =>
      match open_lines Replace bs with
      | inl _ => None
      | inr lines => Some lines
      end
  end.

(** A line is blank when nothing is left of it after [strip]. *)
Definition is_blank (line : str) : bool := negb (truthy (strip line)).

Definition blank_lines_skipped (lines : list str) : Z :=
  Z.of_nat (length (filter (fun l => is_blank l = true) lines)).

(** The level of a line that is parsed: what [m.group("level")] is on the
    stripped line. *)
Definition parsed_level (line : str) : option (option str) :=
  if is_blank line then None
  else match LOG_RE_search (strip line) with
       | None => None
       | Some m => Some (group m G_level)
       end.

Definition lines_of_level (k : option str) (lines : list str) : Z :=
  Z.of_nat (length (filter (fun l => parsed_level l = Some k) lines)).

(** The offset just behind the [path=] that a match of [LOG_RE] found: where
    the [path] group starts, or the end of the match when the group took no
    part. *)
Definition marker_end (m : match_object) : nat :=
  match path_span (m_groups m) with
  | Some (s, _) => s
  | None => m_end m
  end.

(** What follows an offset is white space or the end of the line. *)
Definition space_or_end_at (line : str) (i : nat) : Prop :=
  match drop i line with
  | [] => True
  | c :: _ => Py_UNICODE_ISSPACE c = true
  end.

(** The path that a line adds to [error_paths]: the [path] group of an
    ERROR line, when the group is there and is not empty. *)
Definition error_path_of (line : str) : option str :=
  if is_blank line then None
  else match LOG_RE_search (strip line) with
       | None => None
       | Some m =>
           match group m G_path with
           | Some p =>
               if bool_decide (group m G_level = Some (u "ERROR")) && truthy p
               then Some p else None
           | None => None
           end
       end.

Definition lines_of_path (p : str) (lines : list str) : Z :=
  Z.of_nat (length (filter (fun l => error_path_of l = Some p) lines)).

(** A line is parsed when it is not blank and matches [LOG_RE]; it is
    invalid when it is not blank and does not match. *)
Definition is_parsed (line : str) : bool :=
  match parsed_level line with
  | Some _ => true
  | None => false
  end.

Definition is_invalid (line : str) : bool :=
  negb (is_blank line) && negb (is_parsed line).

Definition parsed_count (lines : list str) : Z :=
  Z.of_nat (length (filter (fun l => is_parsed l = true) lines)).

Definition invalid_count (lines : list str) : Z :=
  Z.of_nat (length (filter (fun l => is_invalid l = true) lines)).

Definition digits (n : nat) (s : str) : Prop :=
  length s = n /\ Forall (fun c => is_digit c = true) s.

(** The shape [LOG_RE] asks for: digits and separators of the time stamp,
    white space, one of the three levels, white space, text without a line
    break, and [path=] at a word boundary. *)
Definition well_formed (x : line_parts) : Prop :=
  digits 4 (p_year x) /\ digits 2 (p_month x) /\ digits 2 (p_day x)
  /\ spaces (p_gap x)
  /\ digits 2 (p_hour x) /\ digits 2 (p_minute x) /\ digits 2 (p_second x)
  /\ spaces (p_sep1 x)
  /\ p_level x ∈ LEVELS
  /\ spaces (p_sep2 x)
  /\ Forall (fun c => c <> NL) (p_text x)
  /\ word_at (last (p_sep2 x ++ p_text x)) = false.

(** [r] can match from [c] up to [c']: whatever follows, if it succeeds at
    [c'], the whole succeeds. *)
Definition accepts (r : regex) (c c' : cursor) : Prop :=
  forall A (k : cursor -> groups -> option A),
    (forall gs, is_Some (k c' gs)) -> forall gs, is_Some (exec r c gs k).

(** * Theorems *)

(** ** Sorting and [nlargest] *)

Section SortingFacts.
Context {K : Type} `{EqDecision K}.
Implicit Types (x y : item K) (l s : list (item K)) (h : list (entry K)).

Lemma insert_desc_insert_last x a s :
  insert_desc a (insert_last x s) = insert_last x (insert_desc a s).
Proof.
  induction s as [|y s IH]; simpl; unfold itemgetter1 in *.
  - destruct (Z.ltb_spec a.2 x.2), (Z.ltb_spec x.2 a.2); try reflexivity; lia.
  - destruct (Z.ltb_spec y.2 x.2), (Z.ltb_spec a.2 y.2); simpl; unfold itemgetter1;
      repeat match goal with
             | |- context [(?p <? ?q)] => destruct (Z.ltb_spec p q); try lia; simpl
             end;
      rewrite ?IH; reflexivity.
Qed.

Lemma sorted_reverse_snoc l x :
  sorted_reverse (l ++ [x]) = insert_last x (sorted_reverse l).
Proof.
  induction l as [|a l IH]; simpl; [reflexivity|].
  rewrite IH. apply insert_desc_insert_last.
Qed.

Lemma insert_last_all_ge x s :
  Forall (fun z => x.2 <= z.2) s -> insert_last x s = s ++ [x].
Proof.
  induction 1 as [|y s Hy _ IH]; simpl; [reflexivity|].
  destruct (Z.ltb_spec y.2 x.2); [lia|]. by rewrite IH.
Qed.

Lemma insert_last_snoc_lt x y s :
  y.2 < x.2 -> insert_last x (s ++ [y]) = insert_last x s ++ [y].
Proof.
  intros Hlt. induction s as [|z s IH]; simpl.
  - destruct (Z.ltb_spec y.2 x.2); [reflexivity|lia].
  - destruct (Z.ltb_spec z.2 x.2); [reflexivity|]. by rewrite IH.
Qed.

Lemma length_insert_last x s : length (insert_last x s) = S (length s).
Proof.
  induction s as [|y s IH]; simpl; [reflexivity|].
  destruct (y.2 <? x.2); simpl; [reflexivity|]. by rewrite IH.
Qed.

Lemma take_insert_last n x s :
  take n (insert_last x s) = take n (insert_last x (take n s)).
Proof.
  revert n. induction s as [|y s IH]; intros [|n]; simpl; try reflexivity.
  destruct (y.2 <? x.2); simpl; [|by rewrite IH].
  destruct n as [|n]; simpl; [reflexivity|].
  rewrite take_take. do 3 f_equal. lia.
Qed.

Lemma insert_desc_perm x s : insert_desc x s ≡ₚ x :: s.
Proof.
  induction s as [|y s IH]; simpl; [reflexivity|].
  destruct (itemgetter1 x <? itemgetter1 y); [|reflexivity].
  rewrite IH. apply Permutation_swap.
Qed.

Lemma sorted_reverse_perm l : sorted_reverse l ≡ₚ l.
Proof.
  induction l as [|x l IH]; simpl; [reflexivity|].
  rewrite insert_desc_perm. by rewrite IH.
Qed.

Lemma length_sorted_reverse l : length (sorted_reverse l) = length l.
Proof. by rewrite sorted_reverse_perm. Qed.

Lemma insert_desc_sorted x s :
  StronglySorted (fun a b => b.2 <= a.2) s ->
  StronglySorted (fun a b => b.2 <= a.2) (insert_desc x s).
Proof.
  induction 1 as [|y s Hs IH Hy]; simpl.
  - repeat constructor.
  - unfold itemgetter1. destruct (Z.ltb_spec x.2 y.2).
    + constructor; [exact IH|].
      rewrite insert_desc_perm. constructor; [lia|exact Hy].
    + constructor; [by constructor|].
      constructor; [lia|]. eapply Forall_impl; [exact Hy|]. simpl. intros. lia.
Qed.

Lemma sorted_reverse_sorted l :
  StronglySorted (fun a b => b.2 <= a.2) (sorted_reverse l).
Proof.
  induction l as [|x l IH]; simpl; [constructor|]. by apply insert_desc_sorted.
Qed.

Lemma filter_insert_desc c x s :
  filter (fun e : item K => e.2 = c) (insert_desc x s)
  = filter (fun e : item K => e.2 = c) (x :: s).
Proof.
  induction s as [|y s IH]; simpl; [reflexivity|].
  unfold itemgetter1. destruct (Z.ltb_spec x.2 y.2); [|reflexivity].
  rewrite !filter_cons in *. rewrite IH.
  destruct (decide (x.2 = c)), (decide (y.2 = c)); try reflexivity. lia.
Qed.

Lemma sorted_reverse_stable l : stable_sorted_desc l (sorted_reverse l).
Proof.
  split; [apply sorted_reverse_perm|]. split; [apply sorted_reverse_sorted|].
  intros c. induction l as [|x l IH]; simpl; [reflexivity|].
  rewrite filter_insert_desc, !filter_cons. fold (sorted_reverse l).
  destruct (decide (x.2 = c)); [f_equal|]; exact IH.
Qed.

(** *** The heap of the general case *)

Lemma rev_insert_asc x l :
  StronglySorted (fun a b => a.2 <= b.2) l ->
  rev (insert_asc x l) = insert_last x (rev l).
Proof.
  induction 1 as [|y l Hl IH Hy]; simpl; [reflexivity|].
  destruct (Z.leb_spec x.2 y.2).
  - simpl. symmetry. apply insert_last_all_ge.
    apply Forall_app. split.
    + apply Forall_rev. eapply Forall_impl; [exact Hy|]. simpl. intros. lia.
    + constructor; [lia|constructor].
  - simpl. rewrite IH. symmetry. apply insert_last_snoc_lt. lia.
Qed.

Lemma heappush_undecorated x o h :
  Forall (fun t : entry K => t.1.1 = t.2.2 /\ o < t.1.2) h ->
  map snd (heappush (x.2, o, x) h) = insert_asc x (map snd h).
Proof.
  induction 1 as [|y h [Hk Ho] _ IH]; simpl; [reflexivity|].
  unfold entry_lt. simpl.
  destruct (Z.leb_spec x.2 y.2.2).
  - assert ((x.2 <? y.1.1) || (x.2 =? y.1.1) && (o <? y.1.2) = true) as ->.
    { destruct (Z.ltb_spec x.2 y.1.1); [reflexivity|]. simpl.
      apply andb_true_iff. split; [apply Z.eqb_eq|apply Z.ltb_lt]; lia. }
    reflexivity.
  - assert ((x.2 <? y.1.1) || (x.2 =? y.1.1) && (o <? y.1.2) = false) as ->.
    { apply orb_false_iff. split; [apply Z.ltb_ge; lia|].
      apply andb_false_iff. left. apply Z.eqb_neq. lia. }
    simpl. by rewrite IH.
Qed.

Lemma heappush_perm (t : entry K) h : heappush t h ≡ₚ t :: h.
Proof.
  induction h as [|y h IH]; simpl; [reflexivity|].
  destruct (entry_lt t y); [reflexivity|].
  rewrite IH. apply Permutation_swap.
Qed.

Lemma heappush_sorted x o h :
  Forall (fun t : entry K => t.1.1 = t.2.2 /\ o < t.1.2) h ->
  StronglySorted (fun a b => entry_lt a b = true) h ->
  StronglySorted (fun a b => entry_lt a b = true) (heappush (x.2, o, x) h).
Proof.
  intros HF HS. induction HS as [|y h Hs IH Hy]; simpl.
  - repeat constructor.
  - apply Forall_cons in HF as [[Hk Ho] HF].
    destruct (entry_lt (x.2, o, x) y) eqn:E.
    + constructor; [by constructor|]. constructor; [exact E|].
      rewrite Forall_forall in Hy, HF. apply Forall_forall. intros z Hz.
      specialize (Hy z Hz). destruct (HF z Hz) as [Hzk Hzo].
      unfold entry_lt in *. simpl in *.
      apply orb_true_iff in E, Hy. apply orb_true_iff.
      rewrite !andb_true_iff, !Z.ltb_lt, !Z.eqb_eq in *. lia.
    + constructor; [by apply IH|].
      rewrite heappush_perm. constructor; [|exact Hy].
      unfold entry_lt in *. simpl in *.
      apply orb_false_iff in E as [E1 E2]. apply orb_true_iff.
      rewrite andb_false_iff in E2.
      rewrite !andb_true_iff, !Z.ltb_lt, !Z.eqb_eq.
      rewrite Z.ltb_ge in E1. rewrite Z.eqb_neq, Z.ltb_ge in E2. lia.
Qed.

Lemma heap_keys_ascending o h :
  Forall (fun t : entry K => t.1.1 = t.2.2 /\ o < t.1.2) h ->
  StronglySorted (fun a b => entry_lt a b = true) h ->
  StronglySorted (fun a b : item K => a.2 <= b.2) (map snd h).
Proof.
  intros HF HS. induction HS as [|y h Hs IH Hy]; simpl; [constructor|].
  apply Forall_cons in HF as [[Hk Ho] HF].
  constructor; [by apply IH|].
  apply Forall_map. rewrite Forall_forall in Hy, HF. apply Forall_forall.
  intros z Hz. specialize (Hy z Hz). destruct (HF z Hz) as [Hzk Hzo].
  unfold entry_lt in Hy. simpl.
  apply orb_true_iff in Hy. rewrite andb_true_iff, Z.ltb_lt, Z.eqb_eq in Hy. lia.
Qed.

Lemma heap_inv_push x o h top :
  heap_inv h o top ->
  heap_inv (heappush (x.2, o, x) h) (o - 1) (insert_last x top).
Proof.
  intros (Hu & HF & HS). split; [|split].
  - rewrite map_rev, heappush_undecorated by exact HF.
    rewrite rev_insert_asc by (eapply heap_keys_ascending; eauto).
    f_equal. rewrite <- Hu. symmetry. apply map_rev.
  - rewrite heappush_perm. constructor; [simpl; lia|].
    eapply Forall_impl; [exact HF|]. simpl. intros ? []. lia.
  - by apply heappush_sorted.
Qed.

Lemma length_heappush (t : entry K) h : length (heappush t h) = S (length h).
Proof. by rewrite heappush_perm. Qed.

Lemma heapify_spec F : forall h o P,
  heap_inv h o (sorted_reverse P) ->
  let h' := fold_left (fun h t => heappush t h) (decorate o F) h in
  heap_inv h' (o - Z.of_nat (length F)) (sorted_reverse (P ++ F))
  /\ length h' = (length h + length F)%nat.
Proof.
  induction F as [|e F IH]; intros h o P Hinv; simpl.
  - rewrite app_nil_r, Z.sub_0_r. split; [exact Hinv|lia].
  - apply (heap_inv_push e) in Hinv. rewrite <- sorted_reverse_snoc in Hinv.
    destruct (IH _ _ _ Hinv) as [H1 H2]. unfold itemgetter1.
    rewrite <- app_assoc in H1. simpl in H1.
    replace (o - Z.of_nat (S (length F))) with (o - 1 - Z.of_nat (length F)) by lia.
    split; [exact H1|]. rewrite H2, length_heappush. lia.
Qed.

Lemma sort_entries_reverse_sorted h :
  StronglySorted (fun a b => entry_lt a b = true) h ->
  sort_entries_reverse h = rev h.
Proof.
  induction 1 as [|t h Hs IH Ht]; simpl; [reflexivity|].
  rewrite IH. apply Forall_rev in Ht. clear IH Hs.
  induction Ht as [|y l Hy _ IH]; simpl; [reflexivity|].
  rewrite Hy. by rewrite IH.
Qed.

Lemma heap_least_first o t h :
  Forall (fun t : entry K => t.1.1 = t.2.2 /\ o < t.1.2) (t :: h) ->
  StronglySorted (fun a b => entry_lt a b = true) (t :: h) ->
  Forall (fun z : item K => t.1.1 <= z.2) (map snd (rev (t :: h))).
Proof.
  intros HF HS. apply Forall_map, Forall_rev.
  apply StronglySorted_inv in HS as [_ Ht].
  apply Forall_cons in HF as [[Hk _] HF]. constructor; [simpl; lia|].
  rewrite Forall_forall in Ht, HF. apply Forall_forall. intros z Hz.
  specialize (Ht z Hz). destruct (HF z Hz) as [Hzk _]. unfold entry_lt in Ht.
  simpl. apply orb_true_iff in Ht.
  rewrite andb_true_iff, Z.ltb_lt, Z.eqb_eq in Ht. lia.
Qed.

Lemma nlargest_loop_spec n it : forall h top o P,
  length h = S n ->
  heap_inv h o (take (S n) (sorted_reverse P)) ->
  head h.*1.*1 = Some top ->
  exists o',
    heap_inv (nlargest_loop h top o it) o' (take (S n) (sorted_reverse (P ++ it))).
Proof.
  induction it as [|elem it IH]; intros h top o P Hlen Hinv Htop; simpl.
  { rewrite app_nil_r. eauto. }
  destruct h as [|t h]; [discriminate|]. simpl in Hlen, Htop.
  injection Hlen as Hlen. injection Htop as Htop.
  destruct Hinv as (Hu & HF & HS). unfold itemgetter1.
  replace (P ++ elem :: it) with ((P ++ [elem]) ++ it) by by rewrite <- app_assoc.
  pose proof HF as HF'. apply Forall_cons in HF' as [[Hk _] HFh].
  pose proof HS as HS'. apply StronglySorted_inv in HS' as [HSh _].
  simpl in Hu. rewrite map_app in Hu. simpl in Hu.
  destruct (Z.ltb_spec top elem.2) as [Hlt|Hge].
  - unfold heapreplace. simpl.
    assert (heap_inv h o (map snd (rev h))) as Hh by (by split).
    apply (heap_inv_push elem) in Hh.
    assert (insert_last elem (map snd (rev h))
            = take (S n) (sorted_reverse (P ++ [elem]))) as Heq.
    { rewrite sorted_reverse_snoc, take_insert_last, <- Hu.
      rewrite insert_last_snoc_lt by lia.
      rewrite take_app_length'; [reflexivity|].
      rewrite length_insert_last, length_map, length_rev. lia. }
    rewrite Heq in Hh.
    destruct (heappush (elem.2, o, elem) h) as [|t' h'] eqn:Epush.
    { pose proof (length_heappush (elem.2, o, elem) h) as Hl.
      rewrite Epush in Hl. discriminate. }
    apply (IH (t' :: h') t'.1.1 (o - 1) (P ++ [elem])); [|exact Hh|reflexivity].
    rewrite <- Epush, length_heappush. lia.
  - apply (IH (t :: h) top o); [simpl; lia| |by subst].
    split; [|by split]. simpl. rewrite map_app. simpl.
    rewrite sorted_reverse_snoc, take_insert_last, <- Hu.
    rewrite insert_last_all_ge.
    + rewrite take_app_length'; [reflexivity|].
      rewrite length_app, length_map, length_rev. simpl. lia.
    + pose proof (heap_least_first _ _ _ HF HS) as Hall.
      simpl in Hall. rewrite map_app in Hall. simpl in Hall.
      eapply Forall_impl; [exact Hall|]. simpl. intros. lia.
Qed.

Lemma py_max_snoc it : forall best y,
  py_max best (it ++ [y])
  = (if (py_max best it).2 <? y.2 then y else py_max best it).
Proof.
  induction it as [|z it IH]; intros best y; simpl; [reflexivity|].
  destruct (itemgetter1 best <? itemgetter1 z); apply IH.
Qed.

Lemma head_sorted_reverse x it :
  head (sorted_reverse (x :: it)) = Some (py_max x it).
Proof.
  induction it as [|y it IH] using rev_ind; [reflexivity|].
  rewrite app_comm_cons, sorted_reverse_snoc, py_max_snoc.
  destruct (sorted_reverse (x :: it)) as [|b s]; [discriminate|].
  injection IH as ->. simpl.
  destruct (Z.ltb_spec (py_max x it).2 y.2); reflexivity.
Qed.

(** [heapq.nlargest] does what its documentation says it is equivalent to,
    [sorted(iterable, key=key, reverse=True)[:n]], and gives nothing for
    [n <= 0]. *)
Lemma nlargest_sorted n (items : list (item K)) :
  nlargest n items = take (Z.to_nat n) (sorted_reverse items).
Proof.
  unfold nlargest. destruct (Z.eqb_spec n 1) as [->|Hn1].
  { destruct items as [|x it]; [reflexivity|].
    pose proof (head_sorted_reverse x it) as Hh.
    destruct (sorted_reverse (x :: it)) as [|b s]; [discriminate|].
    injection Hh as ->. reflexivity. }
  destruct (Z.leb_spec (Z.of_nat (length items)) n) as [|Hlt]; [reflexivity|].
  destruct (Z.to_nat n) as [|m] eqn:En; [reflexivity|].
  set (F := take (S m) items).
  assert (length F = S m) as HlenF by (apply length_take_le; lia).
  destruct (heapify_spec F [] 0 []) as [Hinv Hlen].
  { split; [reflexivity|]. split; constructor. }
  simpl in Hinv, Hlen. fold (heapify (decorate 0 F)) in Hinv, Hlen.
  destruct (heapify (decorate 0 F)) as [|t h] eqn:Eh.
  { rewrite HlenF in Hlen. discriminate. }
  rewrite <- (take_ge (sorted_reverse F) (S m)) in Hinv
    by (rewrite length_sorted_reverse; lia).
  destruct (nlargest_loop_spec m (drop (S m) items) (t :: h) t.1.1
              (0 - Z.of_nat (length F)) F) as [o' (Hu & _ & HS)];
    [lia|exact Hinv|reflexivity|].
  replace (- n) with (0 - Z.of_nat (length F)) by lia.
  rewrite sort_entries_reverse_sorted by exact HS.
  unfold F in Hu at 2. rewrite take_drop in Hu. exact Hu.
Qed.

End SortingFacts.

(** A sorted order that is stable is determined by the items. *)
Lemma stable_sorted_desc_unique {K : Type} (items s1 s2 : list (item K)) :
  stable_sorted_desc items s1 -> stable_sorted_desc items s2 -> s1 = s2.
Proof.
  intros (_ & HS1 & HF1) (_ & HS2 & HF2).
  assert (forall c, filter (fun e : item K => e.2 = c) s1
                    = filter (fun e : item K => e.2 = c) s2) as HF
    by (intros c; by rewrite HF1, HF2).
  clear HF1 HF2 items. revert s2 HS2 HF.
  induction HS1 as [|a s1 HS1 IH Ha]; intros s2 HS2 HF.
  - destruct s2 as [|b s2]; [reflexivity|].
    specialize (HF b.2). rewrite filter_cons in HF.
    destruct (decide (b.2 = b.2)); [discriminate|congruence].
  - destruct HS2 as [|b s2 HS2 Hb].
    { specialize (HF a.2). rewrite filter_cons in HF.
      destruct (decide (a.2 = a.2)); [discriminate|congruence]. }
    assert (b.2 <= a.2) as Hba.
    { assert (b ∈ filter (fun e : item K => e.2 = b.2) (a :: s1)) as Hin.
      { rewrite HF. apply list_elem_of_filter. split; [reflexivity|left]. }
      apply list_elem_of_filter in Hin as [_ Hin].
      apply elem_of_cons in Hin as [->|Hin]; [lia|].
      rewrite Forall_forall in Ha. by apply Ha. }
    assert (a.2 <= b.2) as Hab.
    { assert (a ∈ filter (fun e : item K => e.2 = a.2) (b :: s2)) as Hin.
      { rewrite <- HF. apply list_elem_of_filter. split; [reflexivity|left]. }
      apply list_elem_of_filter in Hin as [_ Hin].
      apply elem_of_cons in Hin as [->|Hin]; [lia|].
      rewrite Forall_forall in Hb. by apply Hb. }
    assert (a = b) as <-.
    { specialize (HF a.2). rewrite !filter_cons in HF.
      destruct (decide (a.2 = a.2)); [|congruence].
      destruct (decide (b.2 = a.2)); [|lia]. congruence. }
    f_equal. apply IH; [exact HS2|]. intros c. specialize (HF c).
    rewrite !filter_cons in HF. destruct (decide (a.2 = c)); congruence.
Qed.

(** ** Dictionaries *)

Section DictFacts.
Context {K : Type} `{EqDecision K}.
Implicit Types (k : K) (c : Counter K).

Lemma dict_get_set {V} k k' (v : V) (d : dict K V) :
  dict_get k (dict_set k' v d)
  = if decide (k = k') then Some v else dict_get k d.
Proof.
  induction d as [|[k0 v0] d IH]; simpl.
  - destruct (decide (k = k')); reflexivity.
  - destruct (decide (k' = k0)) as [->|Hne]; simpl.
    + destruct (decide (k = k0)); reflexivity.
    + destruct (decide (k = k0)) as [->|Hne'].
      * destruct (decide (k0 = k')); [congruence|reflexivity].
      * exact IH.
Qed.

Lemma dict_get_incr k k' c :
  dict_get k (counter_incr k' c)
  = if decide (k = k') then Some (counter_get k c + 1) else dict_get k c.
Proof.
  unfold counter_incr. rewrite dict_get_set.
  destruct (decide (k = k')) as [->|]; reflexivity.
Qed.

Lemma sum_values_set k v c :
  sum_values (dict_set k v c) = sum_values c - counter_get k c + v.
Proof.
  unfold counter_get. induction c as [|[k0 v0] c IH]; simpl; [lia|].
  destruct (decide (k = k0)); simpl; [lia|]. rewrite IH. lia.
Qed.

Lemma sum_values_incr k c : sum_values (counter_incr k c) = sum_values c + 1.
Proof. unfold counter_incr. rewrite sum_values_set. lia. Qed.

Lemma dict_set_Forall {V} (P : K * V -> Prop) k v (d : dict K V) :
  P (k, v) -> Forall P d -> Forall P (dict_set k v d).
Proof.
  intros Hk. induction 1 as [|[k0 v0] d H0 Hd IH]; simpl.
  - by constructor.
  - destruct (decide (k = k0)) as [->|]; by constructor.
Qed.

Lemma counter_get_pos (Q : K -> Prop) k c :
  Forall (fun e => Q e.1 /\ 1 <= e.2) c -> 0 <= counter_get k c.
Proof.
  unfold counter_get. induction 1 as [|[k0 v0] c [_ H0] _ IH]; simpl; [lia|].
  destruct (decide (k = k0)); simpl in *; lia.
Qed.

Lemma counter_incr_Forall (Q : K -> Prop) k c :
  Q k ->
  Forall (fun e => Q e.1 /\ 1 <= e.2) c ->
  Forall (fun e => Q e.1 /\ 1 <= e.2) (counter_incr k c).
Proof.
  intros Hk Hc. apply dict_set_Forall; [|exact Hc]. simpl. split; [exact Hk|].
  pose proof (counter_get_pos Q k c Hc). lia.
Qed.

End DictFacts.

(** ** The matcher *)

(** Case analysis on which alternative of a backtracking choice succeeded. *)
Ltac split_or_else :=
  repeat match goal with
         | H : or_else ?o _ = Some _ |- _ =>
             let E := fresh "E" in destruct o eqn:E; simpl in H
         | H : Some _ = Some _ |- _ => injection H as ->
         | H : None = Some _ |- _ => discriminate H
         end.

Lemma extends_refl c : extends c c.
Proof. exists []. split; [reflexivity|simpl; lia]. Qed.

Lemma extends_trans c1 c2 c3 : extends c1 c2 -> extends c2 c3 -> extends c1 c3.
Proof.
  intros (m1 & H1 & P1) (m2 & H2 & P2). exists (m1 ++ m2).
  rewrite H1, H2, <- app_assoc, length_app. split; [reflexivity|lia].
Qed.

Lemma extends_step b i x s c' :
  extends (Cursor (Some x) (S i) s) c' -> extends (Cursor b i (x :: s)) c'.
Proof.
  intros (mid & Hr & Hp). exists (x :: mid). simpl in *.
  rewrite Hr. split; [reflexivity|lia].
Qed.

Lemma extends_drop line c c' :
  rest c = drop (pos c) line -> extends c c' -> rest c' = drop (pos c') line.
Proof.
  intros Hc (mid & Hr & Hp).
  rewrite Hp, <- drop_drop, <- Hc, Hr. by rewrite drop_app_length.
Qed.

Lemma extends_pos c c' : extends c c' -> (pos c <= pos c')%nat.
Proof. intros (mid & _ & Hp). lia. Qed.

Lemma match_literal_spec p : forall c c',
  match_literal p c = Some c' ->
  rest c = p ++ rest c' /\ pos c' = (pos c + length p)%nat.
Proof.
  induction p as [|a p IH]; intros c c' H; simpl in H.
  - injection H as <-. split; [reflexivity|simpl; lia].
  - destruct (rest c) as [|x r] eqn:Er; [discriminate|].
    destruct (N.eqb_spec a x) as [->|]; [|discriminate].
    apply IH in H as [H1 H2]. simpl in *. rewrite H1. split; [reflexivity|lia].
Qed.

Lemma repeat_class_reaches {A} s : forall greedy cs lo hi b i
    (k : cursor -> option A) a,
  repeat_class greedy cs lo hi b i s k = Some a ->
  exists c', k c' = Some a /\ extends (Cursor b i s) c'.
Proof.
  induction s as [|x s IH]; intros greedy cs lo hi b i k a H; simpl in H.
  - exists (Cursor b i []).
    destruct greedy, lo, hi as [[|?]|]; simpl in H; try discriminate;
      split_or_else;
      (split; [first [assumption|reflexivity]|apply extends_refl]).
  - destruct (in_charset cs x);
      destruct greedy, lo, hi as [[|?]|]; simpl in H; try discriminate;
      split_or_else;
      first [ match goal with
              | E : repeat_class _ _ _ _ _ _ _ _ = Some _ |- _ =>
                  apply IH in E as (c' & Hk & Hext);
                  exists c'; split; [exact Hk|by apply extends_step]
              end
            | exists (Cursor b i (x :: s));
              split; [first [assumption|reflexivity]|apply extends_refl] ].
Qed.

(** A repetition that has to take a character takes one of its class. *)
Lemma repeat_class_at_least_one {A} greedy cs lo hi b i s
    (k : cursor -> option A) a :
  repeat_class greedy cs (S lo) hi b i s k = Some a ->
  exists x s' c',
    s = x :: s' /\ in_charset cs x = true /\ k c' = Some a
    /\ extends (Cursor (Some x) (S i) s') c'.
Proof.
  intros H. destruct s as [|x s]; simpl in H.
  { destruct greedy, hi as [[|?]|]; discriminate. }
  destruct (in_charset cs x) eqn:Ex;
    destruct greedy, hi as [[|?]|]; simpl in H; try discriminate;
    split_or_else;
    match goal with
    | E : repeat_class _ _ _ _ _ _ _ _ = Some _ |- _ =>
        apply repeat_class_reaches in E as (c' & Hk & Hext);
        exists x, s, c'; auto
    end.
Qed.

Lemma get_set_group_other g g' sp gs :
  mentions g (Group g' Bol) = false ->
  get_group g (set_group g' sp gs) = get_group g gs.
Proof. destruct g, g'; simpl; intros; try discriminate; reflexivity. Qed.

(** A pattern that matched called its continuation further on in the
    subject, with the groups it does not contain as they were. *)
Lemma exec_reaches {A} r : forall c gs (k : cursor -> groups -> option A) a,
  exec r c gs k = Some a ->
  exists c' gs',
    k c' gs' = Some a /\ extends c c'
    /\ forall g, mentions g r = false -> get_group g gs' = get_group g gs.
Proof.
  induction r as [| |p|greedy lo hi cs|r1 IH1 r2 IH2|r1 IH1 r2 IH2|r1 IH1|g' r1 IH1];
    intros c gs k a H; simpl in H.
  - destruct (pos c =? 0)%nat; [|discriminate].
    exists c, gs. split; [exact H|]. split; [apply extends_refl|reflexivity].
  - destruct (xorb _ _); [|discriminate].
    exists c, gs. split; [exact H|]. split; [apply extends_refl|reflexivity].
  - destruct (match_literal p c) as [c'|] eqn:E; [|discriminate].
    apply match_literal_spec in E as [E1 E2].
    exists c', gs. split; [exact H|]. split; [by exists p|reflexivity].
  - apply repeat_class_reaches in H as (c' & Hk & Hext).
    exists c', gs. destruct c. auto.
  - apply IH1 in H as (c1 & gs1 & H & Hext1 & Hg1).
    apply IH2 in H as (c2 & gs2 & H & Hext2 & Hg2).
    exists c2, gs2. split; [exact H|]. split; [by eapply extends_trans|].
    intros g Hg. simpl in Hg. apply orb_false_iff in Hg as [Hg1' Hg2'].
    rewrite Hg2, Hg1 by assumption. reflexivity.
  - unfold or_else in H. destruct (exec r1 c gs k) eqn:E.
    + injection H as ->. apply IH1 in E as (c1 & gs1 & H & Hext & Hg).
      exists c1, gs1. split; [exact H|]. split; [exact Hext|].
      intros g Hm. simpl in Hm. apply orb_false_iff in Hm as [Hm _]. by apply Hg.
    + apply IH2 in H as (c1 & gs1 & H & Hext & Hg).
      exists c1, gs1. split; [exact H|]. split; [exact Hext|].
      intros g Hm. simpl in Hm. apply orb_false_iff in Hm as [_ Hm]. by apply Hg.
  - unfold or_else in H. destruct (exec r1 c gs k) eqn:E.
    + injection H as ->. apply IH1 in E as (c1 & gs1 & H & Hext & Hg).
      exists c1, gs1. auto.
    + exists c, gs. split; [exact H|]. split; [apply extends_refl|reflexivity].
  - apply IH1 in H as (c1 & gs1 & H & Hext & Hg).
    exists c1, (set_group g' (pos c, pos c1) gs1). split; [exact H|].
    split; [exact Hext|]. intros g Hm. simpl in Hm.
    apply orb_false_iff in Hm as [Hm1 Hm2].
    rewrite get_set_group_other; [by apply Hg|]. simpl. by rewrite Hm1.
Qed.

Lemma exec_seq_reaches {A} r1 r2 c gs (k : cursor -> groups -> option A) a :
  exec (Seq r1 r2) c gs k = Some a ->
  exists c' gs',
    exec r2 c' gs' k = Some a /\ extends c c'
    /\ forall g, mentions g r1 = false -> get_group g gs' = get_group g gs.
Proof. simpl. apply exec_reaches. Qed.

Lemma search_from_exec r line s : forall b i m,
  s = drop i line ->
  search_from r line b i s = Some m ->
  exists b' i',
    exec r (Cursor b' i' (drop i' line)) no_groups
      (fun c gs => Some (Match line i' (pos c) gs)) = Some m.
Proof.
  induction s as [|x s IH]; intros b i m Hs H; simpl in H; unfold or_else in H.
  - destruct (exec _ _ _ _) eqn:E; [|discriminate].
    injection H as ->. exists b, i. by rewrite <- Hs.
  - destruct (exec _ _ _ _) eqn:E.
    + injection H as ->. exists b, i. by rewrite <- Hs.
    + apply IH in H; [exact H|].
      rewrite <- (Nat.add_1_r i), <- drop_drop, <- Hs. reflexivity.
Qed.

Lemma exec_lit_seq {A} p r2 c gs (k : cursor -> groups -> option A) a :
  exec (Seq (Lit p) r2) c gs k = Some a ->
  exists c',
    rest c = p ++ rest c' /\ pos c' = (pos c + length p)%nat
    /\ exec r2 c' gs k = Some a.
Proof.
  simpl. destruct (match_literal p c) as [c'|] eqn:E; [|discriminate].
  apply match_literal_spec in E as [E1 E2]. intros H. by exists c'.
Qed.

(** The last item of [LOG_RE], [(?P<path>\S+)?]: either the group takes at
    least one character that is not white space, or it takes no part. *)
Lemma exec_optional_path {A} c gs (k : cursor -> groups -> option A) a :
  exec (Opt (Group G_path (plus NotSpace))) c gs k = Some a ->
  k c gs = Some a
  \/ exists x s' c',
       rest c = x :: s' /\ Py_UNICODE_ISSPACE x = false
       /\ extends (Cursor (Some x) (S (pos c)) s') c'
       /\ k c' (set_group G_path (pos c, pos c') gs) = Some a.
Proof.
  intros H. simpl in H. split_or_else; [|by left]. right.
  apply repeat_class_at_least_one in E as (x & s' & c' & Hs & Hx & Hk & Hext).
  exists x, s', c'. simpl in Hx. apply negb_true_iff in Hx. auto.
Qed.

(** Where a match of [LOG_RE] ends: behind a [path=], which the text of the
    [path] group follows when the group took part; that text starts with a
    character that is not white space. *)
Lemma LOG_RE_anatomy line m :
  LOG_RE_search line = Some m ->
  m_string m = line
  /\ (5 <= marker_end m)%nat
  /\ drop (marker_end m - 5) line = u "path=" ++ drop (marker_end m) line
  /\ forall s e, path_span (m_groups m) = Some (s, e) ->
       (s < e)%nat
       /\ exists x s', drop s line = x :: s' /\ Py_UNICODE_ISSPACE x = false.
Proof.
  unfold LOG_RE_search, re_search. intros H.
  apply search_from_exec in H as (b & i & H); [|reflexivity].
  unfold LOG_RE in H.
  assert (exists c gs,
    rest c = drop (pos c) line /\ get_group G_path gs = None
    /\ exec (Seq (Lit (u "path=")) (Opt (Group G_path (plus NotSpace)))) c gs
         (fun c gs => Some (Match line i (pos c) gs)) = Some m)
    as (c & gs & Hrest & Hpath & Hexec).
  { repeat match type of H with
           | exec (Seq (Lit _) (Opt _)) _ _ _ = _ => fail 1
           | exec (Seq _ _) ?c0 ?gs0 _ = _ =>
               let c' := fresh "c" in
               let gs' := fresh "gs" in
               let Hext := fresh "Hext" in
               let Hg := fresh "Hg" in
               apply exec_seq_reaches in H as (c' & gs' & H & Hext & Hg);
               specialize (Hg G_path eq_refl)
           end.
    exists c5, gs5. split; [|split; [|exact H]].
    - eapply extends_drop; [|exact Hext5].
      eapply extends_drop; [|exact Hext4].
      eapply extends_drop; [|exact Hext3].
      eapply extends_drop; [|exact Hext2].
      eapply extends_drop; [|exact Hext1].
      eapply extends_drop; [|exact Hext0].
      eapply extends_drop; [|exact Hext]. reflexivity.
    - rewrite Hg5, Hg4, Hg3, Hg2, Hg1, Hg0, Hg. reflexivity. }
  apply exec_lit_seq in Hexec as (c' & Hlit & Hpos & Hexec).
  assert (rest c' = drop (pos c') line) as Hrest'.
  { eapply extends_drop; [exact Hrest|]. by exists (u "path="). }
  assert (drop (pos c' - 5) line = u "path=" ++ drop (pos c') line) as Hmark.
  { rewrite <- Hrest', <- Hlit, Hrest. f_equal. rewrite Hpos. simpl. lia. }
  simpl in Hpath.
  apply exec_optional_path in Hexec
    as [Hk|(x & s' & c'' & Hx & Hsp & Hext & Hk)];
    injection Hk as <-; unfold marker_end; simpl.
  - rewrite Hpath. simpl. split; [reflexivity|].
    split; [rewrite Hpos; simpl; lia|]. split; [exact Hmark|]. discriminate.
  - split; [reflexivity|]. split; [rewrite Hpos; simpl; lia|].
    split; [exact Hmark|]. intros s e [= <- <-].
    apply extends_pos in Hext. simpl in Hext. split; [lia|].
    exists x, s'. by rewrite <- Hrest'.
Qed.

Lemma exec_group_seq {A} g r r2 c gs (k : cursor -> groups -> option A) :
  exec (Seq (Group g r) r2) c gs k
  = exec r c gs (fun c' gs' => exec r2 c' (set_group g (pos c, pos c') gs') k).
Proof. reflexivity. Qed.

Lemma exec_alt_literals {A} a b d c gs (k : cursor -> groups -> option A) x :
  exec (Alt (Lit a) (Alt (Lit b) (Lit d))) c gs k = Some x ->
  exists lit c',
    lit ∈ [a; b; d] /\ match_literal lit c = Some c' /\ k c' gs = Some x.
Proof.
  intros H. simpl in H. unfold or_else in H.
  destruct (match_literal a c) as [ca|] eqn:Ea.
  - destruct (k ca gs) eqn:Eka.
    + injection H as ->. exists a, ca. split; [left|by split].
    + destruct (match_literal b c) as [cb|] eqn:Eb.
      * destruct (k cb gs) eqn:Ekb.
        -- injection H as ->. exists b, cb. split; [right; left|by split].
        -- destruct (match_literal d c) as [cd|] eqn:Ed; [|discriminate].
           exists d, cd. split; [do 2 right; left|by split].
      * destruct (match_literal d c) as [cd|] eqn:Ed; [|discriminate].
        exists d, cd. split; [do 2 right; left|by split].
  - destruct (match_literal b c) as [cb|] eqn:Eb.
    + destruct (k cb gs) eqn:Ekb.
      * injection H as ->. exists b, cb. split; [right; left|by split].
      * destruct (match_literal d c) as [cd|] eqn:Ed; [|discriminate].
        exists d, cd. split; [do 2 right; left|by split].
    + destruct (match_literal d c) as [cd|] eqn:Ed; [|discriminate].
      exists d, cd. split; [do 2 right; left|by split].
Qed.

(** The [level] group of a match is one of the three levels. *)
Lemma LOG_RE_level line m :
  LOG_RE_search line = Some m ->
  exists lvl, lvl ∈ LEVELS /\ group m G_level = Some lvl.
Proof.
  unfold LOG_RE_search, re_search. intros H.
  apply search_from_exec in H as (b & i & H); [|reflexivity].
  unfold LOG_RE in H.
  apply exec_seq_reaches in H as (c1 & gs1 & H & Hext1 & _).
  apply exec_seq_reaches in H as (c2 & gs2 & H & Hext2 & _).
  apply exec_seq_reaches in H as (c3 & gs3 & H & Hext3 & _).
  assert (rest c3 = drop (pos c3) line) as Hrest.
  { eapply extends_drop; [|exact Hext3].
    eapply extends_drop; [|exact Hext2].
    eapply extends_drop; [|exact Hext1]. reflexivity. }
  rewrite exec_group_seq in H.
  apply exec_alt_literals in H as (lvl & c4 & Hin & Hlit & H).
  apply match_literal_spec in Hlit as [Hl Hp].
  apply exec_reaches in H as (c5 & gs5 & H & _ & Hg).
  specialize (Hg G_level eq_refl). injection H as <-.
  exists lvl. split; [exact Hin|].
  unfold group. simpl in *. rewrite Hg.
  rewrite <- Hrest, Hl, Hp.
  replace (pos c3 + length lvl - pos c3)%nat with (length lvl) by lia.
  by rewrite take_app_length.
Qed.

(** ** Decoding *)

Lemma utf8_decode_replace_total bs : exists text, utf8_decode Replace bs = inr text.
Proof.
  remember (length bs) as n eqn:Hn. revert bs Hn.
  induction n as [n IH] using lt_wf_ind. intros bs Hn.
  assert (forall r, (length r < n)%nat -> exists t, utf8_decode Replace r = inr t)
    as Hrec by (intros r Hr; by apply (IH (length r))).
  destruct bs as [|ch r0]; [by exists []|]. simpl in Hn. simpl.
  repeat match goal with
         | |- context [if ?b then _ else _] => destruct b
         | |- context [match ?l with [] => _ | _ :: _ => _ end] =>
             is_var l; destruct l; simpl in Hn
         end;
    repeat match goal with
           | |- context [utf8_decode Replace ?r] =>
               let t := fresh "t" in
               let Ht := fresh "Ht" in
               destruct (Hrec r) as [t Ht]; [simpl; lia|]; rewrite Ht
           end;
    simpl; eauto.
Qed.

Lemma open_lines_replace_total bs : exists lines, open_lines Replace bs = inr lines.
Proof.
  unfold open_lines, decode.
  destruct (utf8_decode_replace_total (map Byte.to_N bs)) as [t ->]. eauto.
Qed.

(** With [errors="strict"] the same bytes can abort the run. *)
Example strict_decoding_raises :
  decode Strict [xff] = inl (UnicodeDecodeError "invalid start byte").
Proof. reflexivity. Qed.

(** ** The scan *)

Lemma scan_snoc lines l : scan (lines ++ [l]) = loop_body (scan lines) l.
Proof. unfold scan. by rewrite fold_left_app. Qed.

(** The three ways the loop body goes. *)
Lemma loop_body_cases st raw :
  (is_blank raw = true
   /\ loop_body st raw
      = Locals (level_counts st) (error_paths st) (total_lines st + 1)
          (parsed_lines st) (invalid_lines st))
  \/ (is_blank raw = false /\ LOG_RE_search (strip raw) = None
      /\ loop_body st raw
         = Locals (level_counts st) (error_paths st) (total_lines st + 1)
             (parsed_lines st) (invalid_lines st + 1))
  \/ (is_blank raw = false
      /\ exists m ep,
           LOG_RE_search (strip raw) = Some m
           /\ loop_body st raw
              = Locals (counter_incr (group m G_level) (level_counts st)) ep
                  (total_lines st + 1) (parsed_lines st + 1) (invalid_lines st)
           /\ (ep = error_paths st
               \/ exists p, group m G_path = Some p /\ truthy p = true
                            /\ group m G_level = Some (u "ERROR")
                            /\ ep = counter_incr p (error_paths st))).
Proof.
  unfold loop_body, is_blank.
  destruct (negb (truthy (strip raw))); [by left|right].
  destruct (LOG_RE_search (strip raw)) as [m|]; [right|by left].
  split; [reflexivity|]. eexists m, _. split; [reflexivity|].
  split; [reflexivity|].
  destruct (group m G_path) as [p|]; [|by left].
  destruct (bool_decide (group m G_level = Some (u "ERROR"))) eqn:El; [|by left].
  destruct (truthy p) eqn:Ep; [|by left]. right. exists p.
  apply bool_decide_eq_true in El. auto.
Qed.

Lemma blank_lines_skipped_snoc lines l :
  blank_lines_skipped (lines ++ [l])
  = blank_lines_skipped lines + (if is_blank l then 1 else 0).
Proof.
  unfold blank_lines_skipped. rewrite filter_app, length_app, filter_cons.
  case_decide as Hd; destruct (is_blank l); simpl; try congruence; lia.
Qed.

Lemma lines_of_level_snoc k lines l :
  lines_of_level k (lines ++ [l])
  = lines_of_level k lines
    + (if decide (parsed_level l = Some k) then 1 else 0).
Proof.
  unfold lines_of_level. rewrite filter_app, length_app, filter_cons.
  destruct (decide (parsed_level l = Some k)); simpl; lia.
Qed.

Lemma lines_of_level_nonneg k lines : 0 <= lines_of_level k lines.
Proof. unfold lines_of_level. lia. Qed.

Lemma scan_totals lines :
  total_lines (scan lines)
  = parsed_lines (scan lines) + invalid_lines (scan lines)
    + blank_lines_skipped lines
  /\ total_lines (scan lines) = Z.of_nat (length lines).
Proof.
  induction lines as [|l lines [IH1 IH2]] using rev_ind; [by split|].
  rewrite scan_snoc, blank_lines_skipped_snoc, length_app. simpl.
  destruct (loop_body_cases (scan lines) l)
    as [[Hb ->]|[(Hb & _ & ->)|(Hb & m & ep & _ & -> & _)]];
    rewrite Hb; simpl; lia.
Qed.

Lemma scan_level_sum lines :
  sum_values (level_counts (scan lines)) = parsed_lines (scan lines).
Proof.
  induction lines as [|l lines IH] using rev_ind; [reflexivity|].
  rewrite scan_snoc.
  destruct (loop_body_cases (scan lines) l)
    as [[Hb ->]|[(Hb & _ & ->)|(Hb & m & ep & _ & -> & _)]]; simpl;
    rewrite ?sum_values_incr; lia.
Qed.

Lemma scan_level_counts lines k :
  dict_get k (level_counts (scan lines))
  = if decide (lines_of_level k lines = 0) then None
    else Some (lines_of_level k lines).
Proof.
  induction lines as [|l lines IH] using rev_ind; [reflexivity|].
  rewrite scan_snoc, lines_of_level_snoc.
  pose proof (lines_of_level_nonneg k lines) as Hnn.
  assert (counter_get k (level_counts (scan lines)) = lines_of_level k lines)
    as Hget.
  { unfold counter_get. rewrite IH.
    destruct (decide (lines_of_level k lines = 0)); simpl; lia. }
  destruct (loop_body_cases (scan lines) l)
    as [[Hb ->]|[(Hb & Hn & ->)|(Hb & m & ep & Hm & -> & _)]]; simpl.
  - assert (parsed_level l = None) as Hl by (unfold parsed_level; by rewrite Hb).
    destruct (decide (parsed_level l = Some k)); [congruence|].
    rewrite Z.add_0_r. exact IH.
  - assert (parsed_level l = None) as Hl
      by (unfold parsed_level; by rewrite Hb, Hn).
    destruct (decide (parsed_level l = Some k)); [congruence|].
    rewrite Z.add_0_r. exact IH.
  - assert (parsed_level l = Some (group m G_level)) as Hl
      by (unfold parsed_level; by rewrite Hb, Hm).
    rewrite dict_get_incr, Hget.
    destruct (decide (k = group m G_level)) as [->|Hne].
    + destruct (decide (parsed_level l = Some (group m G_level))); [|congruence].
      repeat case_decide; first [lia|reflexivity].
    + destruct (decide (parsed_level l = Some k)); [congruence|].
      rewrite Z.add_0_r. exact IH.
Qed.

Lemma scan_level_keys lines :
  Forall (fun e => (exists lvl, lvl ∈ LEVELS /\ e.1 = Some lvl) /\ 1 <= e.2)
    (level_counts (scan lines)).
Proof.
  induction lines as [|l lines IH] using rev_ind; [constructor|].
  rewrite scan_snoc.
  destruct (loop_body_cases (scan lines) l)
    as [[Hb ->]|[(Hb & _ & ->)|(Hb & m & ep & Hm & -> & _)]]; simpl;
    try exact IH.
  apply (counter_incr_Forall (fun k => exists lvl, lvl ∈ LEVELS /\ k = Some lvl));
    [|exact IH].
  by apply LOG_RE_level in Hm.
Qed.

Lemma scan_error_paths lines :
  Forall (fun e => e.1 <> [] /\ 1 <= e.2) (error_paths (scan lines)).
Proof.
  induction lines as [|l lines IH] using rev_ind; [constructor|].
  rewrite scan_snoc.
  destruct (loop_body_cases (scan lines) l)
    as [[Hb ->]|[(Hb & _ & ->)|(Hb & m & ep & _ & -> & Hep)]]; simpl;
    try exact IH.
  destruct Hep as [->|(p & _ & Hp & _ & ->)]; [exact IH|].
  apply (counter_incr_Forall (fun k => k <> [])); [|exact IH].
  by destruct p.
Qed.

Lemma analyze_log_inr w p n r :
  analyze_log w p n = inr r ->
  exists lines, file_lines w p = Some lines /\ r = build_report w p n (scan lines).
Proof.
  unfold analyze_log, file_lines, isfile, open_read.
  destruct (files w !! p) as [bs|]; [|discriminate]. simpl.
  destruct (open_lines Replace bs) as [e|lines]; [discriminate|].
  intros [= <-]. by exists lines.
Qed.

Lemma analyze_log_existing w p n bs :
  files w !! p = Some bs ->
  analyze_log w p n
  = match open_lines Replace bs with
    | inl e => inl e
    | inr lines => inr (build_report w p n (scan lines))
    end.
Proof.
  intros Hf. unfold analyze_log, isfile, open_read. rewrite Hf. reflexivity.
Qed.

Lemma analyze_log_missing w p n :
  files w !! p = None ->
  analyze_log w p n = inl (FileNotFoundError (u "Log file not found: " ++ p)).
Proof. intros Hf. unfold analyze_log, isfile. rewrite Hf. reflexivity. Qed.

Lemma starts_with_app p r : starts_with p (p ++ r) = true.
Proof.
  induction p as [|a p IH]; simpl; [reflexivity|]. by rewrite N.eqb_refl.
Qed.

Lemma contains_drop needle i : forall hay,
  starts_with needle (drop i hay) = true -> contains needle hay = true.
Proof.
  induction i as [|i IH]; intros hay H.
  - rewrite drop_0 in H. destruct hay; simpl in *; by rewrite H.
  - destruct hay as [|c hay]; simpl in *; [by rewrite H|].
    apply IH in H. rewrite H. apply orb_true_r.
Qed.

Lemma most_common_subset {K} `{EqDecision K} n (c : Counter K) x :
  x ∈ most_common n c -> x ∈ c.
Proof.
  unfold most_common. rewrite nlargest_sorted. intros Hin.
  apply subseteq_take in Hin. by rewrite sorted_reverse_perm in Hin.
Qed.

(** ** The scenarios of the spec, run *)

Example scenario_two_lines_and_one_invalid :
  analyze_log (sample_world scenario_log) (u "app.log") 5
  = inr (scenario_report "2026-02-18T07:05:00Z" "app.log").
Proof. vm_compute. reflexivity. Qed.

Example scenario_all_blank_lines :
  scan [ [NL]; u "   " ++ [NL]; [0x09%N; NL] ] = Locals [] [] 3 0 0.
Proof. vm_compute. reflexivity. Qed.

Example scenario_top_1 :
  Report.top_error_paths
    (build_report (sample_world []) (u "app.log") 1
       (scan [ u "2026-02-18 07:01:05 ERROR path=/a" ++ [NL];
               u "2026-02-18 07:01:06 ERROR path=/b" ++ [NL];
               u "2026-02-18 07:01:07 ERROR path=/a" ++ [NL] ]))
  = [(u "/a", 2)].
Proof. vm_compute. reflexivity. Qed.

(** ** The claims *)

(** C1, which the code does not keep. What the code does instead: a line
    that is not blank and has no [path=] in it does not match [LOG_RE],
    whatever its time stamp and level, and is counted as invalid, not as
    parsed. *)
Theorem C1_line_without_path_field_is_invalid st raw :
  is_blank raw = false ->
  contains (u "path=") (strip raw) = false ->
  LOG_RE_search (strip raw) = None
  /\ loop_body st raw
     = Locals (level_counts st) (error_paths st) (total_lines st + 1)
         (parsed_lines st) (invalid_lines st + 1).
Proof.
  intros Hb Hc.
  destruct (loop_body_cases st raw)
    as [[Hb' _]|[(_ & Hn & Hl)|(_ & m & ep & Hm & _)]].
  - congruence.
  - by split.
  - apply LOG_RE_anatomy in Hm as (_ & _ & Hmark & _).
    rewrite (contains_drop _ (marker_end m - 5)) in Hc; [discriminate|].
    rewrite Hmark. apply starts_with_app.
Qed.

(** C2, in the form that holds: [level_counts] holds a level as a key
    exactly when at least one line of that level was parsed, with the number
    of those lines as its value; its keys are among INFO, WARNING and ERROR
    and its values are at least 1; a level of which no line was parsed is
    absent, and the renderers read it as 0 through [get(level, 0)]; an empty
    input file gives the empty mapping. *)
Theorem C2_level_counts_holds_the_levels_seen w p n r lines :
  analyze_log w p n = inr r ->
  file_lines w p = Some lines ->
  (forall k,
     dict_get k (Report.level_counts r)
     = if decide (lines_of_level k lines = 0) then None
       else Some (lines_of_level k lines))
  /\ (forall k v, (k, v) ∈ Report.level_counts r ->
        (exists lvl, lvl ∈ LEVELS /\ k = Some lvl) /\ 1 <= v)
  /\ (forall lvl, level_count r lvl = lines_of_level (Some (u lvl)) lines)
  /\ (lines = [] -> Report.level_counts r = []).
Proof.
  intros Hr Hl. apply analyze_log_inr in Hr as (lines' & Hl' & ->).
  rewrite Hl in Hl'. injection Hl' as <-. simpl.
  split; [|split; [|split]].
  - intros k. apply scan_level_counts.
  - intros k v Hin. pose proof (scan_level_keys lines) as HF.
    rewrite Forall_forall in HF. exact (HF _ Hin).
  - intros lvl. unfold level_count, counter_get. simpl.
    rewrite scan_level_counts. pose proof (lines_of_level_nonneg (Some (u lvl)) lines).
    case_decide; simpl; lia.
  - by intros ->.
Qed.

(** C3: [total_lines] is the sum of [parsed_lines], [invalid_lines] and the
    number of blank lines; every line counts toward [total_lines], and a
    blank line changes neither [parsed_lines] nor [invalid_lines]. *)
Theorem C3_total_is_parsed_plus_invalid_plus_blank w p n r lines :
  analyze_log w p n = inr r ->
  file_lines w p = Some lines ->
  Report.total_lines r
  = Report.parsed_lines r + Report.invalid_lines r + blank_lines_skipped lines
  /\ Report.total_lines r = Z.of_nat (length lines)
  /\ forall st line,
       is_blank line = true ->
       loop_body st line
       = Locals (level_counts st) (error_paths st) (total_lines st + 1)
           (parsed_lines st) (invalid_lines st).
Proof.
  intros Hr Hl. apply analyze_log_inr in Hr as (lines' & Hl' & ->).
  rewrite Hl in Hl'. injection Hl' as <-. simpl.
  destruct (scan_totals lines) as [H1 H2]. split; [exact H1|].
  split; [exact H2|]. intros st line Hb.
  destruct (loop_body_cases st line) as [[_ H]|[(Hb' & _)|(Hb' & _)]];
    [exact H|congruence|congruence].
Qed.

(** C4: the values of [level_counts] add up to [parsed_lines]. *)
Theorem C4_level_counts_sum_to_parsed_lines w p n r :
  analyze_log w p n = inr r ->
  sum_values (Report.level_counts r) = Report.parsed_lines r.
Proof.
  intros Hr. apply analyze_log_inr in Hr as (lines & _ & ->). simpl.
  apply scan_level_sum.
Qed.

(** C5: [top_error_paths] is the first [N] entries of [error_paths] in the
    order "count descending, entries of one count as first inserted", so it
    is no longer than [N], and it is empty when [N <= 0]. *)
Theorem C5_top_error_paths_is_stable_top_n w p n st sorted :
  stable_sorted_desc (error_paths st) sorted ->
  let top := Report.top_error_paths (build_report w p n st) in
  top = take (Z.to_nat n) sorted
  /\ Z.of_nat (length top) <= Z.max 0 n
  /\ (n <= 0 -> top = []).
Proof.
  intros Hs. simpl. unfold most_common. rewrite nlargest_sorted.
  rewrite (stable_sorted_desc_unique _ _ _ (sorted_reverse_stable _) Hs).
  split; [reflexivity|]. split.
  - rewrite length_take. lia.
  - intros Hn. by replace (Z.to_nat n) with 0%nat by lia.
Qed.

(** C6: when the source path names no file, [analyze_log] raises
    [FileNotFoundError] without having read anything, [main] ends with that
    exception and a status that is not zero, and it leaves the world as it
    was: no file written, no directory made, nothing printed. *)
Theorem C6_missing_source_is_fatal_and_writes_nothing args w :
  files w !! arg_file args = None ->
  let e := FileNotFoundError (u "Log file not found: " ++ arg_file args) in
  analyze_log w (arg_file args) (arg_top args) = inl e
  /\ main args w = (inl e, w)
  /\ exit_status (main args w).1 <> 0.
Proof.
  intros Hf. simpl.
  assert (analyze_log w (arg_file args) (arg_top args)
          = inl (FileNotFoundError (u "Log file not found: " ++ arg_file args)))
    as Ha by (by apply analyze_log_missing).
  assert (main args w
          = (inl (FileNotFoundError (u "Log file not found: " ++ arg_file args)), w))
    as Hm by (unfold main, mbind, M_bind, reading; by rewrite Ha).
  split; [exact Ha|]. split; [exact Hm|]. by rewrite Hm.
Qed.

(** C7, which the code does not keep. On an empty log the report has no
    error paths; the HTML document that [save_html_report] writes has the
    table with its header row only and no "(none)" in it, while the summary
    that [print_summary] prints has the "(none)" line. *)
Theorem C7_html_report_has_no_empty_state :
  let run := main sample_args (sample_world []) in
  analyze_log (sample_world []) (u "app.log") 5 = inr empty_log_report
  /\ Report.top_error_paths empty_log_report = []
  /\ run.1 = inr tt
  /\ decode Strict <$> files run.2 !! u "output/report.html"
     = Some (inr (html_content empty_log_report))
  /\ contains (u "(none)") (html_content empty_log_report) = false
  /\ contains (u "(none)") (stdout run.2) = true
  /\ forall r, Report.top_error_paths r = [] -> u "  (none)" ∈ summary_lines r.
Proof.
  repeat split; try (vm_compute; reflexivity).
  intros r Hr. unfold summary_lines. rewrite Hr.
  rewrite !elem_of_app. do 3 right. by apply list_elem_of_singleton.
Qed.

(** C8: two runs over the same file contents, whatever the clock, the path
    and the rest of the world, give the same [total_lines], [parsed_lines],
    [invalid_lines], [level_counts] and [top_error_paths]. *)
Theorem C8_same_contents_same_counts w1 w2 p1 p2 n r1 r2 bs :
  files w1 !! p1 = Some bs ->
  files w2 !! p2 = Some bs ->
  analyze_log w1 p1 n = inr r1 ->
  analyze_log w2 p2 n = inr r2 ->
  Report.total_lines r1 = Report.total_lines r2
  /\ Report.parsed_lines r1 = Report.parsed_lines r2
  /\ Report.invalid_lines r1 = Report.invalid_lines r2
  /\ Report.level_counts r1 = Report.level_counts r2
  /\ Report.top_error_paths r1 = Report.top_error_paths r2.
Proof.
  intros H1 H2.
  rewrite (analyze_log_existing _ _ _ _ H1), (analyze_log_existing _ _ _ _ H2).
  destruct (open_lines Replace bs) as [e|lines]; [discriminate|].
  intros [= <-] [= <-]. simpl. auto.
Qed.

(** C9: whatever the bytes of an existing source file, reading it with
    [errors="replace"] gives lines and [analyze_log] returns a report; no
    [UnicodeDecodeError] comes out of it. *)
Theorem C9_undecodable_bytes_never_abort w p n bs :
  files w !! p = Some bs ->
  exists lines,
    open_lines Replace bs = inr lines
    /\ analyze_log w p n = inr (build_report w p n (scan lines)).
Proof.
  intros Hf. destruct (open_lines_replace_total bs) as [lines Hl].
  exists lines. split; [exact Hl|].
  by rewrite (analyze_log_existing _ _ _ _ Hf), Hl.
Qed.

(** C10: when the [path=] that a match found is followed by white space or
    by the end of the line, the [path] group is [None], the line is counted
    as parsed under its level, and [error_paths] stays as it was; and every
    pair of [top_error_paths] has a path that is not empty and a count of at
    least 1. *)
Theorem C10_empty_path_token_is_no_path :
  (forall st raw m,
     is_blank raw = false ->
     LOG_RE_search (strip raw) = Some m ->
     space_or_end_at (strip raw) (marker_end m) ->
     drop (marker_end m - 5) (strip raw)
     = u "path=" ++ drop (marker_end m) (strip raw)
     /\ group m G_path = None
     /\ loop_body st raw
        = Locals (counter_incr (group m G_level) (level_counts st))
            (error_paths st) (total_lines st + 1) (parsed_lines st + 1)
            (invalid_lines st))
  /\ (forall w p n r path count,
        analyze_log w p n = inr r ->
        (path, count) ∈ Report.top_error_paths r ->
        path <> [] /\ 1 <= count).
Proof.
  split.
  - intros st raw m Hb Hm Hsp.
    pose proof Hm as Ha. apply LOG_RE_anatomy in Ha as (_ & _ & Hmark & Hpath).
    assert (path_span (m_groups m) = None) as Hnone.
    { destruct (path_span (m_groups m)) as [[s e]|] eqn:Es; [|reflexivity].
      destruct (Hpath s e eq_refl) as (_ & x & s' & Hd & Hx).
      unfold space_or_end_at, marker_end in Hsp. rewrite Es, Hd in Hsp.
      congruence. }
    assert (group m G_path = None) as Hg by (unfold group; simpl; by rewrite Hnone).
    split; [exact Hmark|]. split; [exact Hg|].
    unfold loop_body. unfold is_blank in Hb. rewrite Hb, Hm, Hg. reflexivity.
  - intros w p n r path count Hr Hin.
    apply analyze_log_inr in Hr as (lines & _ & ->). simpl in Hin.
    apply most_common_subset in Hin.
    pose proof (scan_error_paths lines) as HF. rewrite Forall_forall in HF.
    exact (HF _ Hin).
Qed.

(** ** More about the counters *)

Section MoreDictFacts.
Context {K : Type} `{EqDecision K}.

Lemma dict_set_keys {V} (k : K) (v : V) (d : dict K V) :
  (dict_set k v d).*1 = if decide (k ∈ d.*1) then d.*1 else d.*1 ++ [k].
Proof.
  induction d as [|[k0 v0] d IH]; [reflexivity|].
  change (((k0, v0) :: d).*1) with (k0 :: d.*1).
  destruct (decide (k ∈ k0 :: d.*1)) as [Hin|Hnin]; simpl;
    destruct (decide (k = k0)) as [->|Hne]; simpl; try reflexivity.
  - apply elem_of_cons in Hin as [?|Hin]; [congruence|].
    rewrite decide_True in IH by exact Hin. f_equal. exact IH.
  - exfalso. apply Hnin. left.
  - rewrite decide_False in IH by (intros Hin; apply Hnin; by right).
    f_equal. exact IH.
Qed.

Lemma dict_get_NoDup {V} (k : K) (v : V) (d : dict K V) :
  NoDup d.*1 -> (k, v) ∈ d -> dict_get k d = Some v.
Proof.
  induction d as [|[k0 v0] d IH]; simpl; intros Hnd Hin.
  - by apply elem_of_nil in Hin.
  - apply NoDup_cons in Hnd as [Hk0 Hnd].
    apply elem_of_cons in Hin as [[= -> ->]|Hin].
    + by rewrite decide_True.
    + destruct (decide (k = k0)) as [->|]; [|by apply IH].
      exfalso. apply Hk0. apply list_elem_of_fmap. by exists (k0, v).
Qed.

Lemma first_seen_snoc (l : list K) x :
  first_seen (l ++ [x])
  = if decide (x ∈ first_seen l) then first_seen l else first_seen l ++ [x].
Proof. unfold first_seen. by rewrite fold_left_app. Qed.

Lemma first_seen_elem (l : list K) x : x ∈ first_seen l <-> x ∈ l.
Proof.
  induction l as [|y l IH] using rev_ind; [reflexivity|].
  rewrite first_seen_snoc, elem_of_app, list_elem_of_singleton.
  destruct (decide (y ∈ first_seen l)) as [Hy|Hy].
  - rewrite IH. split; [tauto|]. intros [? | ->]; [done|by apply IH].
  - rewrite elem_of_app, list_elem_of_singleton, IH. reflexivity.
Qed.

Lemma first_seen_NoDup (l : list K) : NoDup (first_seen l).
Proof.
  induction l as [|y l IH] using rev_ind; [constructor|].
  rewrite first_seen_snoc. destruct (decide (y ∈ first_seen l)); [exact IH|].
  apply NoDup_app. split; [exact IH|]. split; [|apply NoDup_singleton].
  intros x Hx ->%list_elem_of_singleton. contradiction.
Qed.

Lemma sum_values_perm (c1 c2 : Counter K) :
  c1 ≡ₚ c2 -> sum_values c1 = sum_values c2.
Proof.
  unfold sum_values. induction 1; simpl; first [lia|congruence].
Qed.

Lemma sum_values_nonneg (c : Counter K) :
  Forall (fun e => 0 <= e.2) c -> 0 <= sum_values c.
Proof. unfold sum_values. induction 1; simpl; lia. Qed.

Lemma sum_values_take n (c : Counter K) :
  Forall (fun e => 0 <= e.2) c -> sum_values (take n c) <= sum_values c.
Proof.
  intros HF. revert n.
  induction HF as [|e c He Hc IH]; intros [|n]; simpl; try reflexivity.
  - pose proof (sum_values_nonneg c Hc). unfold sum_values in *. simpl. lia.
  - specialize (IH n). unfold sum_values in *. simpl. lia.
Qed.

End MoreDictFacts.

(** ** More about the scan *)

Lemma loop_body_error_paths st line :
  error_paths (loop_body st line)
  = match error_path_of line with
    | Some p => counter_incr p (error_paths st)
    | None => error_paths st
    end.
Proof.
  unfold loop_body, error_path_of, is_blank.
  destruct (negb (truthy (strip line))); [reflexivity|].
  destruct (LOG_RE_search (strip line)) as [m|]; [|reflexivity]. simpl.
  destruct (group m G_path) as [p|]; [|reflexivity].
  destruct (bool_decide _ && truthy p); reflexivity.
Qed.

Lemma loop_body_counters st line :
  total_lines (loop_body st line) = total_lines st + 1
  /\ parsed_lines (loop_body st line)
     = parsed_lines st + (if is_parsed line then 1 else 0)
  /\ invalid_lines (loop_body st line)
     = invalid_lines st + (if is_invalid line then 1 else 0).
Proof.
  unfold is_invalid, is_parsed, parsed_level.
  destruct (loop_body_cases st line)
    as [[Hb ->]|[(Hb & Hn & ->)|(Hb & m & ep & Hm & -> & _)]];
    rewrite Hb, ?Hn, ?Hm; simpl; lia.
Qed.

Lemma scan_counters lines :
  parsed_lines (scan lines) = parsed_count lines
  /\ invalid_lines (scan lines) = invalid_count lines.
Proof.
  unfold parsed_count, invalid_count.
  induction lines as [|l lines [IH1 IH2]] using rev_ind; [by split|].
  rewrite scan_snoc, !filter_app, !length_app, !filter_cons, !filter_nil.
  destruct (loop_body_counters (scan lines) l) as (_ & -> & ->).
  rewrite IH1, IH2.
  destruct (is_parsed l), (is_invalid l); repeat case_decide;
    try congruence; simpl; lia.
Qed.

Lemma scan_error_keys lines :
  (error_paths (scan lines)).*1 = first_seen (omap error_path_of lines).
Proof.
  induction lines as [|l lines IH] using rev_ind; [reflexivity|].
  rewrite scan_snoc, loop_body_error_paths, omap_app. simpl.
  destruct (error_path_of l) as [p|]; simpl.
  - unfold counter_incr. rewrite dict_set_keys, first_seen_snoc, IH. reflexivity.
  - by rewrite app_nil_r.
Qed.

Lemma lines_of_path_snoc p lines l :
  lines_of_path p (lines ++ [l])
  = lines_of_path p lines + (if decide (error_path_of l = Some p) then 1 else 0).
Proof.
  unfold lines_of_path. rewrite filter_app, length_app, filter_cons.
  destruct (decide (error_path_of l = Some p)); simpl; lia.
Qed.

Lemma scan_error_counts lines p :
  dict_get p (error_paths (scan lines))
  = if decide (lines_of_path p lines = 0) then None
    else Some (lines_of_path p lines).
Proof.
  induction lines as [|l lines IH] using rev_ind; [reflexivity|].
  rewrite scan_snoc, loop_body_error_paths, lines_of_path_snoc.
  assert (0 <= lines_of_path p lines) as Hnn by (unfold lines_of_path; lia).
  assert (counter_get p (error_paths (scan lines)) = lines_of_path p lines)
    as Hget.
  { unfold counter_get. rewrite IH. case_decide; simpl; lia. }
  destruct (error_path_of l) as [q|] eqn:El.
  - rewrite dict_get_incr, Hget. destruct (decide (p = q)) as [->|Hne].
    + destruct (decide (Some q = Some q)); [|congruence].
      repeat case_decide; first [lia|reflexivity].
    + destruct (decide (Some q = Some p)); [congruence|].
      rewrite Z.add_0_r. exact IH.
  - destruct (decide (None = Some p)); [congruence|].
    rewrite Z.add_0_r. exact IH.
Qed.

Lemma scan_error_level_bound lines :
  sum_values (error_paths (scan lines))
  <= counter_get (Some (u "ERROR")) (level_counts (scan lines)).
Proof.
  induction lines as [|l lines IH] using rev_ind; [reflexivity|].
  rewrite scan_snoc.
  destruct (loop_body_cases (scan lines) l)
    as [[Hb ->]|[(Hb & _ & ->)|(Hb & m & ep & _ & -> & Hep)]]; simpl;
    try exact IH.
  assert (counter_get (Some (u "ERROR")) (level_counts (scan lines))
          <= counter_get (Some (u "ERROR"))
               (counter_incr (group m G_level) (level_counts (scan lines))))
    as Hmono.
  { unfold counter_get at 2. rewrite dict_get_incr.
    case_decide; simpl; [lia|]. reflexivity. }
  destruct Hep as [->|(p & _ & _ & Hlvl & ->)]; [lia|].
  rewrite sum_values_incr. unfold counter_get at 1. rewrite dict_get_incr, Hlvl.
  rewrite decide_True by reflexivity. simpl. lia.
Qed.

Lemma counter_get_le_sum {K} `{EqDecision K} (k : K) (c : Counter K) :
  Forall (fun e => 0 <= e.2) c -> counter_get k c <= sum_values c.
Proof.
  unfold counter_get, sum_values.
  induction 1 as [|[k0 v0] c H0 Hc IH]; simpl; [lia|].
  pose proof (sum_values_nonneg c Hc) as Hnn. unfold sum_values in Hnn.
  destruct (decide (k = k0)); simpl in *; lia.
Qed.

Lemma Forall_ge_1_nonneg {K} (Q : K -> Prop) (c : Counter K) :
  Forall (fun e => Q e.1 /\ 1 <= e.2) c -> Forall (fun e => 0 <= e.2) c.
Proof. intros H. eapply Forall_impl; [exact H|]. intros e [_ He]. simpl. lia. Qed.

(** ** What the counters hold *)

(** At the end of the loop the keys of [error_paths] are the paths of the
    ERROR lines in the order in which they first occur, and the value of a
    path is the number of ERROR lines that have it. *)
Theorem error_paths_first_seen_with_counts lines :
  (error_paths (scan lines)).*1 = first_seen (omap error_path_of lines)
  /\ forall p, counter_get p (error_paths (scan lines)) = lines_of_path p lines.
Proof.
  split; [apply scan_error_keys|]. intros p. unfold counter_get.
  rewrite scan_error_counts.
  assert (0 <= lines_of_path p lines) by (unfold lines_of_path; lia).
  case_decide; simpl; lia.
Qed.

(** No path occurs twice in [top_error_paths], and the count beside a path
    is the number of ERROR lines of the file that have this path. *)
Theorem top_error_paths_lists_each_path_once_with_its_count w p n r lines :
  analyze_log w p n = inr r ->
  file_lines w p = Some lines ->
  NoDup (Report.top_error_paths r).*1
  /\ forall path count,
       (path, count) ∈ Report.top_error_paths r ->
       count = lines_of_path path lines.
Proof.
  intros Hr Hl. apply analyze_log_inr in Hr as (lines' & Hl' & ->).
  rewrite Hl in Hl'. injection Hl' as <-. simpl.
  assert (NoDup (error_paths (scan lines)).*1) as Hnd
    by (rewrite scan_error_keys; apply first_seen_NoDup).
  split.
  - unfold most_common. rewrite nlargest_sorted, fmap_take.
    eapply sublist_NoDup; [|apply sublist_take].
    by rewrite sorted_reverse_perm.
  - intros path count Hin. apply most_common_subset in Hin.
    apply (dict_get_NoDup _ _ _ Hnd) in Hin. rewrite scan_error_counts in Hin.
    case_decide; congruence.
Qed.

(** [top_error_paths] has as many entries as [N] allows and [error_paths]
    has, taken from [error_paths]: with [N] at least the number of distinct
    error paths, every one of them is listed. *)
Theorem top_error_paths_length w p n st :
  let top := Report.top_error_paths (build_report w p n st) in
  length top = min (Z.to_nat n) (length (error_paths st))
  /\ top ⊆+ error_paths st.
Proof.
  simpl. unfold most_common. rewrite nlargest_sorted. split.
  - rewrite length_take. f_equal. apply length_sorted_reverse.
  - rewrite <- (sorted_reverse_perm (error_paths st)) at 2. apply submseteq_take.
Qed.

(** The counts do not depend on the order of the lines: two files with the
    same lines in different orders give the same totals, the same count for
    every level and the same count for every error path. *)
Theorem counts_do_not_depend_on_line_order lines1 lines2 :
  lines1 ≡ₚ lines2 ->
  total_lines (scan lines1) = total_lines (scan lines2)
  /\ parsed_lines (scan lines1) = parsed_lines (scan lines2)
  /\ invalid_lines (scan lines1) = invalid_lines (scan lines2)
  /\ (forall k, counter_get k (level_counts (scan lines1))
                = counter_get k (level_counts (scan lines2)))
  /\ (forall q, counter_get q (error_paths (scan lines1))
                = counter_get q (error_paths (scan lines2))).
Proof.
  intros Hp.
  destruct (scan_totals lines1) as [_ ->], (scan_totals lines2) as [_ ->].
  destruct (scan_counters lines1) as [-> ->], (scan_counters lines2) as [-> ->].
  unfold parsed_count, invalid_count.
  repeat split; try (by rewrite Hp).
  - intros k. unfold counter_get. rewrite !scan_level_counts.
    assert (lines_of_level k lines1 = lines_of_level k lines2) as ->
      by (unfold lines_of_level; by rewrite Hp).
    reflexivity.
  - intros q. unfold counter_get. rewrite !scan_error_counts.
    assert (lines_of_path q lines1 = lines_of_path q lines2) as ->
      by (unfold lines_of_path; by rewrite Hp).
    reflexivity.
Qed.

(** Scanning one list of lines after another adds the counts up. *)
Theorem counts_add_up_over_concatenation lines1 lines2 :
  total_lines (scan (lines1 ++ lines2))
  = total_lines (scan lines1) + total_lines (scan lines2)
  /\ parsed_lines (scan (lines1 ++ lines2))
     = parsed_lines (scan lines1) + parsed_lines (scan lines2)
  /\ invalid_lines (scan (lines1 ++ lines2))
     = invalid_lines (scan lines1) + invalid_lines (scan lines2)
  /\ (forall k, counter_get k (level_counts (scan (lines1 ++ lines2)))
                = counter_get k (level_counts (scan lines1))
                  + counter_get k (level_counts (scan lines2)))
  /\ (forall q, counter_get q (error_paths (scan (lines1 ++ lines2)))
                = counter_get q (error_paths (scan lines1))
                  + counter_get q (error_paths (scan lines2))).
Proof.
  destruct (scan_totals lines1) as [_ ->], (scan_totals lines2) as [_ ->].
  destruct (scan_totals (lines1 ++ lines2)) as [_ ->].
  destruct (scan_counters lines1) as [-> ->], (scan_counters lines2) as [-> ->].
  destruct (scan_counters (lines1 ++ lines2)) as [-> ->].
  unfold parsed_count, invalid_count.
  rewrite !filter_app, !length_app. repeat split; try lia.
  - intros k. unfold counter_get. rewrite !scan_level_counts.
    unfold lines_of_level. rewrite filter_app, length_app.
    repeat case_decide; simpl; lia.
  - intros q. unfold counter_get. rewrite !scan_error_counts.
    unfold lines_of_path. rewrite filter_app, length_app.
    repeat case_decide; simpl; lia.
Qed.

(** The numbers of a report are ordered: the counts of [top_error_paths]
    add up to at most the count of the level ERROR, which is at most
    [parsed_lines], and [parsed_lines] and [invalid_lines], neither of them
    negative, add up to at most [total_lines]. *)
Theorem report_counts_are_ordered w p n r :
  analyze_log w p n = inr r ->
  sum_values (Report.top_error_paths r) <= level_count r "ERROR"
  /\ level_count r "ERROR" <= Report.parsed_lines r
  /\ 0 <= Report.parsed_lines r
  /\ 0 <= Report.invalid_lines r
  /\ Report.parsed_lines r + Report.invalid_lines r <= Report.total_lines r.
Proof.
  intros Hr. apply analyze_log_inr in Hr as (lines & _ & ->).
  unfold level_count. simpl.
  destruct (scan_totals lines) as [Ht _].
  destruct (scan_counters lines) as [Hp Hi].
  pose proof (scan_level_keys lines) as Hlk.
  apply (Forall_ge_1_nonneg (fun k => exists lvl, lvl ∈ LEVELS /\ k = Some lvl))
    in Hlk.
  pose proof (scan_error_paths lines) as Hep.
  apply (Forall_ge_1_nonneg (fun k => k <> [])) in Hep.
  split; [|split; [|split; [|split]]].
  - etrans; [|apply scan_error_level_bound].
    unfold most_common. rewrite nlargest_sorted.
    etrans; [apply sum_values_take|].
    + by rewrite sorted_reverse_perm.
    + by rewrite (sum_values_perm _ _ (sorted_reverse_perm _)).
  - rewrite <- scan_level_sum. by apply counter_get_le_sum.
  - rewrite Hp. unfold parsed_count. lia.
  - rewrite Hi. unfold invalid_count. lia.
  - rewrite Ht. unfold blank_lines_skipped. lia.
Qed.

(** ** The matcher: what a match consumes *)

Lemma exec_seq {A} r1 r2 c gs (k : cursor -> groups -> option A) :
  exec (Seq r1 r2) c gs k = exec r1 c gs (fun c' gs' => exec r2 c' gs' k).
Proof. reflexivity. Qed.

Lemma advance_nil c : advance c [] = c.
Proof. destruct c. unfold advance. simpl. by rewrite Nat.add_0_r. Qed.

Lemma advance_app c r1 r2 : advance (advance c r1) r2 = advance c (r1 ++ r2).
Proof.
  unfold advance. simpl. rewrite last_app, length_app, drop_drop, Nat.add_assoc.
  f_equal. by destruct (last r2).
Qed.

Lemma advance_cons b i x s run :
  advance (Cursor (Some x) (S i) s) run = advance (Cursor b i (x :: s)) (x :: run).
Proof.
  unfold advance. simpl. rewrite last_cons. f_equal; [|lia].
  by destruct (last run).
Qed.

Lemma rest_advance c run s' : rest c = run ++ s' -> rest (advance c run) = s'.
Proof. intros H. simpl. rewrite H. apply drop_app_length. Qed.

Lemma match_literal_advance p : forall c c',
  match_literal p c = Some c' ->
  c' = advance c p /\ rest c = p ++ rest c'.
Proof.
  induction p as [|a p IH]; intros c c' H; simpl in H.
  - injection H as <-. by rewrite advance_nil.
  - destruct c as [b i s]. simpl in *. destruct s as [|x r]; [discriminate|].
    destruct (N.eqb_spec a x) as [->|]; [|discriminate].
    apply IH in H as [-> H2].
    split; [apply advance_cons|]. simpl in *. f_equal. exact H2.
Qed.

Lemma match_literal_complete p : forall c s',
  rest c = p ++ s' -> match_literal p c = Some (advance c p).
Proof.
  induction p as [|a p IH]; intros c s' H; simpl.
  - by rewrite advance_nil.
  - destruct c as [b i s]. simpl in *. subst s. rewrite N.eqb_refl.
    rewrite (IH _ s') by reflexivity. f_equal. apply advance_cons.
Qed.

(** What a repetition of a class consumes. *)
Lemma repeat_class_consumes {A} s : forall greedy cs lo hi b i
    (k : cursor -> option A) a,
  repeat_class greedy cs lo hi b i s k = Some a ->
  exists run s',
    s = run ++ s'
    /\ Forall (fun x => in_charset cs x = true) run
    /\ (lo <= length run)%nat
    /\ (forall h, hi = Some h -> (length run <= h)%nat)
    /\ k (advance (Cursor b i s) run) = Some a.
Proof.
  induction s as [|x s IH]; intros greedy cs lo hi b i k a H; simpl in H.
  - exists [], []. rewrite advance_nil.
    destruct greedy, lo, hi as [[|?]|]; simpl in H; try discriminate;
      split_or_else; split_and!;
      first [reflexivity|assumption|by constructor|simpl; lia
            |intros h Hh; simplify_eq; simpl; lia].
  - destruct (in_charset cs x) eqn:Ex;
      destruct greedy, lo, hi as [[|?]|]; simpl in H; try discriminate;
      split_or_else;
      first [ match goal with
              | E : repeat_class _ _ _ _ _ _ _ _ = Some _ |- _ =>
                  apply IH in E as (run & s' & -> & HF & Hlo & Hhi & Hk);
                  exists (x :: run), s';
                  rewrite (advance_cons b) in Hk;
                  split_and!;
                  first [reflexivity|exact Hk|by constructor|simpl; lia
                        |intros h Hh; simplify_eq; simpl;
                         first [lia|specialize (Hhi _ eq_refl); lia]]
              end
            | exists [], (x :: s); rewrite advance_nil; split_and!;
              first [reflexivity|assumption|by constructor|simpl; lia
                    |intros h Hh; simplify_eq; simpl; lia] ].
Qed.

(** A lazy repetition stops at the first place from which the rest of the
    pattern matches. *)
Lemma repeat_lazy_first {A} cs s : forall b i (k : cursor -> option A) a,
  repeat_class false cs 0 None b i s k = Some a ->
  exists run s',
    s = run ++ s'
    /\ Forall (fun x => in_charset cs x = true) run
    /\ k (advance (Cursor b i s) run) = Some a
    /\ forall r1 r2, run = r1 ++ r2 -> r2 <> [] ->
         k (advance (Cursor b i s) r1) = None.
Proof.
  induction s as [|x s IH]; intros b i k a H; simpl in H.
  - exists [], []. rewrite advance_nil. split_or_else.
    split_and!; [reflexivity|constructor|reflexivity|].
    intros r1 r2 Hr Hne. destruct r1, r2; simpl in Hr; try discriminate.
    contradiction.
  - unfold or_else in H.
    destruct (k (Cursor b i (x :: s))) as [a0|] eqn:Ek.
    + injection H as ->. exists [], (x :: s). rewrite advance_nil.
      split_and!; [reflexivity|constructor|exact Ek|].
      intros r1 r2 Hr Hne. destruct r1, r2; simpl in Hr; try discriminate.
      contradiction.
    + destruct (in_charset cs x) eqn:Ex; [|discriminate].
      apply IH in H as (run & s' & -> & HF & Hk & Hfirst).
      exists (x :: run), s'. rewrite <- (advance_cons b).
      split_and!; [reflexivity|by constructor|exact Hk|].
      intros [|y r1] r2 Hr Hne.
      * by rewrite advance_nil.
      * injection Hr as <- ->. rewrite <- (advance_cons b).
        by apply (Hfirst r1 r2).
Qed.

(** A greedy repetition before a rest of the pattern that cannot fail takes
    all the characters of its class that there are. *)
Lemma repeat_greedy_longest {A} cs s : forall lo b i (k : cursor -> option A),
  (forall c, is_Some (k c)) ->
  repeat_class true cs lo None b i s k
  = if (lo <=? length (take_while (in_charset cs) s))%nat
    then k (advance (Cursor b i s) (take_while (in_charset cs) s))
    else None.
Proof.
  induction s as [|x s IH]; intros lo b i k Hk; simpl.
  - rewrite advance_nil. by destruct lo.
  - destruct (in_charset cs x) eqn:Ex; simpl.
    + rewrite IH by exact Hk. rewrite <- (advance_cons b).
      destruct lo as [|lo]; simpl.
      * destruct (Hk (advance (Cursor (Some x) (S i) s)
                        (take_while (in_charset cs) s))) as [a ->].
        reflexivity.
      * destruct (lo <=? length (take_while (in_charset cs) s))%nat; [|reflexivity].
        destruct (Hk (advance (Cursor (Some x) (S i) s)
                        (take_while (in_charset cs) s))) as [a ->].
        reflexivity.
    + rewrite advance_nil. by destruct lo.
Qed.

Lemma exec_repeat_consumes {A} greedy lo hi cs c gs
    (k : cursor -> groups -> option A) a :
  exec (Repeat greedy lo hi cs) c gs k = Some a ->
  exists run s',
    rest c = run ++ s'
    /\ Forall (fun x => in_charset cs x = true) run
    /\ (lo <= length run)%nat
    /\ (forall h, hi = Some h -> (length run <= h)%nat)
    /\ k (advance c run) gs = Some a.
Proof.
  destruct c as [b i s]. simpl. intros H.
  apply repeat_class_consumes in H as (run & s' & -> & HF & Hlo & Hhi & Hk).
  by exists run, s'.
Qed.

Lemma exec_lazy_first {A} cs c gs (k : cursor -> groups -> option A) a :
  exec (lazy_star cs) c gs k = Some a ->
  exists run s',
    rest c = run ++ s'
    /\ Forall (fun x => in_charset cs x = true) run
    /\ k (advance c run) gs = Some a
    /\ forall r1 r2, run = r1 ++ r2 -> r2 <> [] -> k (advance c r1) gs = None.
Proof.
  destruct c as [b i s]. simpl. intros H.
  apply repeat_lazy_first in H as (run & s' & -> & HF & Hk & Hfirst).
  by exists run, s'.
Qed.

Lemma exec_lit_consumes {A} p c gs (k : cursor -> groups -> option A) a :
  exec (Lit p) c gs k = Some a ->
  exists s', rest c = p ++ s' /\ k (advance c p) gs = Some a.
Proof.
  simpl. destruct (match_literal p c) as [c'|] eqn:E; [|discriminate].
  apply match_literal_advance in E as [-> E]. intros H.
  by exists (rest (advance c p)).
Qed.

Lemma exec_bol {A} c gs (k : cursor -> groups -> option A) a :
  exec Bol c gs k = Some a -> pos c = 0%nat /\ k c gs = Some a.
Proof. simpl. destruct (Nat.eqb_spec (pos c) 0); [by split|discriminate]. Qed.

Lemma exec_word_boundary {A} c gs (k : cursor -> groups -> option A) a :
  exec WordBoundary c gs k = Some a ->
  xorb (word_at (before c)) (word_at (head (rest c))) = true /\ k c gs = Some a.
Proof. simpl. destruct (xorb _ _); [by split|discriminate]. Qed.

(** The last item of [LOG_RE] before a rest that cannot fail: the [path]
    group is the longest run of characters that are not white space, when
    there is one. *)
Lemma exec_optional_path_longest {A} c gs (k : cursor -> groups -> option A) :
  (forall c' gs', is_Some (k c' gs')) ->
  exec (Opt (Group G_path (plus NotSpace))) c gs k
  = match take_while not_space (rest c) with
    | [] => k c gs
    | tok =>
        k (advance c tok) (set_group G_path (pos c, pos c + length tok)%nat gs)
    end.
Proof.
  intros Hk. destruct c as [b i s]. simpl.
  rewrite repeat_greedy_longest by (intros c'; apply Hk).
  change (in_charset NotSpace) with not_space.
  destruct (take_while not_space s) as [|x tok] eqn:Et; simpl; [reflexivity|].
  destruct (Hk (advance (Cursor b i s) (x :: tok))
              (set_group G_path (i, i + S (length tok))%nat gs)) as [a Ha].
  simpl in Ha. rewrite Ha. reflexivity.
Qed.

(** ** The matcher: what it accepts *)

Lemma accepts_seq r1 r2 c c1 c2 :
  accepts r1 c c1 -> accepts r2 c1 c2 -> accepts (Seq r1 r2) c c2.
Proof. intros H1 H2 A k Hk gs. simpl. apply H1. intros gs1. by apply H2. Qed.

Lemma accepts_group g r c c' : accepts r c c' -> accepts (Group g r) c c'.
Proof. intros H A k Hk gs. simpl. apply H. intros gs'. apply Hk. Qed.

Lemma accepts_opt_skip r c : accepts (Opt r) c c.
Proof.
  intros A k Hk gs. simpl. unfold or_else.
  destruct (exec r c gs k); [eauto|apply Hk].
Qed.

Lemma accepts_alt_l r1 r2 c c' : accepts r1 c c' -> accepts (Alt r1 r2) c c'.
Proof.
  intros H A k Hk gs. simpl. destruct (H A k Hk gs) as [a ->]. simpl. eauto.
Qed.

Lemma accepts_alt_r r1 r2 c c' : accepts r2 c c' -> accepts (Alt r1 r2) c c'.
Proof.
  intros H A k Hk gs. simpl. unfold or_else.
  destruct (exec r1 c gs k); [eauto|by apply H].
Qed.

Lemma accepts_lit p c s' : rest c = p ++ s' -> accepts (Lit p) c (advance c p).
Proof.
  intros Hr A k Hk gs. simpl. rewrite (match_literal_complete p c s' Hr).
  apply Hk.
Qed.

Lemma accepts_bol c : pos c = 0%nat -> accepts Bol c c.
Proof. intros Hp A k Hk gs. simpl. rewrite Hp. apply Hk. Qed.

Lemma accepts_word_boundary c :
  xorb (word_at (before c)) (word_at (head (rest c))) = true ->
  accepts WordBoundary c c.
Proof. intros Hb A k Hk gs. simpl. rewrite Hb. apply Hk. Qed.

Lemma repeat_class_accepts {A} run : forall greedy cs lo hi b i s'
    (k : cursor -> option A),
  Forall (fun x => in_charset cs x = true) run ->
  (lo <= length run)%nat ->
  (forall h, hi = Some h -> (length run <= h)%nat) ->
  is_Some (k (advance (Cursor b i (run ++ s')) run)) ->
  is_Some (repeat_class greedy cs lo hi b i (run ++ s') k).
Proof.
  induction run as [|x run IH]; intros greedy cs lo hi b i s' k HF Hlo Hhi Hk.
  - rewrite advance_nil in Hk. simpl in *. destruct lo; [|lia].
    destruct s' as [|y s']; simpl; unfold or_else;
      destruct greedy; repeat case_match; eauto;
      exfalso; by eapply is_Some_None.
  - apply Forall_cons in HF as [Hx HF]. simpl in Hlo.
    change ((x :: run) ++ s') with (x :: (run ++ s')) in *.
    rewrite <- (advance_cons b) in Hk.
    assert (is_Some (repeat_class greedy cs (pred lo) (pred <$> hi) (Some x)
                       (S i) (run ++ s') k)) as [a Ha].
    { apply IH; [exact HF|lia| |exact Hk].
      intros h Hh. destruct hi as [h0|]; [|discriminate].
      injection Hh as <-. specialize (Hhi _ eq_refl). simpl in Hhi. lia. }
    simpl. rewrite Hx.
    destruct hi as [[|h]|].
    + specialize (Hhi _ eq_refl). simpl in Hhi. lia.
    + rewrite Ha. unfold or_else.
      destruct greedy; repeat case_match; eauto.
    + rewrite Ha. unfold or_else.
      destruct greedy; repeat case_match; eauto.
Qed.

Lemma accepts_repeat greedy lo hi cs c run s' :
  rest c = run ++ s' ->
  Forall (fun x => in_charset cs x = true) run ->
  (lo <= length run)%nat ->
  (forall h, hi = Some h -> (length run <= h)%nat) ->
  accepts (Repeat greedy lo hi cs) c (advance c run).
Proof.
  intros Hr HF Hlo Hhi A k Hk gs. destruct c as [b i s]. simpl in *. subst s.
  by apply repeat_class_accepts.
Qed.

(** ** The anatomy of a match of [LOG_RE] *)

Lemma starts_with_spec p : forall s,
  starts_with p s = true -> exists s', s = p ++ s'.
Proof.
  induction p as [|a p IH]; intros s H; simpl in H; [by exists s|].
  destruct s as [|b s]; [discriminate|].
  apply andb_true_iff in H as [Hab H]. apply N.eqb_eq in Hab as ->.
  apply IH in H as [s' ->]. by exists s'.
Qed.

Lemma before_after_run b (r1 r2 : str) :
  r1 <> [] ->
  from_option Some (from_option Some b (last r1)) (last r2) = last (r1 ++ r2).
Proof.
  intros Hne. rewrite last_app. destruct (last r2); [reflexivity|]. simpl.
  destruct (last r1) eqn:E; [reflexivity|].
  apply last_None in E. contradiction.
Qed.

Lemma take_drop_middle (pre mid post : str) :
  take (length mid) (drop (length pre) (pre ++ mid ++ post)) = mid.
Proof. by rewrite drop_app_length, take_app_length. Qed.

Lemma exact_length (n : nat) (run : str) :
  (n <= length run)%nat ->
  (forall h, Some n = Some h -> (length run <= h)%nat) ->
  length run = n.
Proof. intros H1 H2. specialize (H2 n eq_refl). lia. Qed.

Lemma exec_alt_literals_consumes {A} a b d c gs
    (k : cursor -> groups -> option A) x :
  exec (Alt (Lit a) (Alt (Lit b) (Lit d))) c gs k = Some x ->
  exists lit s',
    lit ∈ [a; b; d] /\ rest c = lit ++ s' /\ k (advance c lit) gs = Some x.
Proof.
  intros H. apply exec_alt_literals in H as (lit & c' & Hin & Hlit & H).
  apply match_literal_advance in Hlit as [-> Hlit].
  by exists lit, (rest (advance c lit)).
Qed.

Lemma before_advance2 c (r1 r2 : str) :
  r1 <> [] -> before (advance (advance c r1) r2) = last (r1 ++ r2).
Proof. intros Hne. simpl. by apply before_after_run. Qed.

Lemma pos_advance c run : pos (advance c run) = (pos c + length run)%nat.
Proof. reflexivity. Qed.

Lemma take_prefix (l pre post : str) : l = pre ++ post -> take (length pre) l = pre.
Proof. intros ->. apply take_app_length. Qed.

Lemma take_drop_between (l pre mid post : str) :
  l = pre ++ mid ++ post ->
  take (length (pre ++ mid) - length pre) (drop (length pre) l) = mid.
Proof.
  intros ->. rewrite length_app.
  replace (length pre + length mid - length pre)%nat with (length mid) by lia.
  apply take_drop_middle.
Qed.

Lemma take_while_prefix P (s : str) :
  take (length (take_while P s)) s = take_while P s.
Proof.
  induction s as [|x s IH]; simpl; [reflexivity|].
  destruct (P x); simpl; [by rewrite IH|reflexivity].
Qed.

Lemma nonempty_of_length (s : str) : (1 <= length s)%nat -> s <> [].
Proof. by destruct s; simpl; [lia|]. Qed.

(** One step through a match: name what the item consumed and go on behind
    it. *)
Ltac step_on H Hc Hr :=
  let Hc' := fresh "Hc" in
  cbv beta in H;
  pose proof (rest_advance _ _ _ Hr) as Hc';
  rewrite Hc in Hr;
  match type of Hr with ?v = _ => subst v end;
  clear Hc; rename Hc' into Hc.

Ltac eat_repeat H Hc run HF Hlo Hhi :=
  let s' := fresh "s" in
  let Hr := fresh "Hr" in
  apply exec_repeat_consumes in H as (run & s' & Hr & HF & Hlo & Hhi & H);
  step_on H Hc Hr.

Ltac eat_lit H Hc :=
  let s' := fresh "s" in
  let Hr := fresh "Hr" in
  apply exec_lit_consumes in H as (s' & Hr & H);
  step_on H Hc Hr.

(** A match of [LOG_RE] takes the line apart: the parts have the shape the
    pattern asks for, the groups are the time stamp, the level and the
    longest run without white space behind [path=], and no [path=] at a
    word boundary stands earlier in the text behind the level. *)
Lemma LOG_RE_match_parts line m :
  LOG_RE_search line = Some m ->
  exists x,
    well_formed x /\ line = line_of x
    /\ m_start m = 0%nat
    /\ group m G_ts = Some (timestamp_of x)
    /\ group m G_level = Some (p_level x)
    /\ marker_end m = (length line - length (p_tail x))%nat
    /\ group m G_path
       = match take_while not_space (p_tail x) with
         | [] => None
         | tok => Some tok
         end
    /\ (forall r1 r2, p_text x = r1 ++ r2 -> r2 <> [] ->
          ~ (word_at (last (p_sep2 x ++ r1)) = false
             /\ starts_with (u "path=") (r2 ++ u "path=" ++ p_tail x) = true)).
Proof.
  unfold LOG_RE_search, re_search. intros H.
  apply search_from_exec in H as (b & i & H); [|reflexivity].
  unfold LOG_RE, exact, plus in H.
  rewrite exec_seq in H. apply exec_bol in H as [Hi H]. simpl in Hi. subst i.
  rewrite drop_0 in H.
  remember (Cursor b 0 line) as c0 eqn:Hc0.
  assert (rest c0 = line) as Hc by (by rewrite Hc0).
  assert (pos c0 = 0%nat) as Hp0 by (by rewrite Hc0).
  clear Hc0.
  rewrite exec_group_seq in H.
  rewrite exec_seq in H. eat_repeat H Hc year HFy Hloy Hhiy.
  rewrite exec_seq in H. eat_lit H Hc.
  rewrite exec_seq in H. eat_repeat H Hc month HFmo Hlomo Hhimo.
  rewrite exec_seq in H. eat_lit H Hc.
  rewrite exec_seq in H. eat_repeat H Hc day HFd Hlod Hhid.
  rewrite exec_seq in H. eat_repeat H Hc gap HFg Hlog Hhig.
  rewrite exec_seq in H. eat_repeat H Hc hour HFh Hloh Hhih.
  rewrite exec_seq in H. eat_lit H Hc.
  rewrite exec_seq in H. eat_repeat H Hc minute HFmi Hlomi Hhimi.
  rewrite exec_seq in H. eat_lit H Hc.
  eat_repeat H Hc second HFs Hlos Hhis.
  rewrite exec_seq in H. eat_repeat H Hc sep1 HFs1 Hlos1 Hhis1.
  rewrite exec_group_seq in H.
  apply exec_alt_literals_consumes in H as (lvl & s' & Hlvl & Hr & H).
  step_on H Hc Hr.
  rewrite exec_seq in H. eat_repeat H Hc sep2 HFs2 Hlos2 Hhis2.
  rewrite exec_seq in H.
  apply exec_lazy_first in H as (text & s' & Hr & HFt & H & Hfirst).
  cbv beta in H. pose proof (rest_advance _ _ _ Hr) as Hct.
  rewrite Hc in Hr. match type of Hr with ?v = _ => subst v end.
  rewrite exec_seq in H. apply exec_word_boundary in H as [Hwb H].
  rewrite exec_seq in H.
  apply exec_lit_consumes in H as (tl & Hr & H). cbv beta in H.
  pose proof (rest_advance _ _ _ Hr) as Hce.
  rewrite Hct in Hr. match type of Hr with ?v = _ => subst v end.
  rewrite exec_optional_path_longest in H by (intros; eauto).
  rewrite Hce in H.
  pose proof (nonempty_of_length _ Hlos2) as Hne2.
  rewrite !pos_advance, Hp0 in H.
  exists (Parts year month day gap hour minute second sep1 lvl sep2 text tl).
  assert (well_formed
            (Parts year month day gap hour minute second sep1 lvl sep2 text tl))
    as Hwf.
  { unfold well_formed, digits, spaces. simpl.
    split_and!; try assumption; try (by apply exact_length);
      try (by apply nonempty_of_length).
    - eapply Forall_impl; [exact HFt|]. intros x Hx ->. discriminate.
    - rewrite before_advance2 in Hwb by exact Hne2. rewrite Hct in Hwb.
      change (word_at (head (u "path=" ++ tl))) with true in Hwb.
      destruct (word_at (last (sep2 ++ text))); [discriminate|reflexivity]. }
  split; [exact Hwf|]. clear Hwf.
  unfold line_of, timestamp_of.
  cbn [p_year p_month p_day p_gap p_hour p_minute p_second p_sep1 p_level
       p_sep2 p_text p_tail].
  set (ts := year ++ u "-" ++ month ++ u "-" ++ day ++ gap ++ hour ++ u ":"
             ++ minute ++ u ":" ++ second).
  set (line := year ++ u "-" ++ month ++ u "-" ++ day ++ gap ++ hour ++ u ":"
               ++ minute ++ u ":" ++ second ++ sep1 ++ lvl ++ sep2 ++ text
               ++ u "path=" ++ tl) in *.
  assert (line = ts ++ sep1 ++ lvl ++ sep2 ++ text ++ u "path=" ++ tl) as Hline
    by (unfold line, ts; by rewrite <- !app_assoc).
  split; [exact Hline|].
  assert (group m G_ts = Some ts
          /\ group m G_level = Some lvl
          /\ m_start m = 0%nat
          /\ marker_end m = (length line - length tl)%nat
          /\ group m G_path
             = match take_while not_space tl with
               | [] => None
               | tok => Some tok
               end) as (Hts & Hlv & Hst & Hme & Hpa).
  { destruct (take_while not_space tl) as [|t tok] eqn:Et; injection H as <-;
      unfold group, marker_end; cbn [m_groups m_string m_start m_end get_group
        set_group ts_span level_span path_span no_groups].
    all: assert (length ts
                 = length year + 1 + length month + 1 + length day + length gap
                   + length hour + 1 + length minute + 1 + length second)%nat
           as Hlts by (unfold ts; rewrite !length_app; simpl; lia).
    all: assert (length line
                 = length ts + length sep1 + length lvl + length sep2
                   + length text + 5 + length tl)%nat
           as Hll by (rewrite Hline, !length_app; simpl; lia).
    all: split_and!; try reflexivity.
    all: try (rewrite Hll, Hlts; lia).
    all: try match goal with
         | |- Some (take ?n (drop 0 _)) = Some _ =>
             replace n with (length ts) by (rewrite Hlts; lia);
             rewrite drop_0; f_equal; exact (take_prefix _ _ _ Hline)
         end.
    all: try match goal with
         | |- Some (take ?n (drop ?k _)) = Some (?a :: ?l) => fail 1
         | |- Some (take ?n (drop ?k _)) = Some _ =>
             replace n with (length ((ts ++ sep1) ++ lvl) - length (ts ++ sep1))%nat
               by (rewrite !length_app, Hlts; lia);
             replace k with (length (ts ++ sep1))
               by (rewrite !length_app, Hlts; lia);
             f_equal;
             apply (take_drop_between _ _ _ (sep2 ++ text ++ u "path=" ++ tl));
             rewrite Hline, <- !app_assoc; reflexivity
         end.
    match goal with
    | |- Some (take ?n (drop ?k _)) = _ =>
        replace n with (length (t :: tok)) by (simpl; lia);
        replace k
          with (length (ts ++ sep1 ++ lvl ++ sep2 ++ text ++ u "path="))
          by (rewrite !length_app, Hlts; simpl; lia)
    end.
    replace line with ((ts ++ sep1 ++ lvl ++ sep2 ++ text ++ u "path=") ++ tl)
      by (rewrite Hline, <- !app_assoc; reflexivity).
    rewrite drop_app_length, <- Et. f_equal. apply take_while_prefix. }
  split_and!; try assumption.
  intros r1 r2 Ht Hne [Hw Hsw]. subst text.
  apply starts_with_spec in Hsw as [s'' Hs''].
  specialize (Hfirst r1 r2 eq_refl Hne).
  rewrite <- app_assoc in Hc. apply rest_advance in Hc.
  match type of Hfirst with
  | exec ?r ?c' ?gs ?k = None =>
      assert (is_Some (exec r c' gs k)) as HS
  end.
  { apply (accepts_seq _ _ _ _ _
             (accepts_word_boundary _ ltac:(
                rewrite before_advance2 by exact Hne2; rewrite Hc, Hs'', Hw;
                reflexivity))
             (accepts_seq _ _ _ _ _
                (accepts_lit _ _ s'' ltac:(by rewrite Hc))
                (accepts_opt_skip _ _))).
    intros; eauto. }
  rewrite Hfirst in HS. by apply is_Some_None in HS.
Qed.

Lemma search_from_first r line b i s :
  is_Some (exec r (Cursor b i s) no_groups
             (fun c gs => Some (Match line i (pos c) gs))) ->
  is_Some (search_from r line b i s).
Proof.
  intros [m Hm]. destruct s; simpl; rewrite Hm; simpl; eauto.
Qed.

Ltac feed_repeat Hc run :=
  eapply accepts_seq;
  [ eapply (accepts_repeat _ _ _ _ _ run);
    [exact Hc|first [assumption|lia|discriminate]..]
  | apply rest_advance in Hc ].

Ltac feed_lit Hc :=
  eapply accepts_seq;
  [ eapply accepts_lit; exact Hc
  | apply rest_advance in Hc ].

Lemma digits_bounds n (s : str) :
  digits n s ->
  Forall (fun x => in_charset Digit x = true) s
  /\ (n <= length s)%nat
  /\ forall h, Some n = Some h -> (length s <= h)%nat.
Proof. intros [Hl HF]. split_and!; [exact HF|lia|]. intros h [= <-]. lia. Qed.

Lemma spaces_bounds (s : str) :
  spaces s ->
  Forall (fun x => in_charset Space x = true) s
  /\ (1 <= length s)%nat
  /\ forall h, @None nat = Some h -> (length s <= h)%nat.
Proof.
  intros [Hne HF]. split_and!; [exact HF| |discriminate].
  destruct s; [contradiction|simpl; lia].
Qed.

(** A line of the shape that [LOG_RE] asks for matches. *)
Lemma LOG_RE_accepts_well_formed x :
  well_formed x -> is_Some (LOG_RE_search (line_of x)).
Proof.
  intros (Hy & Hmo & Hd & Hg & Hh & Hmi & Hs & Hs1 & Hlvl & Hs2 & Ht & Hwb).
  apply digits_bounds in Hy as (HFy & Hloy & Hhiy).
  apply digits_bounds in Hmo as (HFmo & Hlomo & Hhimo).
  apply digits_bounds in Hd as (HFd & Hlod & Hhid).
  apply digits_bounds in Hh as (HFh & Hloh & Hhih).
  apply digits_bounds in Hmi as (HFmi & Hlomi & Hhimi).
  apply digits_bounds in Hs as (HFs & Hlos & Hhis).
  pose proof Hs2 as [Hne2 _].
  apply spaces_bounds in Hg as (HFg & Hlog & Hhig).
  apply spaces_bounds in Hs1 as (HFs1 & Hlos1 & Hhis1).
  apply spaces_bounds in Hs2 as (HFs2 & Hlos2 & Hhis2).
  assert (Forall (fun c => in_charset AnyChar c = true) (p_text x)) as HFt.
  { eapply Forall_impl; [exact Ht|]. intros c Hc. simpl.
    apply negb_true_iff. by apply N.eqb_neq. }
  unfold LOG_RE_search, re_search. apply search_from_first.
  remember (Cursor None 0 (line_of x)) as c0 eqn:Hc0.
  assert (pos c0 = 0%nat) as Hp0 by (by rewrite Hc0).
  assert (rest c0
          = p_year x ++ u "-" ++ p_month x ++ u "-" ++ p_day x ++ p_gap x
            ++ p_hour x ++ u ":" ++ p_minute x ++ u ":" ++ p_second x
            ++ p_sep1 x ++ p_level x ++ p_sep2 x ++ p_text x ++ u "path="
            ++ p_tail x) as Hc.
  { rewrite Hc0. unfold line_of, timestamp_of. cbn [rest].
    by rewrite <- !app_assoc. }
  clear Hc0.
  assert (exists c', accepts LOG_RE c0 c') as [c' Hacc]; [|by eapply Hacc; eauto].
  apply elem_of_cons in Hlvl as [Hl|Hlvl];
    [|apply elem_of_cons in Hlvl as [Hl|Hlvl];
      [|apply list_elem_of_singleton in Hlvl as Hl]];
    rewrite Hl in Hc; clear Hl;
    eexists; unfold LOG_RE, exact, plus, lazy_star.
  all: eapply accepts_seq; [by apply accepts_bol|].
  all: eapply accepts_seq;
    [ apply accepts_group;
      feed_repeat Hc (p_year x); feed_lit Hc;
      feed_repeat Hc (p_month x); feed_lit Hc;
      feed_repeat Hc (p_day x); feed_repeat Hc (p_gap x);
      feed_repeat Hc (p_hour x); feed_lit Hc;
      feed_repeat Hc (p_minute x); feed_lit Hc;
      eapply (accepts_repeat _ _ _ _ _ (p_second x)); [exact Hc|assumption..]
    | do 11 (apply rest_advance in Hc) ].
  all: feed_repeat Hc (p_sep1 x).
  all: eapply accepts_seq;
    [ apply accepts_group;
      first [ apply accepts_alt_l; eapply accepts_lit; exact Hc
            | apply accepts_alt_r, accepts_alt_l; eapply accepts_lit; exact Hc
            | apply accepts_alt_r, accepts_alt_r; eapply accepts_lit; exact Hc ]
    | apply rest_advance in Hc ].
  all: feed_repeat Hc (p_sep2 x).
  all: feed_repeat Hc (p_text x).
  all: eapply accepts_seq;
    [ apply accepts_word_boundary;
      rewrite before_advance2 by exact Hne2; rewrite Hc, Hwb; reflexivity |].
  all: feed_lit Hc.
  all: apply accepts_opt_skip.
Qed.

Lemma line_of_not_empty x : well_formed x -> truthy (line_of x) = true.
Proof.
  intros ([Hl _] & _). unfold line_of, timestamp_of.
  destruct (p_year x); [discriminate|reflexivity].
Qed.

(** ** Which lines are parsed, and what is counted for them *)

(** A line is counted as parsed exactly when, stripped, it has the shape of
    [LOG_RE]: a date of 4, 2 and 2 digits with [-] between, white space, a
    time of three times 2 digits with [:] between, white space, one of
    INFO, WARNING and ERROR, white space, text, and a [path=] that does not
    follow a word character. *)
Theorem line_is_parsed_iff_well_formed raw :
  is_parsed raw = true <-> exists x, well_formed x /\ strip raw = line_of x.
Proof.
  unfold is_parsed, parsed_level, is_blank. split.
  - destruct (negb (truthy (strip raw))); [discriminate|].
    destruct (LOG_RE_search (strip raw)) as [m|] eqn:Hm; [|discriminate].
    intros _. apply LOG_RE_match_parts in Hm as (x & Hwf & Hline & _).
    by exists x.
  - intros (x & Hwf & Hline). rewrite Hline, (line_of_not_empty x Hwf). simpl.
    by destruct (LOG_RE_accepts_well_formed x Hwf) as [m ->].
Qed.

(** For a parsed line there is a way to take it apart such that the level
    counted is its level part, and the path counted, for an ERROR line, is
    the longest run of characters that are not white space right behind
    [path=], if there is such a character; no [path=] at a word boundary
    stands earlier in the text. *)
Theorem counted_level_and_path raw k :
  parsed_level raw = Some k ->
  exists x,
    well_formed x /\ strip raw = line_of x
    /\ k = Some (p_level x)
    /\ error_path_of raw
       = (if decide (p_level x = u "ERROR")
          then match take_while not_space (p_tail x) with
               | [] => None
               | tok => Some tok
               end
          else None)
    /\ (forall r1 r2, p_text x = r1 ++ r2 -> r2 <> [] ->
          ~ (word_at (last (p_sep2 x ++ r1)) = false
             /\ starts_with (u "path=") (r2 ++ u "path=" ++ p_tail x) = true)).
Proof.
  unfold parsed_level, error_path_of.
  destruct (is_blank raw); [discriminate|].
  destruct (LOG_RE_search (strip raw)) as [m|] eqn:Hm; [|discriminate].
  intros [= <-].
  apply LOG_RE_match_parts
    in Hm as (x & Hwf & Hline & _ & _ & Hlv & _ & Hpa & Hfirst).
  exists x. split_and!; try assumption. rewrite Hpa, Hlv.
  destruct (decide (p_level x = u "ERROR")) as [He|Hne].
  - rewrite He, bool_decide_eq_true_2 by reflexivity.
    by destruct (take_while not_space (p_tail x)).
  - rewrite bool_decide_eq_false_2 by congruence.
    by destruct (take_while not_space (p_tail x)).
Qed.

(** [parsed_lines] is the number of lines that are not blank and match
    [LOG_RE], [invalid_lines] the number of lines that are not blank and do
    not match. *)
Theorem parsed_and_invalid_lines_count w p n r lines :
  analyze_log w p n = inr r ->
  file_lines w p = Some lines ->
  Report.parsed_lines r = parsed_count lines
  /\ Report.invalid_lines r = invalid_count lines.
Proof.
  intros Hr Hl. apply analyze_log_inr in Hr as (lines' & Hl' & ->).
  rewrite Hl in Hl'. injection Hl' as <-. simpl. apply scan_counters.
Qed.

(** ** Lines and white space *)

Lemma rev_is_reverse {A} (l : list A) : rev l = reverse l.
Proof. unfold reverse. by rewrite <- rev_alt. Qed.

Lemma lstrip_spec s :
  exists a,
    s = a ++ lstrip s
    /\ Forall (fun c => Py_UNICODE_ISSPACE c = true) a
    /\ forall c, head (lstrip s) = Some c -> Py_UNICODE_ISSPACE c = false.
Proof.
  induction s as [|c s (a & Hs & Ha & Hh)]; simpl.
  - exists []. by split_and!.
  - destruct (Py_UNICODE_ISSPACE c) eqn:Ec.
    + exists (c :: a). split_and!; [by rewrite Hs at 1|by constructor|done].
    + exists []. split_and!; [done|done|]. by intros ? [= <-].
Qed.

Lemma lstrip_fixed s :
  (forall c, head s = Some c -> Py_UNICODE_ISSPACE c = false) -> lstrip s = s.
Proof. destruct s as [|c s]; [done|]. intros H. simpl. by rewrite (H c). Qed.

Lemma lstrip_all_space s :
  Forall (fun c => Py_UNICODE_ISSPACE c = true) s -> lstrip s = [].
Proof. induction 1 as [|c s Hc _ IH]; [done|]. simpl. by rewrite Hc. Qed.

(** [line.strip()] takes the white space off both ends and nothing else: what
    is taken off is white space, and what is left neither begins nor ends
    with white space. *)
Theorem strip_takes_white_space_off_both_ends line :
  exists a b,
    line = a ++ strip line ++ b
    /\ Forall (fun c => Py_UNICODE_ISSPACE c = true) a
    /\ Forall (fun c => Py_UNICODE_ISSPACE c = true) b
    /\ (forall c, head (strip line) = Some c -> Py_UNICODE_ISSPACE c = false)
    /\ (forall c, last (strip line) = Some c -> Py_UNICODE_ISSPACE c = false).
Proof.
  unfold strip, rstrip.
  destruct (lstrip_spec line) as (a & Ha & Hsa & Hha).
  destruct (lstrip_spec (rev (lstrip line))) as (b & Hb & Hsb & Hhb).
  set (t := lstrip (rev (lstrip line))) in *.
  assert (lstrip line = rev t ++ rev b) as Ht
    by (rewrite <- rev_app_distr, <- Hb; by rewrite rev_involutive).
  exists a, (rev b). split_and!.
  - by rewrite <- Ht.
  - done.
  - by apply Forall_rev.
  - intros c Hc. apply Hha. rewrite Ht.
    destruct (rev t); [done|]. exact Hc.
  - intros c Hc. apply Hhb. by rewrite rev_is_reverse, last_reverse in Hc.
Qed.

(** A line is skipped as blank exactly when it consists of white space
    only. *)
Theorem blank_line_is_white_space_only line :
  is_blank line = true <-> Forall (fun c => Py_UNICODE_ISSPACE c = true) line.
Proof.
  unfold is_blank. split.
  - destruct (strip_takes_white_space_off_both_ends line)
      as (a & b & Hl & Ha & Hb & _).
    destruct (strip line); [|discriminate]. intros _. rewrite Hl.
    by apply Forall_app.
  - intros H. unfold strip, rstrip. by rewrite (lstrip_all_space line H).
Qed.

Lemma strip_strip line : strip (strip line) = strip line.
Proof.
  destruct (strip_takes_white_space_off_both_ends line)
    as (_ & _ & _ & _ & _ & Hh & Hl).
  unfold strip at 1. rewrite (lstrip_fixed _ Hh). unfold rstrip.
  rewrite lstrip_fixed, rev_involutive; [done|].
  intros c Hc. apply Hl. by rewrite rev_is_reverse, head_reverse in Hc.
Qed.

Lemma loop_body_strip st line : loop_body st (strip line) = loop_body st line.
Proof. unfold loop_body. by rewrite strip_strip. Qed.

(** White space around a line does not count: the loop ends in the same
    state on the lines as they are and on the lines stripped. *)
Theorem counts_ignore_surrounding_white_space lines :
  scan (map strip lines) = scan lines.
Proof.
  unfold scan. generalize initial.
  induction lines as [|l lines IH]; intros st; [done|].
  simpl. by rewrite loop_body_strip, IH.
Qed.

Lemma readlines_cons c s :
  readlines (c :: s)
  = if (c =? NL)%N then [c] :: readlines s
    else match readlines s with
         | [] => [[c]]
         | l :: ls => (c :: l) :: ls
         end.
Proof. reflexivity. Qed.

Lemma is_line_cons c l : c <> NL -> is_line l -> is_line (c :: l).
Proof.
  intros Hc (body & Hb & Hl). exists (c :: body). split.
  - rewrite not_elem_of_cons. by split.
  - destruct Hl as [->|[-> _]]; [by left|by right].
Qed.

Lemma readlines_spec s :
  concat (readlines s) = s
  /\ Forall is_line (readlines s)
  /\ forall ls l, readlines s = ls ++ [l] ->
       Forall (fun l' => last l' = Some NL) ls.
Proof.
  induction s as [|c s (IHc & IHl & IHe)]; [split_and!; try done|].
  { intros ls l H. by destruct ls. }
  rewrite readlines_cons. destruct (N.eqb_spec c NL) as [->|Hc].
  - split_and!.
    + simpl. by rewrite IHc.
    + constructor; [|done]. exists []. split; [apply not_elem_of_nil|by left].
    + intros [|l' ls] l H; [constructor|]. injection H as <- H.
      constructor; [done|]. by eapply IHe.
  - destruct (readlines s) as [|l0 ls0] eqn:Er.
    + simpl in IHc. subst s. split_and!; [done| |].
      * constructor; [|done]. exists [c]. split; [|by right].
        rewrite not_elem_of_cons. split; [done|apply not_elem_of_nil].
      * intros ls l H. destruct ls as [|? [|??]]; [apply Forall_nil_2|done..].
    + split_and!.
      * simpl in *. by rewrite IHc.
      * inversion IHl; subst. constructor; [by apply is_line_cons|done].
      * intros [|l' ls] l H; [constructor|]. injection H as <- ->.
        specialize (IHe (l0 :: ls) l eq_refl). inversion IHe; subst.
        constructor; [|done]. by destruct l0.
Qed.

Lemma readlines_length s :
  length (readlines s)
  = (line_breaks s + if open_ended s then 1 else 0)%nat.
Proof.
  unfold line_breaks, open_ended.
  induction s as [|c s IH]; [done|].
  rewrite readlines_cons, filter_cons.
  destruct (N.eqb_spec c NL) as [->|Hc].
  - rewrite decide_True by done. simpl length. rewrite IH.
    destruct s as [|d s]; [done|]. by rewrite last_cons_cons.
  - rewrite decide_False by done.
    destruct s as [|d s].
    + simpl. by rewrite (proj2 (N.eqb_neq c NL) Hc).
    + rewrite last_cons_cons. rewrite <- IH.
      assert (readlines (d :: s) <> []) as Hne.
      { rewrite readlines_cons. destruct (d =? NL)%N; [done|].
        by destruct (readlines s). }
      by destruct (readlines (d :: s)).
Qed.

(** The lines the loop sees are the text cut behind every line break: put
    together they give the text back, none is empty, and a line break stands
    only at the end of a line and at the end of every line but the last. *)
Theorem lines_partition_the_text w p text lines :
  file_lines w p = Some lines ->
  (exists bs, files w !! p = Some bs
              /\ decode Replace bs = inr text) ->
  concat lines = translate_newlines text
  /\ Forall is_line lines
  /\ forall ls l, lines = ls ++ [l] -> Forall (fun l' => last l' = Some NL) ls.
Proof.
  unfold file_lines, open_lines. intros Hl (bs & Hf & Hd).
  rewrite Hf, Hd in Hl. injection Hl as <-. apply readlines_spec.
Qed.

(** [total_lines] is the number of line breaks of the text, and one more
    when the text does not end with a line break. *)
Theorem total_lines_counts_line_breaks w p n r bs text :
  files w !! p = Some bs ->
  decode Replace bs = inr text ->
  analyze_log w p n = inr r ->
  Report.total_lines r
  = Z.of_nat (line_breaks (translate_newlines text))
    + (if open_ended (translate_newlines text) then 1 else 0).
Proof.
  intros Hf Hd. rewrite (analyze_log_existing w p n bs Hf).
  unfold open_lines. rewrite Hd. intros [= <-]. simpl.
  destruct (scan_totals (readlines (translate_newlines text))) as [_ ->].
  rewrite readlines_length. destruct (open_ended _); lia.
Qed.

(** ** What the decoder gives and the encoder takes *)

Lemma emit_inr c r s :
  emit c r = inr s -> exists s', r = inr s' /\ s = c :: s'.
Proof. destruct r as [e|s']; [discriminate|]. intros [= <-]. by exists s'. Qed.

Lemma ill_formed_inr errors reason r s :
  ill_formed errors reason r = inr s ->
  exists s', r = inr s' /\ s = REPLACEMENT :: s'.
Proof.
  destruct errors; [discriminate|]. destruct r as [e|s']; [discriminate|].
  intros [= <-]. by exists s'.
Qed.

Lemma if_bool_false (c a b : bool) :
  (if c then a else b) = false ->
  (c = true /\ a = false) \/ (c = false /\ b = false).
Proof. destruct c; auto. Qed.

(** Turn what is known about comparisons into arithmetic. *)
Ltac bool_hyps :=
  repeat match goal with
         | E : _ || _ = false |- _ => apply orb_false_iff in E as [? ?]
         | E : _ && _ = true |- _ => apply andb_true_iff in E as [? ?]
         | E : negb _ = false |- _ => apply negb_false_iff in E
         | E : negb _ = true |- _ => apply negb_true_iff in E
         | E : (if _ then _ else _) = false |- _ =>
             apply if_bool_false in E as [[? ?]|[? ?]]
         | E : (_ <? _)%N = true |- _ => apply N.ltb_lt in E
         | E : (_ <? _)%N = false |- _ => apply N.ltb_ge in E
         | E : (_ <=? _)%N = true |- _ => apply N.leb_le in E
         | E : (_ <=? _)%N = false |- _ => apply N.leb_gt in E
         | E : (_ =? _)%N = true |- _ => apply N.eqb_eq in E
         | E : (_ =? _)%N = false |- _ => apply N.eqb_neq in E
         end.

Ltac decide_comparisons :=
  repeat match goal with
         | |- context [(?a <? ?b)%N] => destruct (N.ltb_spec a b); simpl
         | |- context [(?a <=? ?b)%N] => destruct (N.leb_spec a b); simpl
         | |- context [(?a =? ?b)%N] => destruct (N.eqb_spec a b); simpl
         end.

Ltac decoder_step Hn :=
  match goal with
  | |- (if ?b then _ else _) = _ -> _ =>
      let E := fresh "E" in destruct b eqn:E
  | |- match ?l with [] => _ | _ :: _ => _ end = _ -> _ =>
      destruct l; simpl in Hn
  end.

Lemma replacement_scalar : is_scalar REPLACEMENT = true.
Proof. reflexivity. Qed.

Lemma utf8_decode_scalars errors bs :
  forall s, utf8_decode errors bs = inr s -> scalars s.
Proof.
  remember (length bs) as n eqn:Hn. revert bs Hn.
  induction n as [n IH] using lt_wf_ind. intros bs Hn.
  assert (forall r s, (length r < n)%nat -> utf8_decode errors r = inr s ->
            scalars s) as Hrec by (intros r s Hr; by apply (IH (length r))).
  clear IH. intros s.
  destruct bs as [|ch r0]; [intros [= <-]; constructor|].
  simpl in Hn. simpl utf8_decode.
  repeat decoder_step Hn; intros H.
  all: first
    [ apply ill_formed_inr in H as (s' & H & ->);
      (constructor;
       [ exact replacement_scalar
       | first [ injection H as <-; constructor
               | eapply Hrec; [|exact H]; simpl; lia ] ])
    | apply emit_inr in H as (s' & H & ->);
      (constructor; [| eapply Hrec; [|exact H]; simpl; lia ]) ].
  all: unfold is_continuation in *; bool_hyps; unfold is_scalar;
    decide_comparisons; first [reflexivity|lia].
Qed.

Lemma translate_newlines_elem s :
  forall c, c ∈ translate_newlines s -> c = NL \/ c ∈ s.
Proof.
  remember (length s) as n eqn:Hn. revert s Hn.
  induction n as [n IH] using lt_wf_ind. intros s Hn c.
  destruct s as [|x s]; [by right|]. simpl.
  destruct (x =? CR)%N.
  - intros [->|Hc]%elem_of_cons; [by left|].
    destruct s as [|d s]; [by apply elem_of_nil in Hc|].
    destruct (d =? NL)%N.
    + apply (IH (length s)) in Hc as [?|?]; [by left| |simpl in Hn; simpl; lia|done].
      right. by do 2 apply list_elem_of_further.
    + apply (IH (length (d :: s))) in Hc as [?|?]; [by left| |simpl in *; lia|done].
      right. by apply list_elem_of_further.
  - intros [->|Hc]%elem_of_cons; [right; apply list_elem_of_here|].
    apply (IH (length s)) in Hc as [?|?]; [by left| |simpl in Hn; lia|done].
    right. by apply list_elem_of_further.
Qed.

Lemma elem_of_concat {A} (x : A) (ls : list (list A)) :
  x ∈ concat ls <-> exists l, l ∈ ls /\ x ∈ l.
Proof.
  induction ls as [|l0 ls IH]; simpl.
  - split; [by intros ?%elem_of_nil|by intros (? & ?%elem_of_nil & _)].
  - rewrite elem_of_app, IH. split.
    + intros [?|(l & ? & ?)]; [exists l0|exists l]; split; try done.
      * apply list_elem_of_here.
      * by apply list_elem_of_further.
    + intros (l & [->|?]%elem_of_cons & ?); [by left|right; by exists l].
Qed.

Lemma file_lines_scalars w p lines :
  file_lines w p = Some lines -> Forall scalars lines.
Proof.
  unfold file_lines, open_lines, decode. intros H.
  destruct (files w !! p) as [bs|]; [|discriminate].
  destruct (utf8_decode Replace (map Byte.to_N bs)) as [e|text] eqn:Hd;
    [discriminate|].
  injection H as <-. apply utf8_decode_scalars in Hd.
  destruct (readlines_spec (translate_newlines text)) as (Hc & _ & _).
  apply Forall_forall. intros l Hl. apply Forall_forall. intros c Hin.
  assert (c ∈ translate_newlines text) as Hct.
  { rewrite <- Hc. apply elem_of_concat. by exists l. }
  apply translate_newlines_elem in Hct as [->|Hct]; [reflexivity|].
  unfold scalars in Hd. rewrite Forall_forall in Hd. by apply Hd.
Qed.

Lemma take_while_subseteq P (s : str) : take_while P s ⊆ s.
Proof.
  induction s as [|x s IH]; simpl; [done|].
  destruct (P x); [|apply list_subseteq_nil]. intros c [->|Hc]%elem_of_cons.
  - apply list_elem_of_here.
  - apply list_elem_of_further. by apply IH.
Qed.

(** A path that is counted is a piece of its line. *)
Lemma error_path_chars line p : error_path_of line = Some p -> p ⊆ line.
Proof.
  unfold error_path_of. destruct (is_blank line); [discriminate|].
  destruct (LOG_RE_search (strip line)) as [m|] eqn:Hm; [|discriminate].
  apply LOG_RE_match_parts in Hm as (x & _ & Hline & _ & _ & _ & _ & Hpa & _).
  rewrite Hpa.
  destruct (take_while not_space (p_tail x)) as [|c0 tok] eqn:Htok; [discriminate|].
  destruct (_ && _); [|discriminate]. intros [= <-].
  destruct (strip_takes_white_space_off_both_ends line) as (a & b & Hl & _).
  intros c Hc. rewrite <- Htok in Hc. apply take_while_subseteq in Hc.
  rewrite Hl, Hline. unfold line_of.
  rewrite !elem_of_app. right. left. do 5 right. by right.
Qed.

Lemma report_scalars w p n r :
  analyze_log w p n = inr r ->
  Forall (fun pc => scalars pc.1) (Report.top_error_paths r).
Proof.
  intros Hr. apply analyze_log_inr in Hr as (lines & Hl & ->). simpl.
  apply file_lines_scalars in Hl.
  apply Forall_forall. intros [q c] Hin. simpl.
  apply most_common_subset in Hin.
  assert (q ∈ (error_paths (scan lines)).*1) as Hq
    by (apply list_elem_of_fmap; by exists (q, c)).
  rewrite scan_error_keys in Hq. apply (proj1 (first_seen_elem _ _)) in Hq.
  apply list_elem_of_omap in Hq as (l & Hlin & Hp).
  apply error_path_chars in Hp.
  rewrite Forall_forall in Hl. specialize (Hl l Hlin).
  unfold scalars in *. rewrite Forall_forall in *. auto.
Qed.

Lemma encode_scalars s : scalars s -> exists bs, encode s = inr bs.
Proof.
  unfold encode. intros H.
  assert (exists ns, utf8_encode s = inr ns) as [ns ->]; [|by eexists].
  induction H as [|c s Hc _ [ns IH]]; [by exists []|]. simpl. rewrite IH.
  unfold utf8_encode_char.
  destruct ((0xD800 <=? c) && (c <=? 0xDFFF))%N eqn:E.
  - exfalso. revert Hc E. unfold is_scalar.
    decide_comparisons; intros; first [discriminate|lia].
  - repeat match goal with
           | |- context [if ?b then _ else _] => destruct b
           end; by eexists.
Qed.

Lemma ord_bound a : (ord a < 256)%N.
Proof. apply N_ascii_bounded. Qed.

Lemma u_scalars s : scalars (u s).
Proof.
  unfold scalars, u. apply Forall_forall. intros c Hc.
  apply list_elem_of_fmap in Hc as (a & -> & _).
  pose proof (ord_bound a). unfold is_scalar.
  destruct (N.ltb_spec (ord a) 0xD800); [reflexivity|lia].
Qed.

Lemma join_scalars sep parts :
  scalars sep -> Forall scalars parts -> scalars (join sep parts).
Proof.
  intros Hs. induction 1 as [|x parts Hx Hp IH]; [constructor|].
  destruct parts as [|y parts]; [exact Hx|].
  change (scalars (x ++ sep ++ join sep (y :: parts))).
  unfold scalars in *. by rewrite !Forall_app.
Qed.

Lemma concat_scalars parts : Forall scalars parts -> scalars (concat parts).
Proof.
  induction 1 as [|x parts Hx Hp IH]; [constructor|]. simpl.
  unfold scalars in *. by rewrite Forall_app.
Qed.

Lemma scalars_app a b : scalars a -> scalars b -> scalars (a ++ b).
Proof. unfold scalars. rewrite Forall_app. by split. Qed.

Lemma scalars_nil : scalars [].
Proof. constructor. Qed.

Lemma scalars_newline : scalars [NL].
Proof. by repeat constructor. Qed.

Lemma scalars_quote : scalars [QUOTE].
Proof. by repeat constructor. Qed.

Ltac scalars_tac :=
  repeat first
    [ assumption
    | apply u_scalars
    | apply scalars_nil
    | apply scalars_quote
    | apply scalars_newline
    | apply scalars_app ].

Ltac scalars_parts :=
  repeat (apply Forall_cons; split; [scalars_tac|]); apply Forall_nil_2.

Lemma html_content_scalars r :
  scalars (Report.file r) ->
  Forall (fun pc => scalars pc.1) (Report.top_error_paths r) ->
  scalars (html_content r).
Proof.
  intros Hf Hp. unfold html_content, html_head, html_tail, str_of_int.
  apply scalars_app; [|apply scalars_app].
  - apply join_scalars; [apply scalars_newline|]. scalars_parts.
  - apply concat_scalars, Forall_fmap. eapply Forall_impl; [exact Hp|].
    intros [q c] Hq. unfold html_row, str_of_int. cbn [fst snd] in *. scalars_tac.
  - apply join_scalars; [apply scalars_newline|]. scalars_parts.
Qed.

(** ** The JSON report *)

Lemma plain_app a b : plain a -> plain b -> plain (a ++ b).
Proof. unfold plain. rewrite Forall_app. by split. Qed.

Lemma plain_join sep parts :
  plain sep -> Forall plain parts -> plain (join sep parts).
Proof.
  intros Hs. induction 1 as [|x parts Hx Hp IH]; [constructor|].
  destruct parts as [|y parts]; [exact Hx|].
  change (plain (x ++ sep ++ join sep (y :: parts))).
  by repeat apply plain_app.
Qed.

Lemma plain_concat parts : Forall plain parts -> plain (concat parts).
Proof.
  induction 1 as [|x parts Hx Hp IH]; [constructor|]. simpl.
  by apply plain_app.
Qed.

Lemma u_String a s : u (String a s) = ord a :: u s.
Proof. reflexivity. Qed.

Lemma plain_digits d : plain (u (NilEmpty.string_of_uint d)).
Proof.
  induction d; cbn [NilEmpty.string_of_uint]; [constructor|..];
    rewrite u_String; (constructor; [reflexivity|assumption]).
Qed.

Lemma plain_string_of_uint d : plain (u (NilZero.string_of_uint d)).
Proof.
  destruct d; try apply plain_digits. by repeat constructor.
Qed.

Lemma plain_str_of_int n : plain (str_of_int n).
Proof.
  unfold str_of_int, NilZero.string_of_int.
  destruct (Z.to_int n) as [d|d]; [apply plain_string_of_uint|].
  rewrite u_String. constructor; [reflexivity|apply plain_string_of_uint].
Qed.

Lemma plain_newline_indent level : plain (newline_indent level).
Proof.
  unfold newline_indent. constructor; [reflexivity|].
  apply Forall_forall. intros c Hc%list_elem_of_In%repeat_spec. by subst.
Qed.

Lemma hex_digit_plain n : (n < 16)%N -> is_plain (hex_digit n) = true.
Proof.
  intros Hn. unfold hex_digit, is_plain, NL.
  decide_comparisons; first [reflexivity|lia].
Qed.

Lemma plain_u_escape c : plain (u_escape c).
Proof.
  unfold u_escape.
  repeat (constructor;
          [first [reflexivity|apply hex_digit_plain, N.mod_upper_bound; lia]|]).
  constructor.
Qed.

Lemma plain_json_escape_char c : plain (json_escape_char c).
Proof.
  unfold json_escape_char.
  repeat match goal with
         | |- context [if ?b then _ else _] =>
             let E := fresh "E" in destruct b eqn:E
         end;
    try (by repeat constructor);
    try apply plain_u_escape;
    try (apply plain_app; apply plain_u_escape).
  constructor; [|constructor]. unfold is_plain. rewrite E6. apply orb_true_r.
Qed.

Lemma plain_json_string s : plain (json_string s).
Proof.
  unfold json_string. apply plain_app; [by repeat constructor|].
  apply plain_app; [|by repeat constructor].
  apply plain_concat, Forall_fmap, Forall_forall. intros c _.
  apply plain_json_escape_char.
Qed.

Lemma json_nested_ind (P : json -> Prop) :
  (forall s, P (JStr s)) ->
  (forall n, P (JInt n)) ->
  (forall l, Forall P l -> P (JList l)) ->
  (forall l, Forall (fun kv => P kv.2) l -> P (JDict l)) ->
  forall j, P j.
Proof.
  intros HStr HInt HList HDict. fix IH 1. intros [s|n|l|l].
  - apply HStr.
  - apply HInt.
  - apply HList. induction l as [|x l IHl]; constructor; [apply IH|exact IHl].
  - apply HDict. induction l as [|[k v] l IHl]; constructor; [apply IH|exact IHl].
Qed.

Lemma plain_json_dumps j : forall level, plain (json_dumps level j).
Proof.
  induction j as [s|n|l IH|l IH] using json_nested_ind; intros level.
  - apply plain_json_string.
  - apply plain_str_of_int.
  - destruct l as [|x l]; [by repeat constructor|].
    change (plain (u "[" ++ newline_indent (S level)
                   ++ join (u "," ++ newline_indent (S level))
                        (map (json_dumps (S level)) (x :: l))
                   ++ newline_indent level ++ u "]")).
    repeat apply plain_app; try apply plain_newline_indent;
      try (by repeat constructor).
    apply plain_join.
    + apply plain_app; [by repeat constructor|apply plain_newline_indent].
    + apply Forall_fmap. eapply Forall_impl; [exact IH|]. intros j Hj. apply Hj.
  - destruct l as [|x l]; [by repeat constructor|].
    change (plain (u "{" ++ newline_indent (S level)
                   ++ join (u "," ++ newline_indent (S level))
                        (map (fun kv => json_string kv.1 ++ u ": "
                                        ++ json_dumps (S level) kv.2) (x :: l))
                   ++ newline_indent level ++ u "}")).
    repeat apply plain_app; try apply plain_newline_indent;
      try (by repeat constructor).
    apply plain_join.
    + apply plain_app; [by repeat constructor|apply plain_newline_indent].
    + apply Forall_fmap. eapply Forall_impl; [exact IH|]. intros kv Hkv.
      cbn beta. apply plain_app; [apply plain_json_string|].
      apply plain_app; [by repeat constructor|apply Hkv].
Qed.

Lemma utf8_encode_plain s : plain s -> utf8_encode s = inr s.
Proof.
  induction 1 as [|c s Hc _ IH]; [reflexivity|]. simpl. rewrite IH.
  unfold utf8_encode_char.
  assert (c < 0x80)%N as Hlt.
  { revert Hc. unfold is_plain, NL. decide_comparisons; intros;
      first [discriminate|lia]. }
  by rewrite (proj2 (N.ltb_lt _ _) Hlt).
Qed.

(** The text of the JSON report consists of printable ASCII characters and
    line breaks, whatever the strings of the report hold. *)
Theorem json_report_is_plain_ascii r : plain (json_dumps 0 (json_of_report r)).
Proof. apply plain_json_dumps. Qed.

(** [save_report] fails only on the file system, never on the text: it
    raises when [output] is a regular file or [output/report.json] is a
    directory, and then leaves the files as they were; otherwise it returns
    the path, and the file holds the JSON text, one byte per character. *)
Theorem save_report_fails_only_on_the_file_system r w :
  let out := u "output/report.json" in
  match save_report r w with
  | (inr p, w') =>
      p = out
      /\ files w'
         = <[out := map byte_of_N (json_dumps 0 (json_of_report r))]> (files w)
  | (inl e, w') =>
      files w' = files w
      /\ ((e = FileExistsError (u "output")
           /\ isfile w (u "output") = true /\ u "output" ∉ dirs w)
          \/ (e = IsADirectoryError out /\ out ∈ dirs w))
  end.
Proof.
  intros out. unfold save_report, ensure_output_dir, makedirs_exist_ok.
  unfold mbind, M_bind, mret, M_ret, write_text, encode.
  rewrite (utf8_encode_plain _ (plain_json_dumps (json_of_report r) 0)).
  destruct (bool_decide (u "output" ∈ dirs w)) eqn:Ed.
  - destruct (bool_decide (u "output/report.json" ∈ dirs w)) eqn:Ej.
    + split; [done|right]. apply bool_decide_eq_true in Ej. by split.
    + by split.
  - apply bool_decide_eq_false in Ed.
    destruct (isfile w (u "output")) eqn:Ef; [split; [done|left; by split_and!]|].
    cbn [dirs set_dirs].
    destruct (bool_decide (u "output/report.json" ∈ {[u "output"]} ∪ dirs w)) eqn:Ej.
    + split; [done|right]. apply bool_decide_eq_true in Ej.
      apply elem_of_union in Ej as [Ej|Ej]; [|by split].
      apply elem_of_singleton in Ej. discriminate.
    + by split.
Qed.

(** ** The run of [main] *)

Lemma bind_inr {A B} (m : M A) (f : A -> M B) w a w' :
  m w = (inr a, w') -> (m ≫= f) w = f a w'.
Proof. unfold mbind, M_bind. by intros ->. Qed.

Lemma bind_inl {A B} (m : M A) (f : A -> M B) w e w' :
  m w = (inl e, w') -> (m ≫= f) w = (inl e, w').
Proof. unfold mbind, M_bind. by intros ->. Qed.

Lemma printed_app a b : printed (a ++ b) = printed a ++ printed b.
Proof. unfold printed. by rewrite map_app, concat_app. Qed.

Lemma print_all_spec ls w :
  print_all ls w
  = (inr tt,
     World (files w) (dirs w) (utcnow_isoformat w) (stdout w ++ printed ls)
       (browser w)).
Proof.
  revert w. induction ls as [|l ls IH]; intros w.
  - unfold printed. simpl. rewrite app_nil_r. by destruct w.
  - cbn [print_all]. erewrite bind_inr by reflexivity. rewrite IH.
    cbn [files dirs utcnow_isoformat stdout browser].
    change (printed (l :: ls)) with ((l ++ [NL]) ++ printed ls).
    by rewrite <- !app_assoc.
Qed.

Lemma makedirs_exist_ok_spec p w :
  p ∈ dirs w \/ files w !! p = None ->
  makedirs_exist_ok p w = (inr tt, set_dirs ({[p]} ∪ dirs w) w).
Proof.
  unfold makedirs_exist_ok, isfile. intros [Hd|Hf].
  - rewrite bool_decide_eq_true_2 by done. f_equal.
    replace ({[p]} ∪ dirs w) with (dirs w).
    + by destruct w.
    + symmetry. apply subseteq_union_1_L. by apply singleton_subseteq_l.
  - destruct (bool_decide (p ∈ dirs w)) eqn:Ed.
    + apply bool_decide_eq_true in Ed. f_equal.
      replace ({[p]} ∪ dirs w) with (dirs w).
      * by destruct w.
      * symmetry. apply subseteq_union_1_L. by apply singleton_subseteq_l.
    + rewrite Hf. rewrite bool_decide_eq_false_2; [done|]. by intros [? ?].
Qed.

Lemma makedirs_exist_ok_blocked p w :
  p ∉ dirs w -> is_Some (files w !! p) ->
  makedirs_exist_ok p w = (inl (FileExistsError p), w).
Proof.
  unfold makedirs_exist_ok, isfile. intros Hd Hf.
  rewrite bool_decide_eq_false_2 by done. by rewrite bool_decide_eq_true_2.
Qed.

Lemma write_text_spec p text bs w :
  p ∉ dirs w -> encode text = inr bs ->
  write_text p text w = (inr tt, set_files (<[p := bs]> (files w)) w).
Proof.
  unfold write_text. intros Hd ->. by rewrite bool_decide_eq_false_2.
Qed.

Lemma write_text_blocked p text w :
  p ∈ dirs w -> write_text p text w = (inl (IsADirectoryError p), w).
Proof. unfold write_text. intros Hd. by rewrite bool_decide_eq_true_2. Qed.

Lemma encode_json r : encode (json_dumps 0 (json_of_report r)) = inr (json_bytes r).
Proof.
  unfold encode. by rewrite (utf8_encode_plain _ (plain_json_dumps (json_of_report r) 0)).
Qed.

Lemma not_output_dir p w :
  p <> u "output" -> p ∉ dirs w -> p ∉ {[u "output"]} ∪ dirs w.
Proof. intros Hp Hd [?%elem_of_singleton|?]%elem_of_union; done. Qed.

Lemma save_report_spec r w :
  u "output" ∈ dirs w \/ files w !! u "output" = None ->
  JSON_PATH ∉ dirs w ->
  save_report r w
  = (inr JSON_PATH,
     World (<[JSON_PATH := json_bytes r]> (files w)) ({[u "output"]} ∪ dirs w)
       (utcnow_isoformat w) (stdout w) (browser w)).
Proof.
  intros Ho Hj. unfold save_report, ensure_output_dir.
  erewrite bind_inr by (by apply makedirs_exist_ok_spec).
  erewrite bind_inr.
  2:{ apply write_text_spec; [|apply encode_json].
      cbn [dirs set_dirs]. by apply not_output_dir. }
  reflexivity.
Qed.

Lemma save_html_report_spec r w html :
  u "output" ∈ dirs w \/ files w !! u "output" = None ->
  HTML_PATH ∉ dirs w ->
  encode (html_content r) = inr html ->
  save_html_report r w
  = (inr HTML_PATH,
     World (<[HTML_PATH := html]> (files w)) ({[u "output"]} ∪ dirs w)
       (utcnow_isoformat w) (stdout w) (browser w ++ [HTML_PATH])).
Proof.
  intros Ho Hh He. unfold save_html_report, ensure_output_dir.
  erewrite bind_inr by (by apply makedirs_exist_ok_spec).
  erewrite bind_inr.
  2:{ apply write_text_spec; [|exact He].
      cbn [dirs set_dirs]. by apply not_output_dir. }
  erewrite bind_inr by reflexivity.
  reflexivity.
Qed.

Lemma main_after_summary args w r :
  analyze_log w (arg_file args) (arg_top args) = inr r ->
  main args w
  = (out_path ← save_report r;
     _ ← print (NL :: u "Saved JSON report to: " ++ out_path ++ [NL]);
     out_path ← save_html_report r;
     print (NL :: u "Saved HTML report to: " ++ out_path ++ [NL]))
      (World (files w) (dirs w) (utcnow_isoformat w)
         (stdout w ++ printed (summary_lines r)) (browser w)).
Proof.
  intros Hr. unfold main.
  erewrite bind_inr by (unfold reading; by rewrite Hr).
  erewrite bind_inr by apply print_all_spec. reflexivity.
Qed.

Lemma main_after_json args w r :
  analyze_log w (arg_file args) (arg_top args) = inr r ->
  u "output" ∈ dirs w \/ files w !! u "output" = None ->
  JSON_PATH ∉ dirs w ->
  main args w
  = (out_path ← save_html_report r;
     print (NL :: u "Saved HTML report to: " ++ out_path ++ [NL]))
      (World (<[JSON_PATH := json_bytes r]> (files w)) ({[u "output"]} ∪ dirs w)
         (utcnow_isoformat w)
         (stdout w ++ printed (summary_lines r ++ [saved_json_message]))
         (browser w)).
Proof.
  intros Hr Ho Hj. rewrite (main_after_summary _ _ _ Hr).
  erewrite bind_inr by (by apply save_report_spec).
  erewrite bind_inr by reflexivity.
  cbn [files dirs utcnow_isoformat stdout browser]. f_equal. f_equal.
  rewrite printed_app. unfold printed at 3. cbn [map concat].
  unfold saved_json_message. by rewrite <- !app_assoc, ?app_nil_r.
Qed.

Lemma output_made w : u "output" ∈ {[u "output"]} ∪ dirs w.
Proof. apply elem_of_union_l. by apply elem_of_singleton. Qed.

Lemma save_html_report_blocked r w :
  u "output" ∈ dirs w -> HTML_PATH ∈ dirs w ->
  save_html_report r w = (inl (IsADirectoryError HTML_PATH), w).
Proof.
  intros Ho Hh. unfold save_html_report, ensure_output_dir.
  erewrite bind_inr.
  2:{ unfold makedirs_exist_ok. by rewrite bool_decide_eq_true_2. }
  erewrite bind_inl; [reflexivity|]. by apply write_text_blocked.
Qed.

Lemma main_run_succeeds args w r html :
  analyze_log w (arg_file args) (arg_top args) = inr r ->
  u "output" ∈ dirs w \/ files w !! u "output" = None ->
  JSON_PATH ∉ dirs w ->
  HTML_PATH ∉ dirs w ->
  encode (html_content r) = inr html ->
  main args w
  = (inr tt,
     World (<[HTML_PATH := html]> (<[JSON_PATH := json_bytes r]> (files w)))
       ({[u "output"]} ∪ dirs w)
       (utcnow_isoformat w)
       (stdout w
        ++ printed (summary_lines r ++ [saved_json_message; saved_html_message]))
       (browser w ++ [HTML_PATH])).
Proof.
  intros Hr Ho Hj Hh Hhtml. rewrite (main_after_json _ _ _ Hr Ho Hj).
  erewrite bind_inr.
  2:{ apply save_html_report_spec; cbn [files dirs];
        [left; apply output_made|by apply not_output_dir|exact Hhtml]. }
  unfold print. cbn [files dirs utcnow_isoformat stdout browser].
  f_equal. f_equal.
  - by rewrite (assoc_L (∪)), union_idemp_L.
  - rewrite !printed_app. unfold printed at 2 4. cbn [map concat].
    unfold saved_json_message, saved_html_message.
    by rewrite <- !app_assoc, ?app_nil_r.
Qed.

(** The report of a source that can be read, and the bytes of its page. *)
Lemma report_and_page_exist args w bs :
  files w !! arg_file args = Some bs ->
  scalars (arg_file args) ->
  exists r html,
    analyze_log w (arg_file args) (arg_top args) = inr r
    /\ scalars (html_content r)
    /\ encode (html_content r) = inr html.
Proof.
  intros Hf Hs.
  destruct (open_lines_replace_total bs) as [lines Hl].
  pose proof (analyze_log_existing w _ (arg_top args) bs Hf) as Hr.
  rewrite Hl in Hr.
  set (r := build_report w (arg_file args) (arg_top args) (scan lines)) in *.
  assert (scalars (html_content r)) as Hc.
  { apply html_content_scalars; [exact Hs|]. eapply report_scalars, Hr. }
  destruct (encode_scalars _ Hc) as [html Hhtml].
  by exists r, html.
Qed.

(** When the source can be read, [output] is or can be made a directory,
    neither report path is a directory and the file name holds no
    surrogate, [main] returns normally: both reports are written, [output]
    exists, the summary and the two messages are printed, and the HTML
    report is opened once. *)
Theorem main_writes_both_reports args w bs :
  files w !! arg_file args = Some bs ->
  u "output" ∈ dirs w \/ files w !! u "output" = None ->
  JSON_PATH ∉ dirs w ->
  HTML_PATH ∉ dirs w ->
  scalars (arg_file args) ->
  exists r html,
    analyze_log w (arg_file args) (arg_top args) = inr r
    /\ encode (html_content r) = inr html
    /\ main args w
       = (inr tt,
          World (<[HTML_PATH := html]> (<[JSON_PATH := json_bytes r]> (files w)))
            ({[u "output"]} ∪ dirs w)
            (utcnow_isoformat w)
            (stdout w
             ++ printed (summary_lines r
                         ++ [saved_json_message; saved_html_message]))
            (browser w ++ [HTML_PATH])).
Proof.
  intros Hf Ho Hj Hh Hs.
  destruct (report_and_page_exist args w bs Hf Hs) as (r & html & Hr & _ & He).
  exists r, html. split; [exact Hr|]. split; [exact He|].
  by apply main_run_succeeds.
Qed.

Lemma main_blocked_by_output_file args w r :
  analyze_log w (arg_file args) (arg_top args) = inr r ->
  u "output" ∉ dirs w ->
  is_Some (files w !! u "output") ->
  (main args w).1 = inl (FileExistsError (u "output")).
Proof.
  intros Hr Hd Hf. rewrite (main_after_summary _ _ _ Hr).
  erewrite bind_inl; [reflexivity|]. unfold save_report, ensure_output_dir.
  erewrite bind_inl; [reflexivity|]. by apply makedirs_exist_ok_blocked.
Qed.


Lemma main_blocked_by_html_directory args w r :
  analyze_log w (arg_file args) (arg_top args) = inr r ->
  u "output" ∈ dirs w \/ files w !! u "output" = None ->
  JSON_PATH ∉ dirs w ->
  HTML_PATH ∈ dirs w ->
  (main args w).1 = inl (IsADirectoryError HTML_PATH).
Proof.
  intros Hr Ho Hj Hh. rewrite (main_after_json _ _ _ Hr Ho Hj).
  erewrite bind_inl; [reflexivity|].
  apply save_html_report_blocked; cbn [dirs];
    [apply output_made|by apply elem_of_union_r].
Qed.


Lemma only_outputs_changed_refl w : only_outputs_changed w w.
Proof.
  split_and!; try done.
  - apply union_subseteq_r.
  - exists []. by rewrite app_nil_r.
  - exists []. by rewrite app_nil_r.
Qed.

Lemma only_outputs_changed_trans w1 w2 w3 :
  only_outputs_changed w1 w2 -> only_outputs_changed w2 w3 ->
  only_outputs_changed w1 w3.
Proof.
  intros (Hf1 & Hd1 & He1 & Hu1 & [o1 Ho1] & [b1 [Hb1 Hp1]])
         (Hf2 & Hd2 & He2 & Hu2 & [o2 Ho2] & [b2 [Hb2 Hp2]]).
  split_and!.
  - intros p ? ?. rewrite Hf2, Hf1; done.
  - by etrans.
  - etrans; [exact He2|]. apply union_least; [apply union_subseteq_l|exact He1].
  - congruence.
  - exists (o1 ++ o2). by rewrite Ho2, Ho1, app_assoc.
  - exists (b1 ++ b2). split; [by rewrite Hb2, Hb1, app_assoc|by apply Forall_app].
Qed.

Lemma only_outputs_changed_bind {A B} (m : M A) (f : A -> M B) w :
  only_outputs_changed w (m w).2 ->
  (forall a w', only_outputs_changed w' (f a w').2) ->
  only_outputs_changed w ((m ≫= f) w).2.
Proof.
  intros Hm Hf. unfold mbind, M_bind.
  destruct (m w) as [[e|a] w']; [exact Hm|].
  eapply only_outputs_changed_trans; [exact Hm|apply Hf].
Qed.

Lemma only_outputs_changed_print s w : only_outputs_changed w (print s w).2.
Proof.
  split_and!; try done.
  - apply union_subseteq_r.
  - by eexists.
  - exists []. by rewrite app_nil_r.
Qed.

Lemma only_outputs_changed_print_all ls w :
  only_outputs_changed w (print_all ls w).2.
Proof.
  rewrite print_all_spec. split_and!; try done.
  - apply union_subseteq_r.
  - by eexists.
  - exists []. by rewrite app_nil_r.
Qed.

Lemma only_outputs_changed_makedirs w :
  only_outputs_changed w (ensure_output_dir w).2.
Proof.
  unfold ensure_output_dir, makedirs_exist_ok.
  repeat case_match; try apply only_outputs_changed_refl.
  split_and!; try done.
  - apply union_subseteq_r.
  - exists []. by rewrite app_nil_r.
  - exists []. by rewrite app_nil_r.
Qed.

Lemma only_outputs_changed_write p text w :
  p = JSON_PATH \/ p = HTML_PATH ->
  only_outputs_changed w (write_text p text w).2.
Proof.
  intros Hp. unfold write_text.
  repeat case_match; try apply only_outputs_changed_refl.
  all: split_and!; try done;
    [ intros q ? ?; cbn [files set_files]; apply lookup_insert_ne;
      destruct Hp; congruence
    | apply union_subseteq_r
    | exists []; by rewrite app_nil_r
    | exists []; by rewrite app_nil_r ].
Qed.

Lemma only_outputs_changed_browser w :
  only_outputs_changed w (webbrowser_open HTML_PATH w).2.
Proof.
  split_and!; try done.
  - apply union_subseteq_r.
  - exists []. by rewrite app_nil_r.
  - exists [HTML_PATH]. split; [done|by repeat constructor].
Qed.

(** However the run ends, [main] changes no file other than the two
    reports, makes no directory other than [output], and only adds to the
    standard output; the source file is among the files left alone unless
    it is one of the two reports. *)
Theorem main_changes_only_its_outputs args w :
  only_outputs_changed w (main args w).2.
Proof.
  unfold main.
  apply only_outputs_changed_bind; [apply only_outputs_changed_refl|].
  intros r w1.
  apply only_outputs_changed_bind; [apply only_outputs_changed_print_all|].
  intros _ w2.
  apply only_outputs_changed_bind.
  { unfold save_report.
    apply only_outputs_changed_bind; [apply only_outputs_changed_makedirs|].
    intros _ w3.
    apply only_outputs_changed_bind; [apply only_outputs_changed_write; by left|].
    intros _ w4. apply only_outputs_changed_refl. }
  intros p1 w3.
  apply only_outputs_changed_bind; [apply only_outputs_changed_print|].
  intros _ w4.
  apply only_outputs_changed_bind; [|intros; apply only_outputs_changed_print].
  unfold save_html_report.
  apply only_outputs_changed_bind; [apply only_outputs_changed_makedirs|].
  intros _ w5.
  apply only_outputs_changed_bind; [apply only_outputs_changed_write; by right|].
  intros _ w6.
  apply only_outputs_changed_bind; [apply only_outputs_changed_browser|].
  intros _ w7. apply only_outputs_changed_refl.
Qed.

(** ** The order of the level keys *)

Lemma loop_body_level_counts st line :
  level_counts (loop_body st line)
  = match parsed_level line with
    | Some k => counter_incr k (level_counts st)
    | None => level_counts st
    end.
Proof.
  unfold loop_body, parsed_level, is_blank.
  destruct (negb (truthy (strip line))); [reflexivity|].
  by destruct (LOG_RE_search (strip line)) as [m|].
Qed.

(** The keys of [level_counts] stand in the order in which the levels first
    occur in the file, and so do the entries of the JSON report. *)
Theorem level_counts_keys_in_order_of_first_occurrence lines :
  (level_counts (scan lines)).*1 = first_seen (omap parsed_level lines).
Proof.
  induction lines as [|l lines IH] using rev_ind; [reflexivity|].
  rewrite scan_snoc, loop_body_level_counts, omap_app. simpl.
  destruct (parsed_level l) as [k|]; simpl.
  - unfold counter_incr. rewrite dict_set_keys, first_seen_snoc, IH. reflexivity.
  - by rewrite app_nil_r.
Qed.

(** ** Reading back what was written *)

Ltac bool_cases :=
  repeat match goal with
         | E : _ || _ = false |- _ => apply orb_false_iff in E as [? ?]
         | E : _ || _ = true |- _ => apply orb_true_iff in E as [?|?]
         | E : _ && _ = true |- _ => apply andb_true_iff in E as [? ?]
         | E : _ && _ = false |- _ => apply andb_false_iff in E as [?|?]
         | E : negb _ = false |- _ => apply negb_false_iff in E
         | E : negb _ = true |- _ => apply negb_true_iff in E
         | E : (if ?c then _ else _) = _ |- _ =>
             let C := fresh "C" in destruct c eqn:C
         | E : (_ <? _)%N = true |- _ => apply N.ltb_lt in E
         | E : (_ <? _)%N = false |- _ => apply N.ltb_ge in E
         | E : (_ <=? _)%N = true |- _ => apply N.leb_le in E
         | E : (_ <=? _)%N = false |- _ => apply N.leb_gt in E
         | E : (_ =? _)%N = true |- _ => apply N.eqb_eq in E
         | E : (_ =? _)%N = false |- _ => apply N.eqb_neq in E
         end.

Ltac decoder_eval :=
  repeat match goal with
         | |- (if ?b then _ else _) = _ =>
             let E := fresh "E" in
             destruct b eqn:E;
             try (exfalso; try unfold is_continuation in E;
                  bool_cases; lia)
         end.

Lemma utf8_decode_cons errors ch r0 :
  utf8_decode errors (ch :: r0)
  = if (ch <? 0x80)%N then emit ch (utf8_decode errors r0)
    else if (ch <? 0xC2)%N then
      ill_formed errors "invalid start byte" (utf8_decode errors r0)
    else if (ch <? 0xE0)%N then
      match r0 with
      | [] => ill_formed errors "unexpected end of data" (inr [])
      | ch2 :: r1 =>
          if is_continuation ch2
          then emit ((ch - 0xC0) * 64 + (ch2 - 0x80))%N (utf8_decode errors r1)
          else ill_formed errors "invalid continuation byte"
                 (utf8_decode errors r0)
      end
    else if (ch <? 0xF0)%N then
      match r0 with
      | [] => ill_formed errors "unexpected end of data" (inr [])
      | ch2 :: r1 =>
          if negb (is_continuation ch2)
             || (if (ch2 <? 0xA0)%N then (ch =? 0xE0)%N else (ch =? 0xED)%N)
          then ill_formed errors "invalid continuation byte"
                 (utf8_decode errors r0)
          else
            match r1 with
            | [] => ill_formed errors "unexpected end of data" (inr [])
            | ch3 :: r2 =>
                if is_continuation ch3
                then emit ((ch - 0xE0) * 4096 + (ch2 - 0x80) * 64
                           + (ch3 - 0x80))%N (utf8_decode errors r2)
                else ill_formed errors "invalid continuation byte"
                       (utf8_decode errors r1)
            end
      end
    else if (ch <? 0xF5)%N then
      match r0 with
      | [] => ill_formed errors "unexpected end of data" (inr [])
      | ch2 :: r1 =>
          if negb (is_continuation ch2)
             || (if (ch2 <? 0x90)%N then (ch =? 0xF0)%N else (ch =? 0xF4)%N)
          then ill_formed errors "invalid continuation byte"
                 (utf8_decode errors r0)
          else
            match r1 with
            | [] => ill_formed errors "unexpected end of data" (inr [])
            | ch3 :: r2 =>
                if negb (is_continuation ch3)
                then ill_formed errors "invalid continuation byte"
                       (utf8_decode errors r1)
                else
                  match r2 with
                  | [] => ill_formed errors "unexpected end of data" (inr [])
                  | ch4 :: r3 =>
                      if is_continuation ch4
                      then emit ((ch - 0xF0) * 262144 + (ch2 - 0x80) * 4096
                                 + (ch3 - 0x80) * 64 + (ch4 - 0x80))%N
                             (utf8_decode errors r3)
                      else ill_formed errors "invalid continuation byte"
                             (utf8_decode errors r2)
                  end
            end
      end
    else ill_formed errors "invalid start byte" (utf8_decode errors r0).
Proof. reflexivity. Qed.

Lemma split_code_point (c : N) :
  exists q1 m1 q2 m2 q3 m3,
    (c / 64 = q1 /\ c mod 64 = m1 /\ c / 4096 = q2 /\ (c / 64) mod 64 = m2
     /\ c / 262144 = q3 /\ (c / 4096) mod 64 = m3
     /\ c = 64 * q1 + m1 /\ q1 = 64 * q2 + m2 /\ q2 = 64 * q3 + m3
     /\ m1 < 64 /\ m2 < 64 /\ m3 < 64)%N.
Proof.
  exists (c / 64)%N, (c mod 64)%N, (c / 4096)%N, ((c / 64) mod 64)%N,
    (c / 262144)%N, ((c / 4096) mod 64)%N.
  split_and!; try reflexivity; try (apply N.mod_upper_bound; lia).
  - apply N.div_mod. lia.
  - change 4096%N with (64 * 64)%N. rewrite <- N.Div0.div_div.
    apply N.div_mod. lia.
  - change 262144%N with (4096 * 64)%N. rewrite <- N.Div0.div_div.
    apply N.div_mod. lia.
Qed.

Lemma utf8_decode_encoded_char errors c bs rest :
  is_scalar c = true ->
  utf8_encode_char c = Some bs ->
  utf8_decode errors (bs ++ rest) = emit c (utf8_decode errors rest).
Proof.
  unfold is_scalar, utf8_encode_char. intros Hc He.
  destruct (split_code_point c)
    as (q1 & m1 & q2 & m2 & q3 & m3 & Hq1 & Hm1 & Hq2 & Hm2 & Hq3 & Hm3 & Hc1
        & Hc2 & Hc3 & ? & ? & ?).
  rewrite ?Hm2, ?Hm3, ?Hq1, ?Hm1, ?Hq2, ?Hq3 in He. clear Hq1 Hm1 Hq2 Hm2 Hq3 Hm3.
  destruct (c <? 0x80)%N eqn:E1; [|destruct (c <? 0x800)%N eqn:E2;
    [|destruct ((0xD800 <=? c) && (c <=? 0xDFFF))%N eqn:E3;
      [discriminate|destruct (c <? 0x10000)%N eqn:E4]]];
    injection He as <-; bool_cases;
    cbn [app]; rewrite utf8_decode_cons; cbv beta iota;
    decoder_eval; f_equal; lia.
Qed.

Lemma utf8_encode_char_bytes c bs :
  is_scalar c = true -> utf8_encode_char c = Some bs ->
  Forall (fun n => (n < 256)%N) bs.
Proof.
  unfold is_scalar, utf8_encode_char. intros Hc He.
  destruct (split_code_point c)
    as (q1 & m1 & q2 & m2 & q3 & m3 & Hq1 & Hm1 & Hq2 & Hm2 & Hq3 & Hm3 & Hc1
        & Hc2 & Hc3 & ? & ? & ?).
  rewrite ?Hm2, ?Hm3, ?Hq1, ?Hm1, ?Hq2, ?Hq3 in He. clear Hq1 Hm1 Hq2 Hm2 Hq3 Hm3.
  destruct (c <? 0x80)%N eqn:E1; [|destruct (c <? 0x800)%N eqn:E2;
    [|destruct ((0xD800 <=? c) && (c <=? 0xDFFF))%N eqn:E3;
      [discriminate|destruct (c <? 0x10000)%N eqn:E4]]];
    injection He as <-; bool_cases;
    repeat (constructor; [lia|]); constructor.
Qed.

Lemma utf8_round_trip errors s ns :
  scalars s -> utf8_encode s = inr ns ->
  utf8_decode errors ns = inr s /\ Forall (fun n => (n < 256)%N) ns.
Proof.
  intros Hs. revert ns. induction Hs as [|c s Hc _ IH]; intros ns.
  - intros [= <-]. by split.
  - simpl. destruct (utf8_encode_char c) as [bs|] eqn:Ec; [|discriminate].
    destruct (utf8_encode s) as [e|r]; [discriminate|]. intros [= <-].
    destruct (IH r eq_refl) as [Hd Hb]. split.
    + rewrite (utf8_decode_encoded_char errors c bs r Hc Ec). by rewrite Hd.
    + apply Forall_app. split; [by eapply utf8_encode_char_bytes|exact Hb].
Qed.

Lemma to_N_byte_of_N n : (n < 256)%N -> Byte.to_N (byte_of_N n) = n.
Proof.
  intros Hn. unfold byte_of_N.
  destruct (Byte.of_N n) as [b|] eqn:Eb; [by apply Byte.to_of_N|].
  apply Byte.of_N_None_iff in Eb. lia.
Qed.

Lemma encode_decode errors s bs :
  scalars s -> encode s = inr bs -> decode errors bs = inr s.
Proof.
  unfold encode, decode. intros Hs.
  destruct (utf8_encode s) as [e|ns] eqn:En; [discriminate|]. intros [= <-].
  destruct (utf8_round_trip errors s ns Hs En) as [Hd Hb].
  rewrite map_map. rewrite (map_ext_Forall _ id); [by rewrite map_id|].
  eapply Forall_impl; [exact Hb|]. intros n Hn. by apply to_N_byte_of_N.
Qed.

Lemma plain_scalars s : plain s -> scalars s.
Proof.
  unfold plain, scalars. intros H. eapply Forall_impl; [exact H|]. intros c.
  unfold is_plain, is_scalar, NL.
  decide_comparisons; intros; first [reflexivity|discriminate|lia].
Qed.

(** What a successful run has written can be read back: decoded as UTF-8,
    with nothing to replace, [output/report.json] is the JSON text of the
    report and [output/report.html] is the page that was built. *)
Theorem written_reports_read_back args w bs :
  files w !! arg_file args = Some bs ->
  u "output" ∈ dirs w \/ files w !! u "output" = None ->
  JSON_PATH ∉ dirs w ->
  HTML_PATH ∉ dirs w ->
  scalars (arg_file args) ->
  exists r json html,
    analyze_log w (arg_file args) (arg_top args) = inr r
    /\ files (main args w).2 !! JSON_PATH = Some json
    /\ decode Strict json = inr (json_dumps 0 (json_of_report r))
    /\ files (main args w).2 !! HTML_PATH = Some html
    /\ decode Strict html = inr (html_content r).
Proof.
  intros Hf Ho Hj Hh Hs.
  destruct (report_and_page_exist args w bs Hf Hs) as (r & html & Hr & Hc & He).
  rewrite (main_run_succeeds args w r html Hr Ho Hj Hh He).
  exists r, (json_bytes r), html. cbn [snd files]. split_and!.
  - exact Hr.
  - rewrite lookup_insert_ne by done. apply lookup_insert_eq.
  - apply encode_decode; [|apply encode_json].
    apply plain_scalars, plain_json_dumps.
  - apply lookup_insert_eq.
  - by apply encode_decode.
Qed.

Lemma main_blocked_by_json_directory args w r :
  analyze_log w (arg_file args) (arg_top args) = inr r ->
  u "output" ∈ dirs w \/ files w !! u "output" = None ->
  JSON_PATH ∈ dirs w ->
  (main args w).1 = inl (IsADirectoryError JSON_PATH).
Proof.
  intros Hr Ho Hj. rewrite (main_after_summary _ _ _ Hr).
  erewrite bind_inl; [reflexivity|]. unfold save_report, ensure_output_dir.
  erewrite bind_inr by (by apply makedirs_exist_ok_spec).
  erewrite bind_inl; [reflexivity|].
  apply write_text_blocked. cbn [dirs set_dirs]. by apply elem_of_union_r.
Qed.

Lemma main_without_source args w :
  files w !! arg_file args = None -> exists e, (main args w).1 = inl e.
Proof.
  intros Hf. unfold main. eexists.
  erewrite bind_inl; [reflexivity|]. unfold reading.
  by rewrite (analyze_log_missing _ _ _ Hf).
Qed.

(** For a file name without surrogates, [main] ends with status 0 exactly
    when the source is a file, [output] is a directory or is free to become
    one, and neither report path is a directory. *)
Theorem main_succeeds_exactly_when args w :
  scalars (arg_file args) ->
  exit_status (main args w).1 = 0
  <-> is_Some (files w !! arg_file args)
      /\ (u "output" ∈ dirs w \/ files w !! u "output" = None)
      /\ (JSON_PATH ∉ dirs w)
      /\ (HTML_PATH ∉ dirs w).
Proof.
  intros Hs. split.
  - intros Hx.
    destruct (files w !! arg_file args) as [bs|] eqn:Hf.
    2:{ destruct (main_without_source args w Hf) as [e He].
        rewrite He in Hx. discriminate. }
    destruct (open_lines_replace_total bs) as [lines Hl].
    pose proof (analyze_log_existing w _ (arg_top args) bs Hf) as Hr.
    rewrite Hl in Hr.
    assert (u "output" ∈ dirs w \/ files w !! u "output" = None) as Ho.
    { destruct (decide (u "output" ∈ dirs w)) as [?|Hd]; [by left|right].
      destruct (files w !! u "output") as [x|] eqn:Hfo; [|done].
      rewrite (main_blocked_by_output_file args w _ Hr Hd) in Hx;
        [discriminate|by rewrite Hfo]. }
    assert (JSON_PATH ∉ dirs w) as Hj.
    { intros Hj. rewrite (main_blocked_by_json_directory _ _ _ Hr Ho Hj) in Hx.
      discriminate. }
    split_and!; try done.
    intros Hh. rewrite (main_blocked_by_html_directory _ _ _ Hr Ho Hj Hh) in Hx.
    discriminate.
  - intros ([bs Hf] & Ho & Hj & Hh).
    destruct (report_and_page_exist args w bs Hf Hs) as (r & html & Hr & _ & He).
    by rewrite (main_run_succeeds args w r html Hr Ho Hj Hh He).
Qed.

(** A source that is the UTF-8 encoding of a text is read as the lines of
    that text: nothing is replaced. *)
Theorem well_encoded_source_is_read_as_it_is w p s bs :
  scalars s ->
  encode s = inr bs ->
  files w !! p = Some bs ->
  file_lines w p = Some (readlines (translate_newlines s)).
Proof.
  intros Hs He Hf. unfold file_lines, open_lines.
  by rewrite Hf, (encode_decode Replace s bs Hs He).
Qed.

(** ** A larger top *)

(** Asking for more paths keeps the ones already listed: the top [n] are the
    first [n] of the top [m], for [n] at most [m]. *)
Theorem top_error_paths_grow_with_top_n w p n m st :
  n <= m ->
  Report.top_error_paths (build_report w p n st)
  = take (Z.to_nat n) (Report.top_error_paths (build_report w p m st)).
Proof.
  intros Hnm. simpl. unfold most_common. rewrite !nlargest_sorted, take_take.
  f_equal. lia.
Qed.

End Analyzer.

(** * The claims at sample inputs *)

(** C1 at [line_without_path]: a time stamp, the level INFO and no [path=];
    the line is counted as invalid. *)
Lemma C1_line_without_path_field_is_invalid_witness :
  is_blank line_without_path = false
  /\ contains (u "path=") (strip line_without_path) = false
  /\ LOG_RE_search ascii_only ascii_only (strip line_without_path) = None
  /\ loop_body ascii_only ascii_only initial line_without_path
     = Locals [] [] 1 0 1.
Proof.
  assert (is_blank line_without_path = false) as H1 by (vm_compute; reflexivity).
  assert (contains (u "path=") (strip line_without_path) = false) as H2
    by (vm_compute; reflexivity).
  exact (conj H1 (conj H2
    (C1_line_without_path_field_is_invalid ascii_only ascii_only initial
       line_without_path H1 H2))).
Defined.

(** C2 as the spec has it fails on an empty file: the report's
    [level_counts] is the empty mapping, with none of the three keys. *)
Lemma C2_empty_file_has_no_level_keys :
  analyze_log ascii_only ascii_only (sample_world []) (u "app.log") 5
  = inr empty_log_report
  /\ Report.level_counts empty_log_report = []
  /\ ~ (forall lvl, lvl ∈ LEVELS ->
          is_Some (dict_get (Some lvl) (Report.level_counts empty_log_report))).
Proof.
  split; [vm_compute; reflexivity|]. split; [reflexivity|].
  intros H. destruct (H (u "INFO")) as [v Hv]; [left|discriminate].
Qed.

(** C2 in the form that holds, at the scenario of the spec: ERROR and INFO
    are keys, WARNING is not. *)
Lemma C2_level_counts_holds_the_levels_seen_witness :
  let w := sample_world scenario_log in
  let r := scenario_report "2026-02-18T07:05:00Z" "app.log" in
  analyze_log ascii_only ascii_only w (u "app.log") 5 = inr r
  /\ file_lines w (u "app.log") = Some scenario_lines
  /\ (forall k,
        dict_get k (Report.level_counts r)
        = if decide (lines_of_level ascii_only ascii_only k scenario_lines = 0)
          then None
          else Some (lines_of_level ascii_only ascii_only k scenario_lines))
  /\ (forall k v, (k, v) ∈ Report.level_counts r ->
        (exists lvl, lvl ∈ LEVELS /\ k = Some lvl) /\ 1 <= v)
  /\ (forall lvl,
        level_count r lvl
        = lines_of_level ascii_only ascii_only (Some (u lvl)) scenario_lines)
  /\ (scenario_lines = [] -> Report.level_counts r = []).
Proof.
  intros w r.
  assert (analyze_log ascii_only ascii_only w (u "app.log") 5 = inr r) as H1
    by (vm_compute; reflexivity).
  assert (file_lines w (u "app.log") = Some scenario_lines) as H2
    by (vm_compute; reflexivity).
  exact (conj H1 (conj H2
    (C2_level_counts_holds_the_levels_seen ascii_only ascii_only w
       (u "app.log") 5 r scenario_lines H1 H2))).
Defined.

(** C3 at the scenario of the spec. *)
Lemma C3_total_is_parsed_plus_invalid_plus_blank_witness :
  let w := sample_world scenario_log in
  let r := scenario_report "2026-02-18T07:05:00Z" "app.log" in
  analyze_log ascii_only ascii_only w (u "app.log") 5 = inr r
  /\ file_lines w (u "app.log") = Some scenario_lines
  /\ Report.total_lines r
     = Report.parsed_lines r + Report.invalid_lines r
       + blank_lines_skipped scenario_lines.
Proof.
  intros w r.
  assert (analyze_log ascii_only ascii_only w (u "app.log") 5 = inr r) as H1
    by (vm_compute; reflexivity).
  assert (file_lines w (u "app.log") = Some scenario_lines) as H2
    by (vm_compute; reflexivity).
  exact (conj H1 (conj H2
    (proj1 (C3_total_is_parsed_plus_invalid_plus_blank ascii_only ascii_only w
              (u "app.log") 5 r scenario_lines H1 H2)))).
Defined.

(** C4 at the scenario of the spec. *)
Lemma C4_level_counts_sum_to_parsed_lines_witness :
  let w := sample_world scenario_log in
  let r := scenario_report "2026-02-18T07:05:00Z" "app.log" in
  analyze_log ascii_only ascii_only w (u "app.log") 5 = inr r
  /\ sum_values (Report.level_counts r) = Report.parsed_lines r.
Proof.
  intros w r.
  assert (analyze_log ascii_only ascii_only w (u "app.log") 5 = inr r) as H1
    by (vm_compute; reflexivity).
  exact (conj H1
    (C4_level_counts_sum_to_parsed_lines ascii_only ascii_only w
       (u "app.log") 5 r H1)).
Defined.

(** C5 with a tie: ["/a"] and ["/c"] both count 2 and ["/a"] was inserted
    first; the top 2 are ["/a"], then ["/c"]. *)
Lemma C5_top_error_paths_is_stable_top_n_witness :
  stable_sorted_desc (error_paths tied_error_paths) tied_sorted
  /\ Report.top_error_paths
       (build_report (sample_world []) (u "app.log") 2 tied_error_paths)
     = take 2 tied_sorted.
Proof.
  assert (stable_sorted_desc (error_paths tied_error_paths) tied_sorted) as H1.
  { split; [|split].
    - simpl. unfold tied_sorted. constructor. apply Permutation_swap.
    - unfold tied_sorted. repeat constructor; simpl; lia.
    - intros c. unfold tied_sorted. simpl. rewrite !filter_cons, !filter_nil.
      simpl. repeat case_decide; first [reflexivity|lia]. }
  exact (conj H1
    (proj1 (C5_top_error_paths_is_stable_top_n (sample_world []) (u "app.log")
              2 tied_error_paths tied_sorted H1))).
Defined.

(** C6 in a world that has no [app.log]. *)
Lemma C6_missing_source_is_fatal_and_writes_nothing_witness :
  files world_without_source !! arg_file sample_args = None
  /\ main ascii_only ascii_only sample_args world_without_source
     = (inl (FileNotFoundError (u "Log file not found: app.log")),
        world_without_source).
Proof.
  assert (files world_without_source !! arg_file sample_args = None) as H1
    by (vm_compute; reflexivity).
  exact (conj H1
    (proj1 (proj2 (C6_missing_source_is_fatal_and_writes_nothing ascii_only
                     ascii_only sample_args world_without_source H1)))).
Defined.

(** C8 for the scenario of the spec as [app.log] in one world and as
    [copy.log] in another. *)
Lemma C8_same_contents_same_counts_witness :
  let r1 := scenario_report "2026-02-18T07:05:00Z" "app.log" in
  let r2 := scenario_report "2027-01-01T00:00:00Z" "copy.log" in
  Report.total_lines r1 = Report.total_lines r2
  /\ Report.parsed_lines r1 = Report.parsed_lines r2
  /\ Report.invalid_lines r1 = Report.invalid_lines r2
  /\ Report.level_counts r1 = Report.level_counts r2
  /\ Report.top_error_paths r1 = Report.top_error_paths r2.
Proof.
  intros r1 r2.
  apply (C8_same_contents_same_counts ascii_only ascii_only
           (sample_world scenario_log) other_world (u "app.log") (u "copy.log")
           5 r1 r2 scenario_log);
    vm_compute; reflexivity.
Defined.

(** C9 on a file with bytes that are not UTF-8. *)
Lemma C9_undecodable_bytes_never_abort_witness :
  files (sample_world undecodable_log) !! u "app.log" = Some undecodable_log
  /\ exists lines,
       open_lines Replace undecodable_log = inr lines
       /\ analyze_log ascii_only ascii_only (sample_world undecodable_log)
            (u "app.log") 5
          = inr (build_report (sample_world undecodable_log) (u "app.log") 5
                   (scan ascii_only ascii_only lines)).
Proof.
  assert (files (sample_world undecodable_log) !! u "app.log"
          = Some undecodable_log) as H1 by (vm_compute; reflexivity).
  exact (conj H1
    (C9_undecodable_bytes_never_abort ascii_only ascii_only
       (sample_world undecodable_log) (u "app.log") 5 undecodable_log H1)).
Defined.

(** C10 at [line_with_empty_path], an ERROR line, and at the scenario of
    the spec. *)
Lemma C10_empty_path_token_is_no_path_witness :
  (LOG_RE_search ascii_only ascii_only (strip line_with_empty_path)
   = Some empty_path_match
   /\ group empty_path_match G_path = None
   /\ loop_body ascii_only ascii_only initial line_with_empty_path
      = Locals [(Some (u "ERROR"), 1)] [] 1 1 0)
  /\ (u "/login" <> [] /\ 1 <= 1).
Proof.
  assert (is_blank line_with_empty_path = false) as H1
    by (vm_compute; reflexivity).
  assert (LOG_RE_search ascii_only ascii_only (strip line_with_empty_path)
          = Some empty_path_match) as H2 by (vm_compute; reflexivity).
  assert (space_or_end_at (strip line_with_empty_path)
            (marker_end empty_path_match)) as H3 by (vm_compute; reflexivity).
  assert (analyze_log ascii_only ascii_only (sample_world scenario_log)
            (u "app.log") 5
          = inr (scenario_report "2026-02-18T07:05:00Z" "app.log")) as H4
    by (vm_compute; reflexivity).
  assert ((u "/login", 1)
          ∈ Report.top_error_paths
              (scenario_report "2026-02-18T07:05:00Z" "app.log")) as H5
    by (simpl; left).
  split.
  - split; [exact H2|].
    exact (proj2 (proj1 (C10_empty_path_token_is_no_path ascii_only ascii_only)
                    initial line_with_empty_path empty_path_match H1 H2 H3)).
  - exact (proj2 (C10_empty_path_token_is_no_path ascii_only ascii_only)
             (sample_world scenario_log) (u "app.log") 5 _ (u "/login") 1 H4 H5).
Defined.

(** * Further properties at sample inputs *)

(** The scenario of the spec: one error path, listed once with its count. *)
Lemma top_error_paths_lists_each_path_once_with_its_count_witness :
  let w := sample_world scenario_log in
  let r := scenario_report "2026-02-18T07:05:00Z" "app.log" in
  analyze_log ascii_only ascii_only w (u "app.log") 5 = inr r
  /\ file_lines w (u "app.log") = Some scenario_lines
  /\ NoDup (Report.top_error_paths r).*1
  /\ forall path count,
       (path, count) ∈ Report.top_error_paths r ->
       count = lines_of_path ascii_only ascii_only path scenario_lines.
Proof.
  intros w r.
  assert (analyze_log ascii_only ascii_only w (u "app.log") 5 = inr r) as H1
    by (vm_compute; reflexivity).
  assert (file_lines w (u "app.log") = Some scenario_lines) as H2
    by (vm_compute; reflexivity).
  exact (conj H1 (conj H2
    (top_error_paths_lists_each_path_once_with_its_count ascii_only ascii_only
       w (u "app.log") 5 r scenario_lines H1 H2))).
Defined.

(** The lines of the scenario in two orders. *)
Lemma counts_do_not_depend_on_line_order_witness :
  scenario_lines ≡ₚ scenario_lines_reordered
  /\ total_lines (scan ascii_only ascii_only scenario_lines)
     = total_lines (scan ascii_only ascii_only scenario_lines_reordered)
  /\ parsed_lines (scan ascii_only ascii_only scenario_lines)
     = parsed_lines (scan ascii_only ascii_only scenario_lines_reordered)
  /\ invalid_lines (scan ascii_only ascii_only scenario_lines)
     = invalid_lines (scan ascii_only ascii_only scenario_lines_reordered).
Proof.
  assert (scenario_lines ≡ₚ scenario_lines_reordered) as H1
    by apply Permutation_swap.
  pose proof (counts_do_not_depend_on_line_order ascii_only ascii_only
                scenario_lines scenario_lines_reordered H1) as (Ht & Hp & Hi & _).
  exact (conj H1 (conj Ht (conj Hp Hi))).
Defined.

(** The numbers of the scenario's report. *)
Lemma report_counts_are_ordered_witness :
  let w := sample_world scenario_log in
  let r := scenario_report "2026-02-18T07:05:00Z" "app.log" in
  analyze_log ascii_only ascii_only w (u "app.log") 5 = inr r
  /\ sum_values (Report.top_error_paths r) <= level_count r "ERROR"
  /\ level_count r "ERROR" <= Report.parsed_lines r
  /\ 0 <= Report.parsed_lines r
  /\ 0 <= Report.invalid_lines r
  /\ Report.parsed_lines r + Report.invalid_lines r <= Report.total_lines r.
Proof.
  intros w r.
  assert (analyze_log ascii_only ascii_only w (u "app.log") 5 = inr r) as H1
    by (vm_compute; reflexivity).
  exact (conj H1
    (report_counts_are_ordered ascii_only ascii_only w (u "app.log") 5 r H1)).
Defined.

(** [line_with_empty_path]: the level counted is ERROR, and no path. *)
Lemma counted_level_and_path_witness :
  parsed_level ascii_only ascii_only line_with_empty_path
  = Some (Some (u "ERROR"))
  /\ exists x,
       well_formed ascii_only ascii_only x
       /\ strip line_with_empty_path = line_of x
       /\ Some (u "ERROR") = Some (p_level x).
Proof.
  assert (parsed_level ascii_only ascii_only line_with_empty_path
          = Some (Some (u "ERROR"))) as H1 by (vm_compute; reflexivity).
  destruct (counted_level_and_path ascii_only ascii_only line_with_empty_path
              (Some (u "ERROR")) H1) as (x & Hw & Hl & Hk & _).
  exact (conj H1 (ex_intro _ x (conj Hw (conj Hl Hk)))).
Defined.

(** The scenario of the spec: two lines parsed, one invalid. *)
Lemma parsed_and_invalid_lines_count_witness :
  let w := sample_world scenario_log in
  let r := scenario_report "2026-02-18T07:05:00Z" "app.log" in
  analyze_log ascii_only ascii_only w (u "app.log") 5 = inr r
  /\ file_lines w (u "app.log") = Some scenario_lines
  /\ Report.parsed_lines r = parsed_count ascii_only ascii_only scenario_lines
  /\ Report.invalid_lines r = invalid_count ascii_only ascii_only scenario_lines.
Proof.
  intros w r.
  assert (analyze_log ascii_only ascii_only w (u "app.log") 5 = inr r) as H1
    by (vm_compute; reflexivity).
  assert (file_lines w (u "app.log") = Some scenario_lines) as H2
    by (vm_compute; reflexivity).
  exact (conj H1 (conj H2
    (parsed_and_invalid_lines_count ascii_only ascii_only w (u "app.log") 5 r
       scenario_lines H1 H2))).
Defined.

(** The lines of the scenario give its text back. *)
Lemma lines_partition_the_text_witness :
  let w := sample_world scenario_log in
  file_lines w (u "app.log") = Some scenario_lines
  /\ (exists bs, files w !! u "app.log" = Some bs
                 /\ decode Replace bs = inr scenario_text)
  /\ concat scenario_lines = translate_newlines scenario_text
  /\ Forall is_line scenario_lines.
Proof.
  intros w.
  assert (file_lines w (u "app.log") = Some scenario_lines) as H1
    by (vm_compute; reflexivity).
  assert (exists bs, files w !! u "app.log" = Some bs
                     /\ decode Replace bs = inr scenario_text) as H2
    by (exists scenario_log; split; vm_compute; reflexivity).
  destruct (lines_partition_the_text w (u "app.log") scenario_text
              scenario_lines H1 H2) as (Hc & Hl & _).
  exact (conj H1 (conj H2 (conj Hc Hl))).
Defined.

(** The text of the scenario has three line breaks and ends with one. *)
Lemma total_lines_counts_line_breaks_witness :
  let w := sample_world scenario_log in
  let r := scenario_report "2026-02-18T07:05:00Z" "app.log" in
  files w !! u "app.log" = Some scenario_log
  /\ decode Replace scenario_log = inr scenario_text
  /\ analyze_log ascii_only ascii_only w (u "app.log") 5 = inr r
  /\ Report.total_lines r
     = Z.of_nat (line_breaks (translate_newlines scenario_text))
       + (if open_ended (translate_newlines scenario_text) then 1 else 0).
Proof.
  intros w r.
  assert (files w !! u "app.log" = Some scenario_log) as H1
    by (vm_compute; reflexivity).
  assert (decode Replace scenario_log = inr scenario_text) as H2
    by (vm_compute; reflexivity).
  assert (analyze_log ascii_only ascii_only w (u "app.log") 5 = inr r) as H3
    by (vm_compute; reflexivity).
  exact (conj H1 (conj H2 (conj H3
    (total_lines_counts_line_breaks ascii_only ascii_only w (u "app.log") 5 r
       scenario_log scenario_text H1 H2 H3)))).
Defined.

(** A run on the scenario in a world without [output]. *)
Lemma main_writes_both_reports_witness :
  let w := sample_world scenario_log in
  files w !! arg_file sample_args = Some scenario_log
  /\ (u "output" ∈ dirs w \/ files w !! u "output" = None)
  /\ (JSON_PATH ∉ dirs w)
  /\ (HTML_PATH ∉ dirs w)
  /\ scalars (arg_file sample_args)
  /\ exists r html,
       analyze_log ascii_only ascii_only w (arg_file sample_args)
         (arg_top sample_args) = inr r
       /\ encode (html_content r) = inr html
       /\ main ascii_only ascii_only sample_args w
          = (inr tt,
             World (<[HTML_PATH := html]>
                      (<[JSON_PATH := json_bytes r]> (files w)))
               ({[u "output"]} ∪ dirs w)
               (utcnow_isoformat w)
               (stdout w
                ++ printed (summary_lines r
                            ++ [saved_json_message; saved_html_message]))
               (browser w ++ [HTML_PATH])).
Proof.
  intros w.
  assert (files w !! arg_file sample_args = Some scenario_log) as H1
    by (vm_compute; reflexivity).
  assert (u "output" ∈ dirs w \/ files w !! u "output" = None) as H2
    by (right; vm_compute; reflexivity).
  assert (JSON_PATH ∉ dirs w) as H3 by apply not_elem_of_empty.
  assert (HTML_PATH ∉ dirs w) as H4 by apply not_elem_of_empty.
  assert (scalars (arg_file sample_args)) as H5 by apply u_scalars.
  exact (conj H1 (conj H2 (conj H3 (conj H4 (conj H5
    (main_writes_both_reports ascii_only ascii_only sample_args w scenario_log
       H1 H2 H3 H4 H5)))))).
Defined.



(** The reports of a run on the scenario, read back. *)
Lemma written_reports_read_back_witness :
  let w := sample_world scenario_log in
  files w !! arg_file sample_args = Some scenario_log
  /\ (u "output" ∈ dirs w \/ files w !! u "output" = None)
  /\ (JSON_PATH ∉ dirs w)
  /\ (HTML_PATH ∉ dirs w)
  /\ scalars (arg_file sample_args)
  /\ exists r json html,
       analyze_log ascii_only ascii_only w (arg_file sample_args)
         (arg_top sample_args) = inr r
       /\ files (main ascii_only ascii_only sample_args w).2 !! JSON_PATH
          = Some json
       /\ decode Strict json = inr (json_dumps 0 (json_of_report r))
       /\ files (main ascii_only ascii_only sample_args w).2 !! HTML_PATH
          = Some html
       /\ decode Strict html = inr (html_content r).
Proof.
  intros w.
  assert (files w !! arg_file sample_args = Some scenario_log) as H1
    by (vm_compute; reflexivity).
  assert (u "output" ∈ dirs w \/ files w !! u "output" = None) as H2
    by (right; vm_compute; reflexivity).
  assert (JSON_PATH ∉ dirs w) as H3 by apply not_elem_of_empty.
  assert (HTML_PATH ∉ dirs w) as H4 by apply not_elem_of_empty.
  assert (scalars (arg_file sample_args)) as H5 by apply u_scalars.
  exact (conj H1 (conj H2 (conj H3 (conj H4 (conj H5
    (written_reports_read_back ascii_only ascii_only sample_args w scenario_log
       H1 H2 H3 H4 H5)))))).
Defined.

(** The run on the scenario ends with status 0. *)
Lemma main_succeeds_exactly_when_witness :
  let w := sample_world scenario_log in
  scalars (arg_file sample_args)
  /\ (exit_status (main ascii_only ascii_only sample_args w).1 = 0
      <-> is_Some (files w !! arg_file sample_args)
          /\ (u "output" ∈ dirs w \/ files w !! u "output" = None)
          /\ (JSON_PATH ∉ dirs w)
          /\ (HTML_PATH ∉ dirs w)).
Proof.
  intros w.
  assert (scalars (arg_file sample_args)) as H1 by apply u_scalars.
  exact (conj H1
    (main_succeeds_exactly_when ascii_only ascii_only sample_args w H1)).
Defined.

(** [scenario_log] is the encoding of [scenario_text]. *)
Lemma well_encoded_source_is_read_as_it_is_witness :
  let w := sample_world scenario_log in
  scalars scenario_text
  /\ encode scenario_text = inr scenario_log
  /\ files w !! u "app.log" = Some scenario_log
  /\ file_lines w (u "app.log")
     = Some (readlines (translate_newlines scenario_text)).
Proof.
  intros w.
  assert (scalars scenario_text) as H1 by (repeat constructor).
  assert (encode scenario_text = inr scenario_log) as H2
    by (vm_compute; reflexivity).
  assert (files w !! u "app.log" = Some scenario_log) as H3
    by (vm_compute; reflexivity).
  exact (conj H1 (conj H2 (conj H3
    (well_encoded_source_is_read_as_it_is w (u "app.log") scenario_text
       scenario_log H1 H2 H3)))).
Defined.

(** The top 1 of [tied_error_paths] is the first of its top 2. *)
Lemma top_error_paths_grow_with_top_n_witness :
  1 <= 2
  /\ Report.top_error_paths
       (build_report (sample_world []) (u "app.log") 1 tied_error_paths)
     = take (Z.to_nat 1)
         (Report.top_error_paths
            (build_report (sample_world []) (u "app.log") 2 tied_error_paths)).
Proof.
  assert (1 <= 2) as H1 by lia.
  exact (conj H1
    (top_error_paths_grow_with_top_n (sample_world []) (u "app.log") 1 2
       tied_error_paths H1)).
Defined.
